(** * Wi-Fi scan parser and continuous-scan coordinator

    A shallow embedding of [MPI_HW1_ExampleCode/WiFiScanner.py] (class
    [WiFiScanner]), of [scan_wifi] in [From GPT/wifi.py] and of the readings
    of [MPI_HW1_ExampleCode/main.py], with the properties stated for them in
    the specification and further properties of the same code.

    Text is modelled as a list of characters.  A character is an [ascii],
    so a text ranges over the code points below 256; on those, Python's
    [\d] is the class [0-9] and [.] is every character but the line feed. *)

From Stdlib Require Import Ascii String.
From Stdlib Require Import List ZArith Lia Bool Arith PeanoNat.
From Stdlib Require Import Permutation Sorted.
From Stdlib Require QArith_base.
From Stdlib Require DecimalString DecimalNat DecimalFacts.
Import ListNotations.

Local Open Scope list_scope.

(** ** Text *)

Definition str := list ascii.

Definition text (s : string) : str := list_ascii_of_string s.

Fixpoint str_eqb (a b : str) : bool :=
  match a, b with
  | [], [] => true
  | x :: a', y :: b' => Ascii.eqb x y && str_eqb a' b'
  | _, _ => false
  end.

Definition LF : ascii := ascii_of_nat 10.

(** ** Regular expressions

    The patterns of the two programs are sequences of single-character
    classes under a quantifier, with at most one capturing group.  [match_here]
    is a backtracking matcher in the order of Python's [re]: every quantifier
    is greedy and gives characters back one at a time. *)

Module Re.

Inductive quant : Type :=
| Once                      (* c      *)
| Optional                  (* c?     *)
| ZeroOrMore                (* c*     *)
| OneOrMore                 (* c+     *)
| Exactly (n : nat).        (* c{n}   *)

Inductive node : Type :=
| Chars (cls : ascii -> bool) (q : quant)
| GroupStart
| GroupEnd.

Definition pattern := list node.

(** Character classes. *)
Definition chr (c : ascii) : ascii -> bool := Ascii.eqb c.
Definition any_of (cs : list (ascii -> bool)) : ascii -> bool :=
  fun c => existsb (fun cls => cls c) cs.
Definition range (lo hi : ascii) : ascii -> bool :=
  fun c => (nat_of_ascii lo <=? nat_of_ascii c) && (nat_of_ascii c <=? nat_of_ascii hi).
Definition digit : ascii -> bool := range "0"%char "9"%char.            (* \d *)
Definition dot : ascii -> bool := fun c => negb (Ascii.eqb c LF).  (* . *)
Definition none_of (cls : ascii -> bool) : ascii -> bool := fun c => negb (cls c).

(** A literal run of characters. *)
Definition lit (s : string) : pattern :=
  map (fun c => Chars (chr c) Once) (text s).

(** What a successful match leaves behind: the text after the match and, for
    each end of the group, the text that started there. *)
Record found : Type := mkFound {
  rest : str;
  group_open : option str;
  group_close : option str
}.

Definition opened (s : str) (f : found) : found :=
  mkFound (rest f) (Some s) (group_close f).
Definition closed (s : str) (f : found) : found :=
  mkFound (rest f) (group_open f) (Some s).

Section Quantifiers.
Variable cls : ascii -> bool.
Variable k : str -> option found.

Definition once (s : str) : option found :=
  match s with
  | c :: s' => if cls c then k s' else None
  | [] => None
  end.

Definition optional (s : str) : option found :=
  match s with
  | c :: s' =>
      if cls c then
        match k s' with
        | Some f => Some f
        | None => k s
        end
      else k s
  | [] => k s
  end.

Fixpoint greedy (s : str) : option found :=
  match s with
  | c :: s' =>
      if cls c then
        match greedy s' with
        | Some f => Some f
        | None => k s
        end
      else k s
  | [] => k s
  end.

Definition at_least_one (s : str) : option found :=
  match s with
  | c :: s' => if cls c then greedy s' else None
  | [] => None
  end.

Fixpoint exactly (n : nat) (s : str) : option found :=
  match n with
  | O => k s
  | S n' =>
      match s with
      | c :: s' => if cls c then exactly n' s' else None
      | [] => None
      end
  end.
End Quantifiers.

Fixpoint match_here (p : pattern) : str -> option found :=
  match p with
  | [] => fun s => Some (mkFound s None None)
  | GroupStart :: p' => fun s => option_map (opened s) (match_here p' s)
  | GroupEnd :: p' => fun s => option_map (closed s) (match_here p' s)
  | Chars cls q :: p' =>
      match q with
      | Once => once cls (match_here p')
      | Optional => optional cls (match_here p')
      | ZeroOrMore => greedy cls (match_here p')
      | OneOrMore => at_least_one cls (match_here p')
      | Exactly n => exactly cls (match_here p') n
      end
  end.

(** A match object: the text from the start of the match on, and what
    [match_here] found there. *)
Record match_object : Type := mkMatch {
  from : str;
  hit : found
}.

(** [re.search]: the leftmost position at which the pattern matches. *)
Fixpoint search (p : pattern) (s : str) : option match_object :=
  match match_here p s with
  | Some f => Some (mkMatch s f)
  | None =>
      match s with
      | [] => None
      | _ :: s' => search p s'
      end
  end.

Definition between (a b : str) : str := firstn (length a - length b) a.

(** [m.group(1)] *)
Definition group1 (m : match_object) : str :=
  match group_open (hit m), group_close (hit m) with
  | Some a, Some b => between a b
  | _, _ => []
  end.

(** [re.split] for a pattern without groups that matches no empty text: the
    pieces between successive leftmost matches.  [skip] counts the characters
    of the current match still to pass; [piece] is the current piece, last
    character first. *)
Fixpoint split_from (p : pattern) (skip : nat) (piece : str) (s : str) : list str :=
  match s with
  | [] => [rev piece]
  | c :: s' =>
      match skip with
      | S n => split_from p n piece s'
      | O =>
          match match_here p s with
          | Some f => rev piece :: split_from p (length s' - length (rest f)) [] s'
          | None => split_from p 0 (c :: piece) s'
          end
      end
  end.

Definition split (p : pattern) (s : str) : list str := split_from p 0 [] s.

(** *** The language of a pattern *)

(** How many characters a quantifier lets its class take. *)
Definition admits (q : quant) (n : nat) : Prop :=
  match q with
  | Once => n = 1
  | Optional => n <= 1
  | ZeroOrMore => True
  | OneOrMore => 1 <= n
  | Exactly m => n = m
  end.

Definition all_in (cls : ascii -> bool) (a : str) : Prop :=
  Forall (fun c => cls c = true) a.

(** The texts a pattern matches in full (groups do not change them). *)
Fixpoint lang (p : pattern) (m : str) : Prop :=
  match p with
  | [] => m = []
  | Chars cls q :: p' =>
      exists a b, m = a ++ b /\ all_in cls a /\ admits q (length a) /\ lang p' b
  | GroupStart :: p' => lang p' m
  | GroupEnd :: p' => lang p' m
  end.

(** Pieces put together again, a delimiter before each piece but the first. *)
Fixpoint joined (first : str) (more : list (str * str)) : str :=
  match more with
  | [] => first
  | (delimiter, piece) :: more' => first ++ delimiter ++ joined piece more'
  end.

(** At no position of [piece] does the pattern match, [follow] being the
    text after the piece. *)
Definition quiet (p : pattern) (piece follow : str) : Prop :=
  forall a b, piece = a ++ b -> b <> [] -> match_here p (b ++ follow) = None.

(** The pattern has no group. *)
Fixpoint groupless (p : pattern) : bool :=
  match p with
  | [] => true
  | Chars _ _ :: p' => groupless p'
  | _ => false
  end.

(** The pattern matches somewhere in the text. *)
Definition occurs (p : pattern) (s : str) : Prop :=
  exists pre m post, s = pre ++ m ++ post /\ lang p m.

End Re.

(** ** The Python runtime: exceptions, effects, [int], ordered dictionaries *)

(** The classes below [Exception] that the two programs can meet. *)
Inductive exception : Type :=
| CalledProcessError (returncode : Z)
| TimeoutExpired
| FileNotFoundError
| PermissionError
| UnicodeDecodeError
| ValueError.

(** What a statement can raise.  Since Python 3.8 [asyncio.CancelledError]
    derives from [BaseException], not from [Exception]. *)
Inductive exn : Type :=
| Exception (e : exception)
| CancelledError.

(** [isinstance(e, Exception)] *)
Definition is_Exception (e : exn) : bool :=
  match e with
  | Exception _ => true
  | CancelledError => false
  end.

Definition is_CalledProcessError (e : exn) : bool :=
  match e with
  | Exception (CalledProcessError _) => true
  | _ => false
  end.

Definition is_TimeoutExpired (e : exn) : bool :=
  match e with
  | Exception TimeoutExpired => true
  | _ => false
  end.

Definition is_FileNotFoundError (e : exn) : bool :=
  match e with
  | Exception FileNotFoundError => true
  | _ => false
  end.

Definition is_CancelledError (e : exn) : bool :=
  match e with
  | CancelledError => true
  | _ => false
  end.

(** A statement either returns a value or raises; it runs on a state. *)
Inductive outcome (A : Type) : Type :=
| Return (a : A)
| Raise (e : exn).

Arguments Return {A} a.
Arguments Raise {A} e.

Definition M (S A : Type) : Type := S -> outcome A * S.

Definition ret {S A : Type} (a : A) : M S A := fun s => (Return a, s).

Definition raise {S A : Type} (e : exn) : M S A := fun s => (Raise e, s).

Definition bind {S A B : Type} (c : M S A) (k : A -> M S B) : M S B :=
  fun s =>
    match c s with
    | (Return a, s') => k a s'
    | (Raise e, s') => (Raise e, s')
    end.

Definition gets {S A : Type} (f : S -> A) : M S A := fun s => (Return (f s), s).

Definition modify {S : Type} (f : S -> S) : M S unit := fun s => (Return tt, f s).

(** An [except] clause: the classes it names, and its body. *)
Definition handler (S A : Type) : Type := ((exn -> bool) * (exn -> M S A))%type.

Fixpoint dispatch {S A : Type} (hs : list (handler S A)) (e : exn) : M S A :=
  match hs with
  | [] => raise e
  | (catches, body) :: hs' => if catches e then body e else dispatch hs' e
  end.

(** [try: c  except ...: ...]: the first clause that names the exception runs. *)
Definition try_except {S A : Type} (c : M S A) (hs : list (handler S A)) : M S A :=
  fun s =>
    match c s with
    | (Return a, s') => (Return a, s')
    | (Raise e, s') => dispatch hs e s'
    end.

Declare Scope py_scope.
Delimit Scope py_scope with py.
Notation "x <- c ;; k" := (bind c (fun x => k))
  (at level 61, c at next level, right associativity) : py_scope.
Notation "c ;; k" := (bind c (fun _ => k))
  (at level 61, right associativity) : py_scope.

(** *** [str] methods and [int] *)

(** [str.isspace] on one character. *)
Definition isspace (c : ascii) : bool :=
  let n := nat_of_ascii c in
  ((9 <=? n) && (n <=? 13)) || ((28 <=? n) && (n <=? 32)) || (n =? 133) || (n =? 160).

Fixpoint lstrip (s : str) : str :=
  match s with
  | c :: s' => if isspace c then lstrip s' else s
  | [] => []
  end.

Definition rstrip (s : str) : str := rev (lstrip (rev s)).

(** [s.strip()] *)
Definition strip (s : str) : str := rstrip (lstrip s).

(** [s.split(sep)] for a one-character separator. *)
Fixpoint split_on (sep : ascii) (piece : str) (s : str) : list str :=
  match s with
  | [] => [rev piece]
  | c :: s' =>
      if Ascii.eqb c sep then rev piece :: split_on sep [] s'
      else split_on sep (c :: piece) s'
  end.

(** [s.split()]: the runs of characters that are not white space. *)
Fixpoint split_whitespace (piece : str) (s : str) : list str :=
  match s with
  | [] => match piece with [] => [] | _ => [rev piece] end
  | c :: s' =>
      if isspace c then
        match piece with
        | [] => split_whitespace [] s'
        | _ => rev piece :: split_whitespace [] s'
        end
      else split_whitespace (c :: piece) s'
  end.

Definition digit_value (c : ascii) : Z := Z.of_nat (nat_of_ascii c) - 48.

(** The digits of a decimal literal, single underscores between digits
    dropped; [None] when the text is not such a literal. *)
Fixpoint literal_digits (after_digit : bool) (s : str) : option str :=
  match s with
  | [] => if after_digit then Some [] else None
  | c :: s' =>
      if Re.digit c then option_map (cons c) (literal_digits true s')
      else if Ascii.eqb c "_"%char then
        if after_digit then literal_digits false s' else None
      else None
  end.

Definition decimal (ds : str) : Z :=
  fold_left (fun acc c => 10 * acc + digit_value c)%Z ds 0%Z.

(** The white space [int] skips around a literal: the characters of
    [str.isspace] but for the separators U+001C to U+001F, which [int]
    refuses. *)
Definition int_space (c : ascii) : bool :=
  let n := nat_of_ascii c in
  isspace c && negb ((28 <=? n) && (n <=? 31)).

Fixpoint skip_spaces (s : str) : str :=
  match s with
  | c :: s' => if int_space c then skip_spaces s' else s
  | [] => []
  end.

(** A text without the white space [int] skips on both sides. *)
Definition int_body (s : str) : str := rev (skip_spaces (rev (skip_spaces s))).

(** [int(s)] on a text.  [max_str_digits] is the interpreter's
    [sys.get_int_max_str_digits()]: 0 switches the limit off, CPython starts
    with 4300, and a literal with more digits than the limit is refused. *)
Definition int {S : Type} (max_str_digits : nat) (s : str) : M S Z :=
  let body := int_body s in
  let (negative, unsigned) :=
    match body with
    | c :: body' =>
        if Ascii.eqb c "-"%char then (true, body')
        else if Ascii.eqb c "+"%char then (false, body')
        else (false, body)
    | [] => (false, body)
    end in
  match literal_digits false unsigned with
  | None => raise (Exception ValueError)
  | Some ds =>
      if (0 <? max_str_digits) && (max_str_digits <? length ds) then raise (Exception ValueError)
      else ret (if negative then - decimal ds else decimal ds)%Z
  end.

(** *** Dictionaries

    A [dict] keeps its keys in the order of their first insertion; assigning
    to a key that is present replaces the value where it stands. *)

Module PyDict.
Section Dict.
Variable V : Type.

Definition dict := list (str * V).

Fixpoint setitem (k : str) (v : V) (d : dict) : dict :=
  match d with
  | [] => [(k, v)]
  | (k', v') :: d' =>
      if str_eqb k k' then (k, v) :: d' else (k', v') :: setitem k v d'
  end.

Fixpoint get (k : str) (d : dict) : option V :=
  match d with
  | [] => None
  | (k', v') :: d' => if str_eqb k k' then Some v' else get k d'
  end.

Definition keys (d : dict) : list str := map fst d.
Definition values (d : dict) : list V := map snd d.
Definition items (d : dict) : list (str * V) := d.
Definition len (d : dict) : nat := length d.

(** [bool(d)] *)
Definition truthy (d : dict) : bool :=
  match d with
  | [] => false
  | _ => true
  end.

(** [d.update(other)] *)
Definition update (d : dict) (other : list (str * V)) : dict :=
  fold_left (fun acc kv => setitem (fst kv) (snd kv) acc) other d.

(** [dict(pairs)] *)
Definition of_items (pairs : list (str * V)) : dict := update [] pairs.

(** The keys of a dictionary are pairwise distinct. *)
Definition wf (d : dict) : Prop := NoDup (keys d).
End Dict.

Arguments setitem {V} k v d.
Arguments get {V} k d.
Arguments keys {V} d.
Arguments values {V} d.
Arguments items {V} d.
Arguments len {V} d.
Arguments truthy {V} d.
Arguments update {V} d other.
Arguments of_items {V} pairs.
Arguments wf {V} d.
End PyDict.

(** [l[:stop]] *)
Definition slice_to {A : Type} (l : list A) (stop : Z) : list A :=
  let n := Z.of_nat (length l) in
  let stop := if (stop <? 0)%Z then Z.max (stop + n) 0 else Z.min stop n in
  firstn (Z.to_nat stop) l.

(** [sorted(l, key=key, reverse=True)]: a stable sort into descending key
    order, so elements of equal key keep the order they had in [l]. *)
Section SortedReverse.
Variable A : Type.
Variable key : A -> Z.

Fixpoint insert_desc (x : A) (l : list A) : list A :=
  match l with
  | [] => [x]
  | y :: l' => if (key x <? key y)%Z then y :: insert_desc x l' else x :: l
  end.

Definition sorted_reverse (l : list A) : list A :=
  fold_right insert_desc [] l.

(** Descending order of the keys. *)
Definition descending : list A -> Prop :=
  StronglySorted (fun x y => (key y <= key x)%Z).
End SortedReverse.

Arguments insert_desc {A} key x l.
Arguments sorted_reverse {A} key l.
Arguments descending {A} key l.

(** ** [subprocess.check_output]

    What one run of an external command comes to.  [Failed] is a command
    that could not be run or whose output could not be taken: no such
    binary, no permission, undecodable output and the like. *)
Inductive finished : Type :=
| Exited (returncode : Z) (output : str)
| Failed (e : exception).

Inductive run : Type :=
| Ended (f : finished)
| Overran.                    (* still running when the timeout expired *)

Definition completed (f : finished) : outcome str :=
  match f with
  | Exited rc output =>
      if (rc =? 0)%Z then Return output
      else Raise (Exception (CalledProcessError rc))
  | Failed e => Raise (Exception e)
  end.

(** ** [WiFiScanner.py] *)

Module WiFiScanner.

Import PyDict.
Local Open Scope py_scope.

Definition datetime := Z.
Definition seconds := QArith_base.Q.

Record NetworkInfo : Type := mkNetworkInfo {
  bssid : str;
  signal_strength : Z;
  essid : option str;
  encryption : option str;
  frequency : option str;
  last_seen : datetime
}.

Definition networks := dict NetworkInfo.

(** *** Logging *)

Inductive level : Type := DEBUG | INFO | WARNING | ERROR.

(** The pieces of a formatted message. *)
Inductive part : Type :=
| Lit (s : string)
| Exc (e : exn)
| Num (n : Z)
| Secs (q : seconds).

Record log_record : Type := mkLog {
  levelname : level;
  message : list part
}.

(** *** State: the interpreter and its surroundings, and the instance *)

(** A task of the event loop that has not finished. *)
Record task : Type := mkTask {
  task_id : nat;
  started : bool;        (* its coroutine has run up to a first [await] *)
  cancelling : bool      (* [cancel()] was called on it *)
}.

Record state : Type := mkState {
  int_max_str_digits : nat;
  clock : nat -> datetime;            (* successive readings of [datetime.now()] *)
  clock_reads : nat;
  processes : nat -> list str -> run; (* successive runs of external commands *)
  processes_run : nat;
  tasks : list task;
  tasks_created : nat;
  log : list log_record;
  interface : option str;
  scan_interval : seconds;
  wifi_data : networks;
  _scan_task : option nat;
  _running : bool
}.

Definition with_clock_reads (n : nat) (s : state) : state :=
  mkState (int_max_str_digits s) (clock s) n (processes s) (processes_run s)
    (tasks s) (tasks_created s) (log s) (interface s) (scan_interval s)
    (wifi_data s) (_scan_task s) (_running s).

Definition with_processes_run (n : nat) (s : state) : state :=
  mkState (int_max_str_digits s) (clock s) (clock_reads s) (processes s) n
    (tasks s) (tasks_created s) (log s) (interface s) (scan_interval s)
    (wifi_data s) (_scan_task s) (_running s).

Definition with_tasks (ts : list task) (created : nat) (s : state) : state :=
  mkState (int_max_str_digits s) (clock s) (clock_reads s) (processes s)
    (processes_run s) ts created (log s) (interface s) (scan_interval s)
    (wifi_data s) (_scan_task s) (_running s).

Definition with_log (l : list log_record) (s : state) : state :=
  mkState (int_max_str_digits s) (clock s) (clock_reads s) (processes s)
    (processes_run s) (tasks s) (tasks_created s) l (interface s)
    (scan_interval s) (wifi_data s) (_scan_task s) (_running s).

Definition with_wifi_data (d : networks) (s : state) : state :=
  mkState (int_max_str_digits s) (clock s) (clock_reads s) (processes s)
    (processes_run s) (tasks s) (tasks_created s) (log s) (interface s)
    (scan_interval s) d (_scan_task s) (_running s).

Definition with_scan_task (t : option nat) (s : state) : state :=
  mkState (int_max_str_digits s) (clock s) (clock_reads s) (processes s)
    (processes_run s) (tasks s) (tasks_created s) (log s) (interface s)
    (scan_interval s) (wifi_data s) t (_running s).

Definition with_running (b : bool) (s : state) : state :=
  mkState (int_max_str_digits s) (clock s) (clock_reads s) (processes s)
    (processes_run s) (tasks s) (tasks_created s) (log s) (interface s)
    (scan_interval s) (wifi_data s) (_scan_task s) b.

(** The number of a level. *)
Definition levelno (lv : level) : nat :=
  match lv with
  | DEBUG => 10
  | INFO => 20
  | WARNING => 30
  | ERROR => 40
  end.

(* logging.basicConfig(level=logging.INFO, ...) *)
Definition configured_level : level := INFO.

(** [logger.isEnabledFor(lv)]: the loggers of the modules have no level of
    their own, so the level of the configuration decides. *)
Definition isEnabledFor (lv : level) : bool :=
  levelno configured_level <=? levelno lv.

(** [logger.debug], [logger.info], [logger.warning] and [logger.error]: a
    record below the configured level is not written. *)
Definition logger (lv : level) (msg : list part) : M state unit :=
  if isEnabledFor lv then modify (fun s => with_log (log s ++ [mkLog lv msg]) s)
  else ret tt.

(** [datetime.now()] *)
Definition now : M state datetime :=
  fun s => (Return (clock s (clock_reads s)), with_clock_reads (S (clock_reads s)) s).

(** [subprocess.check_output(cmd, stderr=subprocess.STDOUT, timeout=30)] with
    the output decoded; decoding with [errors='replace'] cannot fail. *)
Definition check_output (cmd : list str) : M state str :=
  fun s =>
    let s' := with_processes_run (S (processes_run s)) s in
    match processes s (processes_run s) cmd with
    | Ended f => (completed f, s')
    | Overran => (Raise (Exception TimeoutExpired), s')
    end.

(** [NetworkInfo(...)] with [__post_init__]. *)
Definition NetworkInfo_new (bssid : str) (signal_strength : Z)
    (essid encryption frequency : option str) (last_seen : option datetime)
    : M state NetworkInfo :=
  match last_seen with
  | Some t => ret (mkNetworkInfo bssid signal_strength essid encryption frequency t)
  | None =>
      t <- now ;;
      ret (mkNetworkInfo bssid signal_strength essid encryption frequency t)
  end.

(** [WiFiScanner(interface, scan_interval)] in a given interpreter. *)
Definition init (max_str_digits : nat) (clock : nat -> datetime)
    (processes : nat -> list str -> run) (interface : option str)
    (scan_interval : seconds) : state :=
  mkState max_str_digits clock 0 processes 0 [] 0 [] interface scan_interval
    [] None false.

(** *** The patterns of [_parse_scan_results] and [_parse_cell] *)

Definition quote : ascii := ascii_of_nat 34.

(* Cell \d+ -  *)
Definition cell_re : Re.pattern :=
  Re.lit "Cell " ++ [Re.Chars Re.digit Re.OneOrMore] ++ Re.lit " - ".

Definition hex_or_colon : ascii -> bool :=
  Re.any_of [Re.range "0" "9"; Re.range "A" "F"; Re.range "a" "f"; Re.chr ":"].

(* Address: ([0-9A-Fa-f:]{17}) *)
Definition bssid_re : Re.pattern :=
  Re.lit "Address: "
  ++ [Re.GroupStart; Re.Chars hex_or_colon (Re.Exactly 17); Re.GroupEnd].

(* Signal level=(-?\d+) *)
Definition signal_re : Re.pattern :=
  Re.lit "Signal level="
  ++ [Re.GroupStart; Re.Chars (Re.chr "-") Re.Optional;
      Re.Chars Re.digit Re.OneOrMore; Re.GroupEnd].

(* ESSID: then a quoted group of characters other than the quote *)
Definition essid_re : Re.pattern :=
  Re.lit "ESSID:"
  ++ [Re.Chars (Re.chr quote) Re.Once; Re.GroupStart;
      Re.Chars (Re.none_of (Re.chr quote)) Re.ZeroOrMore; Re.GroupEnd;
      Re.Chars (Re.chr quote) Re.Once].

(* Encryption key:on *)
Definition encryption_on_re : Re.pattern := Re.lit "Encryption key:on".

(* IE:.*WPA2 *)
Definition wpa2_re : Re.pattern :=
  Re.lit "IE:" ++ [Re.Chars Re.dot Re.ZeroOrMore] ++ Re.lit "WPA2".

(* IE:.*WPA *)
Definition wpa_re : Re.pattern :=
  Re.lit "IE:" ++ [Re.Chars Re.dot Re.ZeroOrMore] ++ Re.lit "WPA".

(* Frequency:([\d.]+) GHz *)
Definition frequency_re : Re.pattern :=
  Re.lit "Frequency:"
  ++ [Re.GroupStart; Re.Chars (Re.any_of [Re.digit; Re.chr "."]) Re.OneOrMore;
      Re.GroupEnd]
  ++ Re.lit " GHz".

Definition found_in (p : Re.pattern) (s : str) : bool :=
  match Re.search p s with
  | Some _ => true
  | None => false
  end.

(** *** Parsing *)

Definition _parse_cell (cell_data : str) : M state (option NetworkInfo) :=
  match Re.search bssid_re cell_data with
  | None => ret None
  | Some bssid_match =>
      let bssid := Re.group1 bssid_match in
      signal_strength <-
        match Re.search signal_re cell_data with
        | Some signal_match =>
            limit <- gets int_max_str_digits ;;
            int limit (Re.group1 signal_match)
        | None => ret (-100)%Z
        end ;;
      let essid := option_map Re.group1 (Re.search essid_re cell_data) in
      let encryption :=
        if found_in encryption_on_re cell_data then
          if found_in wpa2_re cell_data then text "WPA2"
          else if found_in wpa_re cell_data then text "WPA"
          else text "WEP"
        else text "Open" in
      let frequency :=
        option_map (fun freq_match => Re.group1 freq_match ++ text " GHz")
          (Re.search frequency_re cell_data) in
      info <- NetworkInfo_new bssid signal_strength essid (Some encryption)
                frequency None ;;
      ret (Some info)
  end.

(** [bool(s)] for a text. *)
Definition nonempty (s : str) : bool :=
  match s with
  | [] => false
  | _ => true
  end.

(** The body of the loop over the cells, with its [try]. *)
Definition parse_into (nets : networks) (cell : str) : M state networks :=
  try_except
    (network_info <- _parse_cell cell ;;
     match network_info with
     | Some info =>
         if nonempty (bssid info) then ret (setitem (bssid info) info nets)
         else ret nets
     | None => ret nets
     end)
    [(is_Exception,
      fun e =>
        logger WARNING [Lit "[WiFiScanner] Failed to parse cell data: "; Exc e] ;;
        ret nets)].

Fixpoint for_each_cell (cells : list str) (nets : networks) : M state networks :=
  match cells with
  | [] => ret nets
  | cell :: cells' =>
      nets' <- parse_into nets cell ;;
      for_each_cell cells' nets'
  end.

(** [re.split(r'Cell \d+ - ', scan_output)[1:]] *)
Definition cells_of (scan_output : str) : list str :=
  tl (Re.split cell_re scan_output).

Definition _parse_scan_results (scan_output : str) : M state networks :=
  for_each_cell (cells_of scan_output) [].

(** *** Scanning *)

Definition scan_command (interface : option str) : list str :=
  [text "sudo"; text "iwlist"]
  ++ match interface with
     | Some name => if nonempty name then [name] else []
     | None => []
     end
  ++ [text "scan"].

Definition _scan_wifi_sync : M state networks :=
  try_except
    (cmd <- gets (fun s => scan_command (interface s)) ;;
     result <- check_output cmd ;;
     _parse_scan_results result)
    [(is_CalledProcessError,
      fun e =>
        logger ERROR [Lit "[WiFiScanner] WiFi scan command failed: "; Exc e] ;;
        ret []);
     (is_TimeoutExpired,
      fun _ =>
        logger ERROR [Lit "[WiFiScanner] WiFi scan timed out"] ;;
        ret []);
     (is_Exception,
      fun e =>
        logger ERROR [Lit "[WiFiScanner] Unexpected error during WiFi scan: "; Exc e] ;;
        ret [])].

(** [run_in_executor] hands the call to a worker thread and waits for it. *)
Definition scan_wifi_once : M state networks := _scan_wifi_sync.

(** *** The event loop *)

(** [asyncio.create_task(coro)] *)
Definition create_task : M state nat :=
  fun s =>
    let id := tasks_created s in
    (Return id, with_tasks (tasks s ++ [mkTask id false false]) (S id) s).

(** [t.cancel()] *)
Definition cancel (id : nat) : M state unit :=
  modify (fun s =>
    with_tasks
      (map (fun t => if task_id t =? id then mkTask id (started t) true else t)
         (tasks s))
      (tasks_created s) s).

Definition find_task (id : nat) (ts : list task) : option task :=
  find (fun t => task_id t =? id) ts.

Definition without_task (id : nat) (ts : list task) : list task :=
  filter (fun t => negb (task_id t =? id)) ts.

(** [await t] for a task that is cancelled or whose loop condition no longer
    holds: the task runs to its end.  A task cancelled before it ever ran
    ends in [CancelledError]; a running [_scan_loop] leaves its loop. *)
Definition await (id : nat) : M state unit :=
  fun s =>
    let s' := with_tasks (without_task id (tasks s)) (tasks_created s) s in
    match find_task id (tasks s) with
    | Some t =>
        if cancelling t && negb (started t) then (Raise CancelledError, s')
        else (Return tt, s')
    | None => (Return tt, s)
    end.

(** Control passes to the event loop, which lets every waiting task run up
    to its next [await]. *)
Definition event_loop_turn : M state unit :=
  modify (fun s =>
    with_tasks (map (fun t => mkTask (task_id t) true (cancelling t)) (tasks s))
      (tasks_created s) s).

(** [asyncio.sleep(delay)] *)
Definition sleep (delay : seconds) : M state unit := event_loop_turn.

(** *** Lifecycle *)

Definition start_continuous_scan : M state unit :=
  running <- gets _running ;;
  if running then
    logger WARNING [Lit "[WiFiScanner] WiFi scanner is already running"]
  else
    modify (with_running true) ;;
    t <- create_task ;;
    modify (with_scan_task (Some t)) ;;
    interval <- gets scan_interval ;;
    logger INFO [Lit "[WiFiScanner] Started WiFi scanning with "; Secs interval;
                 Lit "s interval"].

Definition stop_continuous_scan : M state unit :=
  running <- gets _running ;;
  scan_task <- gets _scan_task ;;
  match running, scan_task with
  | true, Some t =>
      modify (with_running false) ;;
      cancel t ;;
      try_except (await t) [(is_CancelledError, fun _ => ret tt)] ;;
      logger INFO [Lit "[WiFiScanner] Stopped WiFi scanning"]
  | _, _ => ret tt
  end.

(** The merge of one cycle's results, as [_scan_loop] does it. *)
Definition merge (scan_results : networks) : M state unit :=
  if truthy scan_results then
    modify (fun s => with_wifi_data (update (wifi_data s) (items scan_results)) s) ;;
    logger DEBUG [Lit "[WiFiScanner] Found "; Num (Z.of_nat (len scan_results));
                  Lit " networks"]
  else
    logger WARNING [Lit "[WiFiScanner] WiFi scan returned no results"].

(** One turn of the [while] loop of [_scan_loop]; the result tells whether
    the loop goes on. *)
Definition scan_cycle : M state bool :=
  interval <- gets scan_interval ;;
  try_except
    (scan_results <- scan_wifi_once ;;
     merge scan_results ;;
     sleep interval ;;
     ret true)
    [(is_CancelledError, fun _ => ret false);
     (is_Exception,
      fun e =>
        logger ERROR [Lit "[WiFiScanner] Error in scan loop: "; Exc e] ;;
        sleep interval ;;
        ret true)].

(** [_scan_loop], for at most [cycles] turns of its loop. *)
Fixpoint _scan_loop (cycles : nat) : M state unit :=
  match cycles with
  | O => ret tt
  | S cycles' =>
      running <- gets _running ;;
      if running then
        go_on <- scan_cycle ;;
        if go_on then _scan_loop cycles' else ret tt
      else ret tt
  end.

(** *** Queries *)

Definition get_networks (min_signal : Z) : M state networks :=
  data <- gets wifi_data ;;
  ret (of_items
         (filter (fun item => (min_signal <=? signal_strength (snd item))%Z)
            (items data))).

Definition default_min_signal : Z := (-100)%Z.

Definition get_strongest_networks (count : Z) : M state networks :=
  data <- gets wifi_data ;;
  let sorted_networks :=
    sorted_reverse (fun x => signal_strength (snd x)) (items data) in
  ret (of_items (slice_to sorted_networks count)).

End WiFiScanner.

(** ** [From GPT/wifi.py] *)

Module Nmcli.

Import PyDict.
Local Open Scope py_scope.

(** The lines [scan_wifi] prints, by the place that prints them. *)
Inductive printed : Type :=
| Scanning
| ScanDone (access_points : nat)
| CannotRun                (* the message of the CalledProcessError clause *)
| NotInstalled.            (* the message of the FileNotFoundError clause *)

Record state : Type := mkState {
  int_max_str_digits : nat;
  processes : nat -> list str -> finished;
  processes_run : nat;
  stdout : list printed
}.

Definition print (p : printed) : M state unit :=
  modify (fun s =>
    mkState (int_max_str_digits s) (processes s) (processes_run s) (stdout s ++ [p])).

(** [subprocess.check_output(cmd, encoding='utf-8')]: no timeout is given,
    so the call lasts as long as the command does. *)
Definition check_output (cmd : list str) : M state str :=
  fun s =>
    (completed (processes s (processes_run s) cmd),
     mkState (int_max_str_digits s) (processes s) (S (processes_run s)) (stdout s)).

Definition nmcli_command : list str :=
  [text "nmcli"; text "-f"; text "BSSID,SIGNAL"; text "dev"; text "wifi";
   text "list"; text "--rescan"; text "yes"].

Fixpoint for_each_line (lines : list str) (wifi_data : dict Z) : M state (dict Z) :=
  match lines with
  | [] => ret wifi_data
  | line :: lines' =>
      match split_whitespace [] line with
      | bssid :: rssi :: _ =>
          limit <- gets int_max_str_digits ;;
          value <- int limit rssi ;;
          for_each_line lines' (setitem bssid value wifi_data)
      | _ => for_each_line lines' wifi_data
      end
  end.

Definition scan_wifi : M state (dict Z) :=
  print Scanning ;;
  try_except
    (output <- check_output nmcli_command ;;
     let scan_result := strip output in
     let lines := tl (split_on LF [] scan_result) in
     wifi_data <- for_each_line lines [] ;;
     print (ScanDone (len wifi_data)) ;;
     ret wifi_data)
    [(is_CalledProcessError, fun _ => print CannotRun ;; ret []);
     (is_FileNotFoundError, fun _ => print NotInstalled ;; ret [])].

End Nmcli.

(** ** The vocabulary of the specification *)

Module Spec.

Import PyDict WiFiScanner.

(** [w] stands somewhere in [s]. *)
Definition substring (w s : str) : Prop :=
  exists pre post, s = pre ++ w ++ post.

(** The marker of enabled encryption. *)
Definition encryption_marker (cell : str) : Prop :=
  substring (text "Encryption key:on") cell.

(** An information element that names [tag] further on in its line. *)
Definition ie_marker (tag : str) (cell : str) : Prop :=
  exists pre mid post, cell = pre ++ text "IE:" ++ mid ++ tag ++ post /\ ~ In LF mid.

Definition wpa2_marker : str -> Prop := ie_marker (text "WPA2").
Definition wpa_marker : str -> Prop := ie_marker (text "WPA").

(** The text starts with a signed integer: a digit, or a minus sign and a
    digit. *)
Definition starts_with_integer (s : str) : Prop :=
  exists d rest,
    Re.digit d = true /\ (s = d :: rest \/ s = "-"%char :: d :: rest).

(** Some occurrence of the signal label carries a value that reads as a
    signed integer. *)
Definition signal_readable (cell : str) : Prop :=
  exists pre post,
    cell = pre ++ text "Signal level=" ++ post /\ starts_with_integer post.

(** The block carries a MAC-address identifier: seventeen characters, each a
    hexadecimal digit or a colon, after the address label. *)
Definition has_identifier (cell : str) : Prop :=
  exists pre mac post,
    cell = pre ++ text "Address: " ++ mac ++ post
    /\ length mac = 17 /\ Forall (fun c => hex_or_colon c = true) mac.

(** The identifier [_parse_cell] reads from a block. *)
Definition identifier (cell : str) : option str :=
  option_map Re.group1 (Re.search bssid_re cell).

Definition well_formed (cell : str) : bool := found_in bssid_re cell.

(** What [_parse_cell] computes, apart from the state: the signal, the
    security mode, and the record of a block read at time [t]. *)
Definition signal_of (limit : nat) (cell : str) : outcome Z :=
  match Re.search signal_re cell with
  | Some m => fst (int limit (Re.group1 m) tt)
  | None => Return (-100)%Z
  end.

Definition encryption_of (cell : str) : str :=
  if found_in encryption_on_re cell then
    if found_in wpa2_re cell then text "WPA2"
    else if found_in wpa_re cell then text "WPA"
    else text "WEP"
  else text "Open".

Definition record_of (limit : nat) (cell : str) (t : datetime)
    : outcome (option NetworkInfo) :=
  match Re.search bssid_re cell with
  | None => Return None
  | Some m =>
      match signal_of limit cell with
      | Raise e => Raise e
      | Return signal =>
          Return (Some (mkNetworkInfo (Re.group1 m) signal
            (option_map Re.group1 (Re.search essid_re cell))
            (Some (encryption_of cell))
            (option_map (fun f => Re.group1 f ++ text " GHz")
               (Re.search frequency_re cell))
            t))
      end
  end.

(** The records [_parse_scan_results] builds from the blocks, in text order;
    [n] counts the readings of the clock so far. *)
Fixpoint parsed_records (limit : nat) (clock : nat -> datetime) (n : nat)
    (cells : list str) : list (str * NetworkInfo) :=
  match cells with
  | [] => []
  | cell :: cells' =>
      match record_of limit cell (clock n) with
      | Return (Some info) =>
          (bssid info, info) :: parsed_records limit clock (S n) cells'
      | _ => parsed_records limit clock n cells'
      end
  end.

Definition parse_warning (e : exn) : log_record :=
  mkLog WARNING [Lit "[WiFiScanner] Failed to parse cell data: "; Exc e].

(** The warnings it logs: one for each block on which [_parse_cell] raises. *)
Definition parse_warnings (limit : nat) (cells : list str) : list log_record :=
  flat_map (fun cell =>
    match record_of limit cell 0%Z with
    | Raise e => [parse_warning e]
    | Return _ => []
    end) cells.

(** The state after [n] more readings of the clock and the log records [l]. *)
Definition advanced (s : state) (n : nat) (l : list log_record) : state :=
  with_log (log s ++ l) (with_clock_reads (clock_reads s + n) s).

(** The number a block gives as its signal has more digits than [int]
    converts. *)
Definition signal_too_long (limit : nat) (cell : str) : bool :=
  match signal_of limit cell with
  | Raise _ => true
  | Return _ => false
  end.

(** A well-formed block that [_parse_cell] turns into a record. *)
Definition parses (limit : nat) (cell : str) : bool :=
  well_formed cell && negb (signal_too_long limit cell).

(** A well-formed block on which [_parse_cell] raises. *)
Definition fails (limit : nat) (cell : str) : bool :=
  well_formed cell && signal_too_long limit cell.

Definition is_warning (r : log_record) : bool :=
  match levelname r with
  | WARNING => true
  | _ => false
  end.

Definition is_error (r : log_record) : bool :=
  match levelname r with
  | ERROR => true
  | _ => false
  end.

Definition warnings (l : list log_record) : nat := length (filter is_warning l).

(** The keys of a list in the order of their first occurrence. *)
Fixpoint first_occurrences (seen : list str) (l : list str) : list str :=
  match l with
  | [] => []
  | k :: l' =>
      if existsb (str_eqb k) seen then first_occurrences seen l'
      else k :: first_occurrences (k :: seen) l'
  end.

(** The identifiers of the blocks that parse, in text order. *)
Definition parsed_identifiers (limit : nat) (cells : list str) : list str :=
  flat_map (fun cell =>
    if parses limit cell then
      match identifier cell with
      | Some b => [b]
      | None => []
      end
    else []) cells.

(** The claim on the counts, as the specification words it: with N
    well-formed and M malformed blocks, N records and M warnings. *)
Definition counts_as_worded (scan_output : str) (s : state) : Prop :=
  exists nets s',
    _parse_scan_results scan_output s = (Return nets, s')
    /\ len nets = length (filter well_formed (cells_of scan_output))
    /\ warnings (log s') =
       warnings (log s)
       + length (filter (fun c => negb (well_formed c)) (cells_of scan_output)).

(** The claim on two blocks of one identifier, as the specification words
    it: whatever the later of them holds besides, the mapping has exactly
    one record under the identifier, the one parsed from the later block. *)
Definition later_wins_as_worded (scan_output : str) (s : state) : Prop :=
  forall before c1 between c2 after b,
    cells_of scan_output = before ++ c1 :: between ++ c2 :: after ->
    identifier c1 = Some b ->
    identifier c2 = Some b ->
    (forall c, In c after -> identifier c <> Some b) ->
    exists nets s' info n l s2,
      _parse_scan_results scan_output s = (Return nets, s')
      /\ length (filter (str_eqb b) (keys nets)) = 1
      /\ _parse_cell c2 (advanced s n l) = (Return (Some info), s2)
      /\ get b nets = Some info.

(** An outcome of the scan command that is a failure to execute. *)
Definition execution_failure (r : run) : Prop :=
  match r with
  | Ended (Exited rc _) => rc <> 0%Z
  | Ended (Failed _) => True
  | Overran => True
  end.

Definition command_failure (f : finished) : Prop := execution_failure (Ended f).

(** The phases of the coordinator. *)
Inductive phase : Type := Idle | Running.

Definition phase_of (s : state) : phase :=
  if _running s then Running else Idle.

(** The scan loops that are scheduled and have not ended. *)
Definition active_loops (s : state) : nat := length (tasks s).

(** What holds between calls: a running coordinator owns the one live task,
    an idle one has none. *)
Definition coherent (s : state) : Prop :=
  match _running s, _scan_task s with
  | true, Some id => exists ran, tasks s = [mkTask id ran false]
  | true, None => False
  | false, _ => tasks s = []
  end.

(** The warning of a second start. *)
Definition already_running : log_record :=
  mkLog WARNING [Lit "[WiFiScanner] WiFi scanner is already running"].

(** What holds of every state the scanner reaches. *)
Definition invariant (s : state) : Prop := coherent s /\ wf (wifi_data s).

(** The states that differ from [s] in the log only. *)
Definition same_but_log (s s' : state) : Prop :=
  s' = with_log (log s') s.

Definition signal_key (item : str * NetworkInfo) : Z := signal_strength (snd item).

End Spec.

(** ** Sample inputs *)

Module Sample.

Import PyDict WiFiScanner.

Definition line (s : string) : str := text s ++ [LF].

(** An open network named Home. *)
Definition block_home : str :=
  line "Address: AA:BB:CC:DD:EE:01"
  ++ line "          Frequency:2.437 GHz (Channel 6)"
  ++ line "          Quality=70/70  Signal level=-40 dBm"
  ++ line "          Encryption key:off"
  ++ text "          ESSID:" ++ [quote] ++ text "Home" ++ [quote; LF].

(** A WPA2 network. *)
Definition block_office : str :=
  line "Address: AA:BB:CC:DD:EE:02"
  ++ line "          Quality=30/70  Signal level=-70 dBm"
  ++ line "          Encryption key:on"
  ++ line "          IE: IEEE 802.11i/WPA2 Version 1".

(** The network of [block_office] seen again, weaker. *)
Definition block_office_again : str :=
  line "Address: AA:BB:CC:DD:EE:02"
  ++ line "          Quality=20/70  Signal level=-82 dBm"
  ++ line "          Encryption key:on"
  ++ line "          IE: IEEE 802.11i/WPA2 Version 1".

(** A block whose signal is not a number. *)
Definition block_unreadable : str :=
  line "Address: AA:BB:CC:DD:EE:03"
  ++ line "          Quality=5/70  Signal level=n/a".

(** A block below the default threshold. *)
Definition block_faint : str :=
  line "Address: AA:BB:CC:DD:EE:04"
  ++ line "          Quality=1/70  Signal level=-101 dBm".

(** A block without an address. *)
Definition block_garbled : str := line "Adress: AA:BB".

Definition banner : str := line "wlan0     Scan completed :".

Definition cell (n : string) (block : str) : str :=
  text "          Cell " ++ text n ++ text " - " ++ block.

Definition two_networks : str :=
  banner ++ cell "01" block_home ++ cell "02" block_office.

Definition seen_twice : str :=
  banner ++ cell "01" block_office ++ cell "02" block_garbled
  ++ cell "03" block_office_again.

Definition faint_network : str := banner ++ cell "01" block_faint.

(** The network of [block_office] seen again, with a number of 4301 digits
    for its signal: one digit more than [int] converts in an interpreter
    with the usual limit. *)
Definition block_office_overlong : str :=
  line "Address: AA:BB:CC:DD:EE:02"
  ++ text "          Quality=20/70  Signal level=-" ++ repeat "9"%char 4301
  ++ line " dBm"
  ++ line "          Encryption key:on"
  ++ line "          IE: IEEE 802.11i/WPA2 Version 1".

Definition seen_then_overlong : str :=
  banner ++ cell "01" block_office ++ cell "02" block_office_overlong.

Definition ticks : nat -> datetime := fun n => Z.of_nat n.

(** A scanner on wlan0 in an interpreter with the usual digit limit, whose
    scan command prints [output]. *)
Definition scanner (output : str) : state :=
  init 4300 ticks (fun _ _ => Ended (Exited 0 output)) (Some (text "wlan0"))
    (QArith_base.Qmake 30 1).

Definition fresh : state := scanner two_networks.

Definition office : NetworkInfo :=
  mkNetworkInfo (text "AA:BB:CC:DD:EE:02") (-70)%Z None (Some (text "WPA2")) None 0%Z.

Definition home : NetworkInfo :=
  mkNetworkInfo (text "AA:BB:CC:DD:EE:01") (-40)%Z (Some (text "Home"))
    (Some (text "Open")) (Some (text "2.437 GHz")) 1%Z.

Definition faint : NetworkInfo :=
  mkNetworkInfo (text "AA:BB:CC:DD:EE:04") (-101)%Z None (Some (text "Open")) None 2%Z.

(** A scanner that holds three networks. *)
Definition loaded : state :=
  with_wifi_data
    [(bssid office, office); (bssid home, home); (bssid faint, faint)] fresh.

(** The nmcli program where the binary may not be executed. *)
Definition nmcli_denied : Nmcli.state :=
  Nmcli.mkState 4300 (fun _ _ => Failed PermissionError) 0 [].

(** The nmcli program where the binary is missing. *)
Definition nmcli_missing : Nmcli.state :=
  Nmcli.mkState 4300 (fun _ _ => Failed FileNotFoundError) 0 [].

(** A scanner whose scan command does not end in time. *)
Definition stuck : state :=
  init 4300 ticks (fun _ _ => Overran) None (QArith_base.Qmake 10 1).

(** A scanner after one cycle that found the faint network. *)
Definition after_faint_scan : state :=
  snd (bind scan_wifi_once merge (scanner faint_network)).


(** [block_home] around its signal: what stands before the label and what
    follows the number. *)
Definition home_before_signal : str :=
  line "Address: AA:BB:CC:DD:EE:01"
  ++ line "          Frequency:2.437 GHz (Channel 6)"
  ++ text "          Quality=70/70  ".

Definition home_after_signal : str :=
  line " dBm"
  ++ line "          Encryption key:off"
  ++ text "          ESSID:" ++ [quote] ++ text "Home" ++ [quote; LF].

(** A number of 641 digits, and a block that gives it as its signal. *)
Definition nines : str := repeat "9"%char 641.

Definition overlong_before_signal : str :=
  line "Address: AA:BB:CC:DD:EE:05" ++ text "          Quality=1/70  ".

Definition block_overlong : str :=
  overlong_before_signal ++ text "Signal level=" ++ ["-"%char] ++ nines ++ line " dBm".

(** A scanner in an interpreter whose limit for [int] is 640 digits. *)
Definition strict : state :=
  init 640 ticks (fun _ _ => Ended (Exited 0 two_networks)) None
    (QArith_base.Qmake 10 1).


(** The record of [block_home] read at the first reading of the clock. *)
Definition home_first : NetworkInfo :=
  mkNetworkInfo (text "AA:BB:CC:DD:EE:01") (-40)%Z (Some (text "Home"))
    (Some (text "Open")) (Some (text "2.437 GHz")) 0%Z.


(** Two more networks as strong as [office]. *)
Definition lab : NetworkInfo :=
  mkNetworkInfo (text "AA:BB:CC:DD:EE:06") (-70)%Z None (Some (text "WEP")) None 3%Z.

Definition attic : NetworkInfo :=
  mkNetworkInfo (text "AA:BB:CC:DD:EE:07") (-70)%Z None (Some (text "Open")) None 4%Z.

(** A scanner that holds networks of equal strength. *)
Definition tied : state :=
  with_wifi_data
    [(bssid office, office); (bssid home, home); (bssid lab, lab);
     (bssid attic, attic)] fresh.

End Sample.

(** ** The vocabulary of the further properties *)

Module Cover.

Import PyDict WiFiScanner Spec.

(** A quoted network name after the ESSID label. *)
Definition essid_field (cell : str) : Prop :=
  exists pre name post,
    cell = pre ++ text "ESSID:" ++ [quote] ++ name ++ [quote] ++ post.

(** The characters of a frequency: digits and the point. *)
Definition frequency_char : ascii -> bool := Re.any_of [Re.digit; Re.chr "."].

(** A number before the unit GHz after the frequency label. *)
Definition frequency_field (cell : str) : Prop :=
  exists pre number post,
    cell = pre ++ text "Frequency:" ++ number ++ text " GHz" ++ post
    /\ number <> [] /\ Forall (fun c => frequency_char c = true) number.

(** The integer a sign and a run of digits write. *)
Definition signed (sign digits : str) : Z :=
  match sign with
  | [] => decimal digits
  | _ => (- decimal digits)%Z
  end.

(** The identifier has the shape of a MAC address. *)
Definition mac_shaped (b : str) : Prop :=
  length b = 17 /\ Forall (fun c => hex_or_colon c = true) b.

End Cover.

(** ** The vocabulary of the further properties, continued *)

Module Cover2.

Import PyDict WiFiScanner Spec.

(** The warning of a cycle without results. *)
Definition no_results : log_record :=
  mkLog WARNING [Lit "[WiFiScanner] WiFi scan returned no results"].

(** The records of signal strength [v], in the order of the list. *)
Definition of_strength (v : Z) (items : list (str * NetworkInfo))
    : list (str * NetworkInfo) :=
  filter (fun item => (signal_key item =? v)%Z) items.

End Cover2.

(** ** [MPI_HW1_ExampleCode/main.py]

    The collector reads the scanner's cache and the light sensor and hands
    each reading, with a time stamp and the coordinates, to [appendData].  The
    sensor and the files are outside the program: a reading of the sensor and
    the outcome of an append come from the surroundings. *)

Module Collector.

Import PyDict WiFiScanner.
Local Open Scope py_scope.

(** The values of a row: integers, and the ISO text of a time stamp. *)
Inductive value : Type :=
| Int (n : Z)
| IsoTime (t : datetime).

Definition row := dict value.

(** What a reading of the sensor comes to. *)
Inductive reading : Type :=
| Channels (values : list Z)
| SensorError (e : exception).

Record world : Type := mkWorld {
  wifiScanner : state;                    (* with the interpreter's clock and log *)
  lightSensor : option (nat -> reading);  (* successive readings of [all_channels] *)
  sensor_reads : nat;
  disk : nat -> str -> row -> bool * list log_record;
                                          (* successive outcomes of [appendData]:
                                             its result, and what it logs *)
  appended : list (str * row)             (* the calls of [appendData] so far *)
}.

Definition with_scanner (s : state) (w : world) : world :=
  mkWorld s (lightSensor w) (sensor_reads w) (disk w) (appended w).

(** A statement of the scanner, run on the collector's scanner. *)
Definition lift {A : Type} (c : M state A) : M world A :=
  fun w =>
    match c (wifiScanner w) with
    | (r, s') => (r, with_scanner s' w)
    end.

(* COORDINATES = (0, 0) *)
Definition COORDINATES : Z * Z := (0%Z, 0%Z).

(** The decimal text of a number, as an f-string writes it. *)
Definition decimal_text (n : nat) : str :=
  text (DecimalString.NilZero.string_of_uint (Nat.to_uint n)).

(** [enumerate(channels, start)] under the keys [f"f{i}"]. *)
Fixpoint channel_items (i : nat) (channels : list Z) : list (str * value) :=
  match channels with
  | [] => []
  | val :: channels' =>
      (text "f" ++ decimal_text i, Int val) :: channel_items (S i) channels'
  end.

(** [lightSensor.all_channels] *)
Definition all_channels (sensor : nat -> reading) : M world (list Z) :=
  fun w =>
    (match sensor (sensor_reads w) with
     | Channels values => Return values
     | SensorError e => Raise (Exception e)
     end,
     mkWorld (wifiScanner w) (lightSensor w) (S (sensor_reads w)) (disk w) (appended w)).

Definition read_light : M world (option row) :=
  sensor <- gets lightSensor ;;
  match sensor with
  | None =>
      lift (logger WARNING [Lit "Light sensor not available"]) ;;
      ret None
  | Some sensor =>
      try_except
        (channels <- all_channels sensor ;;
         ret (Some (of_items (channel_items 1 channels))))
        [(is_Exception,
          fun e =>
            lift (logger ERROR [Lit "Error reading light sensor: "; Exc e]) ;;
            ret None)]
  end.

Definition read_wifi : M state (option row) :=
  try_except
    (networks <- get_networks default_min_signal ;;
     if negb (truthy networks) then
       logger WARNING [Lit "No WiFi networks detected"] ;;
       ret (Some [])
     else
       ret (Some (of_items
                    (map (fun item => (fst item, Int (signal_strength (snd item))))
                       (items networks)))))
    [(is_Exception,
      fun e =>
        logger ERROR [Lit "Error reading WiFi data: "; Exc e] ;;
        ret None)].

Definition add_metadata (data : option row) : M state (option row) :=
  match data with
  | None => ret None
  | Some data =>
      t <- now ;;
      ret (Some (update data
                   [(text "timestamp", IsoTime t);
                    (text "x", Int (fst COORDINATES));
                    (text "y", Int (snd COORDINATES))]))
  end.

(** [appendData(file, data)]: it answers [False] for no data; otherwise what
    pandas and the file system make of the row decides, and every exception
    on the way is caught and turned into [False]. *)
Definition appendData (file : str) (data : option row) : M world bool :=
  match data with
  | None => ret false
  | Some data =>
      fun w =>
        match disk w (length (appended w)) file data with
        | (ok, records) =>
            (Return ok,
             mkWorld (with_log (log (wifiScanner w) ++ records) (wifiScanner w))
               (lightSensor w) (sensor_reads w) (disk w)
               (appended w ++ [(file, data)]))
        end
  end.

(** [bool(data)] for a reading that may be [None]. *)
Definition has_data (data : option row) : bool :=
  match data with
  | Some d => truthy d
  | None => false
  end.

(** [len(data)] *)
Definition size (data : option row) : Z :=
  match data with
  | Some d => Z.of_nat (len d)
  | None => 0%Z
  end.

Definition light_file : str := text "light_data.csv".
Definition wifi_file : str := text "wifi_data.csv".

(** The part of [collect_reading] for the light sensor. *)
Definition collect_light : M world (dict bool) :=
  light_data <- read_light ;;
  if has_data light_data then
    light_data <- lift (add_metadata light_data) ;;
    saved <- appendData light_file light_data ;;
    lift (logger DEBUG [Lit "Light data collected"]) ;;
    ret (setitem (text "light") saved [])
  else ret (setitem (text "light") false []).

(** The part of [collect_reading] for the scanner. *)
Definition collect_wifi (results : dict bool) : M world (dict bool) :=
  wifi_data <- lift read_wifi ;;
  match wifi_data with
  | Some _ =>
      wifi_data <- lift (add_metadata wifi_data) ;;
      saved <- appendData wifi_file wifi_data ;;
      lift (logger DEBUG [Lit "WiFi data collected ("; Num (size wifi_data - 3);
                          Lit " networks)"]) ;;
      ret (setitem (text "wifi") saved results)
  | None => ret (setitem (text "wifi") false results)
  end.

Definition collect_reading (collection_count : Z) : M world (dict bool) :=
  results <- collect_light ;;
  results <- collect_wifi results ;;
  let success_count := Z.of_nat (length (filter (fun b => b) (values results))) in
  lift (logger INFO [Lit "Reading #"; Num collection_count; Lit ": ";
                     Num success_count; Lit "/"; Num (Z.of_nat (len results));
                     Lit " sensors successful"]) ;;
  ret results.

End Collector.

(** ** The vocabulary of the collector's properties *)

Module Cover3.

Import PyDict WiFiScanner Spec Collector.

(** The cached records [get_networks] lets through with its default. *)
Definition reported (s : state) : networks :=
  filter (fun item => (default_min_signal <=? signal_key item)%Z) (wifi_data s).

(** The warning of a reading without networks. *)
Definition no_networks : log_record :=
  mkLog WARNING [Lit "No WiFi networks detected"].

(** The summary of reading number [n]: how many of the results are
    successes. *)
Definition reading_summary (n : Z) (results : dict bool) : log_record :=
  mkLog INFO [Lit "Reading #"; Num n; Lit ": ";
              Num (Z.of_nat (length (filter (fun b => b) (values results))));
              Lit "/"; Num (Z.of_nat (len results)); Lit " sensors successful"].

(** The row of a reading: the signals, then the time stamp and the
    coordinates. *)
Definition wifi_row (s : state) (t : datetime) : row :=
  update (map (fun item => (fst item, Int (signal_strength (snd item)))) (reported s))
    [(text "timestamp", IsoTime t); (text "x", Int 0); (text "y", Int 0)].

(** A collector without a light sensor whose appends succeed, around a
    scanner. *)
Definition collector (s : state) : world :=
  mkWorld s None 0 (fun _ _ _ => (true, [])) [].


(** The names [add_metadata] writes under. *)
Definition metadata_names : list str := [text "timestamp"; text "x"; text "y"].

(** No cached identifier is one of the names of the metadata. *)
Definition plain_keys (s : state) : Prop :=
  forall k, In k (keys (wifi_data s)) -> ~ In k metadata_names.


(** The name of a channel of the light sensor, and the names of the first
    [n] channels. *)
Definition channel_name (i : nat) : str := text "f" ++ decimal_text i.
Definition channel_names (n : nat) : list str := map channel_name (seq 1 n).

End Cover3.

(** ** The vocabulary of the properties of [scan_wifi] *)

Module Cover4.

Import PyDict Nmcli.

(** The lines of the listing after its first line, the heading. *)
Definition data_lines (output : str) : list str :=
  tl (split_on LF [] (strip output)).

(** The first two fields of the lines that hold at least two. *)
Fixpoint readings (lines : list str) : list (str * str) :=
  match lines with
  | [] => []
  | line :: lines' =>
      match split_whitespace [] line with
      | bssid :: rssi :: _ => (bssid, rssi) :: readings lines'
      | _ => readings lines'
      end
  end.

(** What [int] makes of a text, whatever the state. *)
Definition converts (limit : nat) (rssi : str) : outcome Z :=
  fst (@int unit limit rssi tt).

(** The readings with their numbers, when every one of them is a number. *)
Fixpoint converted (limit : nat) (pairs : list (str * str)) : option (list (str * Z)) :=
  match pairs with
  | [] => Some []
  | (k, rssi) :: pairs' =>
      match converts limit rssi with
      | Return v => option_map (cons (k, v)) (converted limit pairs')
      | Raise _ => None
      end
  end.

(** A listing of two access points, one of them listed twice. *)
Definition listing : str :=
  Sample.line "BSSID              SIGNAL"
  ++ Sample.line "AA:BB:CC:DD:EE:01  78"
  ++ Sample.line "AA:BB:CC:DD:EE:02  54"
  ++ Sample.line "AA:BB:CC:DD:EE:01  80".

(** A listing with a signal that is not a number. *)
Definition listing_unreadable : str :=
  Sample.line "BSSID              SIGNAL"
  ++ Sample.line "AA:BB:CC:DD:EE:01  78"
  ++ Sample.line "AA:BB:CC:DD:EE:02  --".

(** The nmcli program that prints a listing. *)
Definition nmcli_prints (output : str) : Nmcli.state :=
  Nmcli.mkState 4300 (fun _ _ => Exited 0 output) 0 [].

End Cover4.


(** * Properties *)

(** ** The matcher against the language of its pattern *)

Module ReFacts.

Import Re.

Section Quantifiers.
Variable cls : ascii -> bool.
Variable k : str -> option found.

Lemma greedy_falls_back s f :
  k s = Some f -> exists f', greedy cls k s = Some f'.
Proof.
  intros Hk. destruct s as [|c s]; simpl; [eauto|].
  destruct (cls c); [|eauto].
  destruct (greedy cls k s); eauto.
Qed.

Lemma greedy_complete a b f :
  all_in cls a -> k b = Some f -> exists f', greedy cls k (a ++ b) = Some f'.
Proof.
  induction 1 as [|c a Hc _ IH]; intros Hk; simpl.
  - eapply greedy_falls_back; eauto.
  - rewrite Hc. destruct (IH Hk) as [f' ->]. eauto.
Qed.

Lemma greedy_sound s f :
  greedy cls k s = Some f ->
  exists a b, s = a ++ b /\ all_in cls a /\ k b = Some f.
Proof.
  revert f. induction s as [|c s IH]; simpl; intros f H.
  - exists [], []. repeat split; [constructor | assumption].
  - destruct (cls c) eqn:Hc.
    + destruct (greedy cls k s) as [g|] eqn:Hg.
      * destruct (IH g eq_refl) as (a & b & -> & Ha & Hb).
        inversion H; subst g.
        exists (c :: a), b. repeat split; [constructor|]; assumption.
      * exists [], (c :: s). repeat split; [constructor | assumption].
    + exists [], (c :: s). repeat split; [constructor | assumption].
Qed.

Lemma exactly_complete a b f :
  all_in cls a -> k b = Some f -> exactly cls k (length a) (a ++ b) = Some f.
Proof.
  induction 1 as [|c a Hc _ IH]; intros Hk; simpl; [assumption|].
  rewrite Hc. auto.
Qed.

Lemma exactly_sound n s f :
  exactly cls k n s = Some f ->
  exists a b, s = a ++ b /\ all_in cls a /\ length a = n /\ k b = Some f.
Proof.
  revert s. induction n as [|n IH]; simpl; intros s H.
  - exists [], s. repeat split; [constructor | assumption].
  - destruct s as [|c s]; [discriminate|].
    destruct (cls c) eqn:Hc; [|discriminate].
    destruct (IH _ H) as (a & b & -> & Ha & Hn & Hb).
    exists (c :: a), b. repeat split; simpl; [constructor| |]; auto.
Qed.
End Quantifiers.

Lemma rest_opened s f : rest (opened s f) = rest f.
Proof. reflexivity. Qed.

Lemma rest_closed s f : rest (closed s f) = rest f.
Proof. reflexivity. Qed.

(** A match consumes a text of the pattern's language. *)
Lemma match_here_sound p :
  forall s f, match_here p s = Some f ->
  exists m, s = m ++ rest f /\ lang p m.
Proof.
  induction p as [|n p IH]; simpl; intros s f H.
  - inversion H; subst. exists []. split; reflexivity.
  - destruct n as [cls q| |].
    + destruct q as [| | | |n]; unfold once, optional, at_least_one in H.
      * destruct s as [|c s]; [discriminate|].
        destruct (cls c) eqn:Hc; [|discriminate].
        destruct (IH _ _ H) as (m & -> & Hm).
        exists (c :: m). split; [reflexivity|].
        exists [c], m. repeat split; auto. constructor; [assumption|constructor].
      * assert (Hskip : forall t, match_here p t = Some f ->
                  exists m, t = m ++ rest f /\
                    exists a b, m = a ++ b /\ all_in cls a /\ length a <= 1 /\ lang p b).
        { intros t Ht. destruct (IH _ _ Ht) as (m & -> & Hm).
          exists m. split; [reflexivity|].
          exists [], m. repeat split; simpl; auto. constructor. }
        destruct s as [|c s]; [apply Hskip; assumption|].
        destruct (cls c) eqn:Hc; [|apply Hskip; assumption].
        destruct (match_here p s) as [g|] eqn:Hg; [|apply Hskip; assumption].
        inversion H; subst g.
        destruct (IH _ _ Hg) as (m & -> & Hm).
        exists (c :: m). split; [reflexivity|].
        exists [c], m. repeat split; simpl; auto.
        constructor; [assumption|constructor].
      * destruct (greedy_sound _ _ _ _ H) as (a & b & -> & Ha & Hb).
        destruct (IH _ _ Hb) as (m & -> & Hm).
        exists (a ++ m). split; [apply app_assoc|].
        exists a, m. repeat split; auto.
      * destruct s as [|c s]; [discriminate|].
        destruct (cls c) eqn:Hc; [|discriminate].
        destruct (greedy_sound _ _ _ _ H) as (a & b & -> & Ha & Hb).
        destruct (IH _ _ Hb) as (m & -> & Hm).
        exists (c :: a ++ m). split; [simpl; now rewrite app_assoc|].
        exists (c :: a), m. repeat split; simpl; auto; [|lia].
        constructor; assumption.
      * destruct (exactly_sound _ _ _ _ _ H) as (a & b & -> & Ha & Hn & Hb).
        destruct (IH _ _ Hb) as (m & -> & Hm).
        exists (a ++ m). split; [apply app_assoc|].
        exists a, m. repeat split; auto.
    + destruct (match_here p s) as [g|] eqn:Hg; [|discriminate].
      inversion H; subst f. rewrite rest_opened. eauto.
    + destruct (match_here p s) as [g|] eqn:Hg; [|discriminate].
      inversion H; subst f. rewrite rest_closed. eauto.
Qed.

(** Backtracking loses no match: a text that starts with a member of the
    language is matched, whatever follows. *)
Lemma match_here_complete p :
  forall m t, lang p m -> exists f, match_here p (m ++ t) = Some f.
Proof.
  induction p as [|n p IH]; simpl; intros m t H.
  - eauto.
  - destruct n as [cls q| |].
    + destruct H as (a & b & -> & Ha & Hq & Hb).
      destruct (IH b t Hb) as [g Hg].
      rewrite <- app_assoc.
      destruct q as [| | | |n]; simpl in Hq; unfold once, optional, at_least_one.
      * destruct a as [|c [|c' a]]; try discriminate.
        inversion Ha; subst. simpl. rewrite H1. eauto.
      * destruct a as [|c [|c' a]]; simpl in Hq; try lia.
        -- simpl. destruct (b ++ t) as [|c s] eqn:E; [eauto|].
           destruct (cls c); [|eauto].
           destruct (match_here p s); eauto.
        -- inversion Ha; subst. simpl. rewrite H1, Hg. eauto.
      * eapply greedy_complete; eauto.
      * destruct a as [|c a]; simpl in Hq; [lia|].
        inversion Ha; subst. simpl. rewrite H1.
        eapply greedy_complete; eauto.
      * subst n. rewrite (exactly_complete _ _ _ _ _ Ha Hg). eauto.
    + destruct (IH m t H) as [g ->]. simpl. eauto.
    + destruct (IH m t H) as [g ->]. simpl. eauto.
Qed.

Lemma search_finds p s mo :
  search p s = Some mo ->
  exists pre, s = pre ++ from mo /\ match_here p (from mo) = Some (hit mo).
Proof.
  induction s as [|c s IH]; simpl.
  - destruct (match_here p []) eqn:E; [|discriminate].
    intros H; inversion H; subst. exists []. auto.
  - destruct (match_here p (c :: s)) eqn:E.
    + intros H; inversion H; subst. exists []. auto.
    + intros H. destruct (IH H) as (pre & -> & Hm).
      exists (c :: pre). auto.
Qed.

Lemma search_misses p s :
  search p s = None -> forall pre suf, s = pre ++ suf -> match_here p suf = None.
Proof.
  induction s as [|c s IH]; simpl.
  - destruct (match_here p []) eqn:E; [discriminate|].
    intros _ pre suf H. symmetry in H. apply app_eq_nil in H as [-> ->]. assumption.
  - destruct (match_here p (c :: s)) eqn:E; [discriminate|].
    intros H [|c' pre] suf Hs; simpl in Hs.
    + subst suf. assumption.
    + inversion Hs; subst. eapply IH; eauto.
Qed.

(** [re.search] finds a match exactly when the pattern occurs in the text. *)
Theorem search_occurs p s :
  (exists mo, search p s = Some mo) <-> occurs p s.
Proof.
  split.
  - intros [mo H]. destruct (search_finds _ _ _ H) as (pre & -> & Hm).
    destruct (match_here_sound _ _ _ Hm) as (m & E & Hl).
    exists pre, m, (rest (hit mo)). rewrite <- E. auto.
  - intros (pre & m & post & -> & Hl).
    destruct (search p (pre ++ m ++ post)) as [mo|] eqn:E; [eauto|].
    pose proof (search_misses _ _ E pre (m ++ post) eq_refl) as Hn.
    destruct (match_here_complete p m post Hl) as [f Hf]. congruence.
Qed.

Lemma lang_app p q m :
  lang (p ++ q) m <-> exists a b, m = a ++ b /\ lang p a /\ lang q b.
Proof.
  revert m. induction p as [|n p IH]; simpl; intros m.
  - split.
    + intros H. exists [], m. auto.
    + intros (a & b & -> & -> & H). assumption.
  - destruct n as [cls qt| |]; try apply IH.
    split.
    + intros (a & b & -> & Ha & Hq & Hb).
      apply IH in Hb as (b1 & b2 & -> & Hb1 & Hb2).
      exists (a ++ b1), b2. rewrite app_assoc. repeat split; auto.
      exists a, b1. auto.
    + intros (x & y & -> & (a & b & -> & Ha & Hq & Hb) & Hy).
      exists a, (b ++ y). rewrite app_assoc. repeat split; auto.
      apply IH. eauto.
Qed.

Lemma all_in_chr c a : all_in (chr c) a -> length a = 1 -> a = [c].
Proof.
  intros Ha Hl. destruct a as [|x [|y a]]; try discriminate.
  inversion Ha; subst. unfold chr in H1.
  apply Ascii.eqb_eq in H1. now subst.
Qed.

Lemma lang_lit_chars w m :
  lang (map (fun c => Chars (chr c) Once) w) m <-> m = w.
Proof.
  revert m. induction w as [|c w IH]; simpl; intros m; [tauto|].
  split.
  - intros (a & b & -> & Ha & Hl & Hb).
    apply IH in Hb. subst b. now rewrite (all_in_chr _ _ Ha Hl).
  - intros ->. exists [c], w. repeat split; [|apply IH; reflexivity].
    constructor; [apply Ascii.eqb_refl|constructor].
Qed.

Lemma lang_lit w m : lang (lit w) m <-> m = text w.
Proof. apply lang_lit_chars. Qed.

(** One node of a pattern, then the rest of it. *)
Lemma node_sound cls q p s f :
  match_here (Chars cls q :: p) s = Some f ->
  exists a b,
    s = a ++ b /\ all_in cls a /\ admits q (length a) /\ match_here p b = Some f.
Proof.
  simpl. destruct q as [| | | |n]; unfold once, optional, at_least_one; intros H.
  - destruct s as [|c s]; [discriminate|].
    destruct (cls c) eqn:Hc; [|discriminate].
    exists [c], s. repeat split; auto. constructor; [assumption|constructor].
  - assert (Hskip : match_here p s = Some f ->
              exists a b, s = a ++ b /\ all_in cls a /\ length a <= 1
                          /\ match_here p b = Some f).
    { intros Hs. exists [], s. repeat split; simpl; auto. constructor. }
    destruct s as [|c s]; [auto|].
    destruct (cls c) eqn:Hc; [|auto].
    destruct (match_here p s) as [g|] eqn:Hg; [|auto].
    inversion H; subst g.
    exists [c], s. repeat split; simpl; auto. constructor; [assumption|constructor].
  - destruct (greedy_sound _ _ _ _ H) as (a & b & -> & Ha & Hb).
    exists a, b. repeat split; auto.
  - destruct s as [|c s]; [discriminate|].
    destruct (cls c) eqn:Hc; [|discriminate].
    destruct (greedy_sound _ _ _ _ H) as (a & b & -> & Ha & Hb).
    exists (c :: a), b. repeat split; simpl; auto; [|lia].
    constructor; assumption.
  - destruct (exactly_sound _ _ _ _ _ H) as (a & b & -> & Ha & Hn & Hb).
    exists a, b. repeat split; auto.
Qed.

(** A pattern without groups in front of another: the match of the whole
    is a text of the first, then a match of the second. *)
Lemma match_here_split p q :
  groupless p = true ->
  forall s f, match_here (p ++ q) s = Some f ->
  exists a b, s = a ++ b /\ lang p a /\ match_here q b = Some f.
Proof.
  induction p as [|n p IH]; intros Hp s f H.
  - exists [], s. repeat split; auto.
  - destruct n as [cls qt| |]; try discriminate.
    change ((Chars cls qt :: p) ++ q) with (Chars cls qt :: (p ++ q)) in H.
    apply node_sound in H as (a & b & -> & Ha & Hq & Hb).
    destruct (IH Hp _ _ Hb) as (a' & b' & -> & Ha' & Hb').
    exists (a ++ a'), b'. rewrite app_assoc. repeat split; auto.
    simpl. exists a, a'. auto.
Qed.

Lemma between_app (m c : str) : between (m ++ c) c = m.
Proof.
  unfold between. rewrite length_app, Nat.add_sub.
  rewrite firstn_app, Nat.sub_diag, firstn_all. simpl. apply app_nil_r.
Qed.

(** What the group of a pattern captures is a text of the group. *)
Lemma group_captured before g after s f start :
  groupless before = true -> groupless g = true ->
  match_here (before ++ GroupStart :: g ++ GroupEnd :: after) s = Some f ->
  lang g (group1 (mkMatch start f)).
Proof.
  intros Hb Hg H.
  apply match_here_split in H as (a & b & -> & Ha & H); [|assumption].
  simpl in H.
  destruct (match_here (g ++ GroupEnd :: after) b) as [f1|] eqn:H1; [|discriminate].
  inversion H; subst f; clear H.
  apply match_here_split in H1 as (m & c & -> & Hm & H1); [|assumption].
  simpl in H1.
  destruct (match_here after c) as [f2|]; [|discriminate].
  inversion H1; subst f1; clear H1.
  unfold group1. simpl. now rewrite between_app.
Qed.


(** *** [split] *)

Lemma match_here_nonempty p s f :
  ~ lang p [] -> match_here p s = Some f ->
  exists c m, s = (c :: m) ++ rest f /\ lang p (c :: m).
Proof.
  intros Hne H. apply match_here_sound in H as (m & -> & Hm).
  destruct m as [|c m]; [contradiction|]. eauto.
Qed.

Lemma split_from_skips p s :
  forall skip piece, split_from p skip piece s = split_from p 0 piece (skipn skip s).
Proof.
  induction s as [|c s IH]; intros skip piece.
  - now rewrite skipn_nil.
  - destruct skip as [|n]; [reflexivity|]. simpl split_from at 1. apply IH.
Qed.

Lemma quiet_no_occurrence p piece follow :
  ~ lang p [] -> quiet p piece follow -> ~ occurs p piece.
Proof.
  intros Hne Hq (pre & m & post & -> & Hm).
  assert (Hb : m ++ post <> []).
  { destruct m; [contradiction|discriminate]. }
  pose proof (Hq pre (m ++ post) eq_refl Hb) as Hnone.
  rewrite <- app_assoc in Hnone.
  destruct (match_here_complete p m (post ++ follow) Hm) as [f Hf]. congruence.
Qed.

Lemma quiet_step p piece c follow :
  quiet p piece (c :: follow) -> match_here p (c :: follow) = None ->
  quiet p (piece ++ [c]) follow.
Proof.
  intros Hq Hc a b E Hb.
  destruct (exists_last Hb) as (b' & x & ->).
  rewrite app_assoc in E. apply app_inj_tail in E as [E ->].
  rewrite <- app_assoc. simpl.
  destruct b' as [|y b']; [exact Hc|].
  apply (Hq a (y :: b') E). discriminate.
Qed.

Lemma joined_cons c first more : joined (c :: first) more = c :: joined first more.
Proof. destruct more as [|[d piece] more]; reflexivity. Qed.

Lemma split_from_spec p :
  ~ lang p [] ->
  forall n s, length s <= n ->
  forall piece, quiet p (rev piece) s ->
  exists first more,
    split_from p 0 piece s = (rev piece ++ first) :: map snd more
    /\ s = joined first more
    /\ Forall (fun dp => lang p (fst dp)) more
    /\ Forall (fun x => ~ occurs p x) ((rev piece ++ first) :: map snd more).
Proof.
  intros Hne. induction n as [|n IH]; intros s Hlen piece Hq.
  - destruct s; [|simpl in Hlen; lia].
    exists [], []. simpl. rewrite app_nil_r. repeat split; auto.
    constructor; [|constructor]. eapply quiet_no_occurrence; eauto.
  - destruct s as [|c s].
    + exists [], []. simpl. rewrite app_nil_r. repeat split; auto.
      constructor; [|constructor]. eapply quiet_no_occurrence; eauto.
    + simpl in Hlen. simpl split_from.
      destruct (match_here p (c :: s)) as [f|] eqn:E.
      * destruct (match_here_nonempty _ _ _ Hne E) as (c' & m & Hs & Hm).
        simpl in Hs. injection Hs as Hc Hs'. subst c'.
        rewrite split_from_skips.
        assert (Hskip : skipn (length s - length (rest f)) s = rest f).
        { rewrite Hs' at 1 2. rewrite length_app, Nat.add_sub.
          rewrite skipn_app, skipn_all, Nat.sub_diag. reflexivity. }
        rewrite Hskip.
        assert (Hshort : length (rest f) <= n).
        { rewrite Hs' in Hlen. rewrite length_app in Hlen. lia. }
        assert (Hq0 : quiet p (rev []) (rest f)).
        { intros a b E' Hb. simpl in E'. symmetry in E'.
          apply app_eq_nil in E' as [_ ->]. congruence. }
        destruct (IH (rest f) Hshort [] Hq0) as (first & more & H1 & H2 & H3 & H4).
        simpl in H1, H4.
        exists [], ((c :: m, first) :: more). rewrite app_nil_r.
        repeat split.
        -- simpl. now rewrite H1.
        -- simpl. rewrite <- H2. now rewrite Hs'.
        -- constructor; assumption.
        -- constructor; [|exact H4]. eapply quiet_no_occurrence; eauto.
      * assert (Hq' : quiet p (rev (c :: piece)) s).
        { simpl. apply quiet_step; assumption. }
        assert (Hshort : length s <= n) by lia.
        destruct (IH s Hshort (c :: piece) Hq') as (first & more & H1 & H2 & H3 & H4).
        simpl rev in H1, H4. rewrite <- app_assoc in H1, H4. simpl in H1, H4.
        exists (c :: first), more. repeat split; auto.
        rewrite joined_cons. now f_equal.
Qed.

(** [split] cuts the text at matches of the pattern: the pieces, put together
    again with texts of the pattern between them, are the text, and the
    pattern occurs in no piece. *)
Theorem split_spec p s :
  ~ lang p [] ->
  exists first more,
    split p s = first :: map snd more
    /\ s = joined first more
    /\ Forall (fun dp => lang p (fst dp)) more
    /\ Forall (fun piece => ~ occurs p piece) (split p s).
Proof.
  intros Hne. unfold split.
  assert (Hq : quiet p (rev []) s).
  { intros a b E Hb. simpl in E. symmetry in E.
    apply app_eq_nil in E as [_ ->]. congruence. }
  destruct (split_from_spec p Hne (length s) s (le_n _) [] Hq)
    as (first & more & H1 & H2 & H3 & H4).
  simpl in H1, H4. exists first, more. rewrite H1. auto.
Qed.

End ReFacts.

(** ** Dictionaries *)

Lemma str_eqb_eq a b : str_eqb a b = true <-> a = b.
Proof.
  revert b. induction a as [|x a IH]; intros [|y b]; simpl; split;
    try congruence; try reflexivity.
  - intros H. apply andb_true_iff in H as [Hx Hab].
    apply Ascii.eqb_eq in Hx. apply IH in Hab. congruence.
  - intros H. inversion H; subst. rewrite Ascii.eqb_refl. simpl. now apply IH.
Qed.

Lemma str_eqb_refl a : str_eqb a a = true.
Proof. now apply str_eqb_eq. Qed.

Lemma str_eqb_neq a b : str_eqb a b = false <-> a <> b.
Proof.
  split.
  - intros H E. apply str_eqb_eq in E. congruence.
  - intros H. destruct (str_eqb a b) eqn:E; [|reflexivity].
    apply str_eqb_eq in E. contradiction.
Qed.

Lemma str_eqb_sym a b : str_eqb a b = str_eqb b a.
Proof.
  destruct (str_eqb a b) eqn:E.
  - apply str_eqb_eq in E. subst. symmetry. apply str_eqb_refl.
  - apply str_eqb_neq in E. symmetry. apply str_eqb_neq. congruence.
Qed.

Module DictFacts.

Import PyDict.

Section Facts.
Variable V : Type.
Implicit Types (d : dict V) (k : str) (v : V).

Lemma get_none d k : get k d = None <-> ~ In k (keys d).
Proof.
  induction d as [|[k' v'] d IH]; simpl; [tauto|].
  destruct (str_eqb k k') eqn:E.
  - apply str_eqb_eq in E. subst. split; [discriminate|]. intros H. exfalso. auto.
  - apply str_eqb_neq in E. rewrite IH. split; [intros H [H'|H']|]; auto; congruence.
Qed.

Lemma get_some_in d k v : get k d = Some v -> In (k, v) d.
Proof.
  induction d as [|[k' v'] d IH]; simpl; [discriminate|].
  destruct (str_eqb k k') eqn:E.
  - apply str_eqb_eq in E. intros H. inversion H; subst. auto.
  - auto.
Qed.

Lemma in_get d k v : wf d -> In (k, v) d -> get k d = Some v.
Proof.
  unfold wf. induction d as [|[k' v'] d IH]; simpl; [tauto|].
  intros Hnd [H|H].
  - inversion H; subst. now rewrite str_eqb_refl.
  - inversion Hnd; subst.
    destruct (str_eqb k k') eqn:E; [|auto].
    apply str_eqb_eq in E. subst. exfalso. apply H2.
    change k' with (fst (k', v)). now apply in_map.
Qed.

Lemma get_app d d' k :
  get k (d ++ d') = match get k d with Some v => Some v | None => get k d' end.
Proof.
  induction d as [|[k' v'] d IH]; simpl; [reflexivity|].
  destruct (str_eqb k k'); auto.
Qed.

Lemma keys_setitem_in d k v : In k (keys d) -> keys (setitem k v d) = keys d.
Proof.
  induction d as [|[k' v'] d IH]; simpl; [tauto|].
  destruct (str_eqb k k') eqn:E.
  - apply str_eqb_eq in E. now subst.
  - apply str_eqb_neq in E. intros [H|H]; [congruence|].
    simpl. now rewrite IH.
Qed.

Lemma keys_setitem_new d k v : ~ In k (keys d) -> keys (setitem k v d) = keys d ++ [k].
Proof.
  induction d as [|[k' v'] d IH]; simpl; [reflexivity|].
  intros H. destruct (str_eqb k k') eqn:E.
  - apply str_eqb_eq in E. subst. exfalso. auto.
  - simpl. rewrite IH; auto.
Qed.

Lemma in_keys_setitem d k v k' :
  In k' (keys (setitem k v d)) <-> k' = k \/ In k' (keys d).
Proof.
  induction d as [|[k0 v0] d IH]; simpl.
  - intuition.
  - destruct (str_eqb k k0) eqn:E; simpl.
    + apply str_eqb_eq in E. subst. intuition.
    + rewrite IH. intuition.
Qed.

Lemma wf_setitem d k v : wf d -> wf (setitem k v d).
Proof.
  unfold wf. induction d as [|[k' v'] d IH]; simpl; intros H.
  - constructor; [simpl; tauto | constructor].
  - inversion H; subst. destruct (str_eqb k k') eqn:E; simpl.
    + apply str_eqb_eq in E. subst. now constructor.
    + apply str_eqb_neq in E. constructor; [|auto].
      rewrite in_keys_setitem. intros [H'|H']; congruence.
Qed.

Lemma get_setitem d k v k' :
  get k' (setitem k v d) = if str_eqb k' k then Some v else get k' d.
Proof.
  induction d as [|[k0 v0] d IH]; simpl; [reflexivity|].
  destruct (str_eqb k k0) eqn:E; simpl.
  - apply str_eqb_eq in E. subst. destruct (str_eqb k' k0); reflexivity.
  - destruct (str_eqb k' k0) eqn:E'.
    + apply str_eqb_eq in E'. subst. now rewrite str_eqb_sym, E.
    + apply IH.
Qed.

Lemma len_setitem d k v :
  len (setitem k v d) = match get k d with Some _ => len d | None => S (len d) end.
Proof.
  unfold len. induction d as [|[k' v'] d IH]; simpl; [reflexivity|].
  destruct (str_eqb k k'); simpl; [reflexivity|].
  rewrite IH. destruct (get k d); reflexivity.
Qed.

Lemma wf_update d other : wf d -> wf (update d other).
Proof.
  unfold update. revert d. induction other as [|[k v] other IH]; simpl; intros d H.
  - assumption.
  - apply IH. now apply wf_setitem.
Qed.

Lemma in_keys_update d other k :
  In k (keys (update d other)) <-> In k (keys d) \/ In k (map fst other).
Proof.
  unfold update. revert d. induction other as [|[k0 v0] other IH]; simpl; intros d.
  - tauto.
  - rewrite IH, in_keys_setitem. intuition.
Qed.

Lemma keys_update_present d other :
  (forall k, In k (map fst other) -> In k (keys d)) ->
  keys (update d other) = keys d.
Proof.
  unfold update. revert d. induction other as [|[k0 v0] other IH]; simpl; intros d H.
  - reflexivity.
  - rewrite IH.
    + apply keys_setitem_in. auto.
    + intros k Hk. apply in_keys_setitem. auto.
Qed.

(** After [update], a key holds the last value [other] gives it, or else
    the value it had. *)
Lemma get_update d other k :
  get k (update d other) =
  match get k (rev other) with
  | Some v => Some v
  | None => get k d
  end.
Proof.
  unfold update. revert d. induction other as [|[k0 v0] other IH]; simpl; intros d.
  - reflexivity.
  - rewrite IH, get_app, get_setitem. simpl.
    destruct (get k (rev other)); [reflexivity|].
    destruct (str_eqb k k0); reflexivity.
Qed.

(** Two dictionaries with the same keys in the same order and the same
    value under every key are the same. *)
Lemma dict_ext d1 d2 :
  wf d1 -> keys d1 = keys d2 -> (forall k, get k d1 = get k d2) -> d1 = d2.
Proof.
  unfold wf. revert d2.
  induction d1 as [|[k1 v1] d1 IH]; intros [|[k2 v2] d2]; simpl;
    try discriminate; [reflexivity|].
  intros Hnd Hk Hg. inversion Hk; subst. inversion Hnd; subst.
  pose proof (Hg k2) as Hv. rewrite str_eqb_refl in Hv. inversion Hv; subst.
  f_equal. apply IH; auto.
  intros k. destruct (str_eqb k k2) eqn:E.
  - apply str_eqb_eq in E. subst.
    transitivity (@None V); [|symmetry]; apply get_none; congruence.
  - specialize (Hg k). now rewrite E in Hg.
Qed.

(** Merging the same items a second time changes nothing. *)
Lemma update_twice d other :
  wf d -> update (update d other) other = update d other.
Proof.
  intros H. apply dict_ext.
  - now repeat apply wf_update.
  - apply keys_update_present. intros k Hk. apply in_keys_update. auto.
  - intros k. rewrite !get_update. destruct (get k (rev other)); reflexivity.
Qed.

Lemma update_app d l1 l2 : update d (l1 ++ l2) = update (update d l1) l2.
Proof. unfold update. apply fold_left_app. Qed.

(** [dict(pairs)] keeps pairs with distinct keys as they are. *)
Lemma of_items_distinct (pairs : list (str * V)) :
  NoDup (map fst pairs) -> of_items pairs = pairs.
Proof.
  unfold of_items.
  assert (G : forall l d, NoDup (keys d ++ map fst l) -> update d l = d ++ l).
  { induction l as [|[k v] l IH]; simpl; intros d H.
    - unfold update. simpl. now rewrite app_nil_r.
    - change (update d ((k, v) :: l)) with (update (setitem k v d) l).
      assert (Hk : ~ In k (keys d)).
      { intros Hin. apply NoDup_remove_2 in H. apply H. apply in_or_app. auto. }
      assert (Hs : setitem k v d = d ++ [(k, v)]).
      { clear - Hk. induction d as [|[k' v'] d IHd]; simpl; [reflexivity|].
        simpl in Hk. destruct (str_eqb k k') eqn:E.
        - apply str_eqb_eq in E. subst. exfalso. auto.
        - rewrite IHd; auto. }
      rewrite Hs, IH.
      + now rewrite <- app_assoc.
      + unfold keys. rewrite map_app. simpl. now rewrite <- app_assoc. }
  intros H. apply (G pairs []). assumption.
Qed.
End Facts.

End DictFacts.

(** ** Sorting and slicing *)

Module SortFacts.

Section Facts.
Variable A : Type.
Variable key : A -> Z.

Lemma insert_desc_perm x l : Permutation (insert_desc key x l) (x :: l).
Proof.
  induction l as [|y l IH]; simpl; [reflexivity|].
  destruct (key x <? key y)%Z; [|reflexivity].
  rewrite IH. apply perm_swap.
Qed.

Lemma sorted_reverse_perm l : Permutation (sorted_reverse key l) l.
Proof.
  induction l as [|x l IH]; simpl; [reflexivity|].
  rewrite insert_desc_perm. now constructor.
Qed.

Lemma sorted_reverse_length l : length (sorted_reverse key l) = length l.
Proof. apply Permutation_length, sorted_reverse_perm. Qed.

Lemma insert_desc_sorted x l : descending key l -> descending key (insert_desc key x l).
Proof.
  unfold descending. induction 1 as [|y l Hl IH Hy]; simpl.
  - constructor; constructor.
  - destruct (key x <? key y)%Z eqn:E.
    + constructor; [assumption|].
      rewrite Forall_forall in *. intros z Hz.
      apply (Permutation_in _ (insert_desc_perm x l)) in Hz.
      destruct Hz as [<-|Hz]; [|auto].
      apply Z.ltb_lt in E. lia.
    + apply Z.ltb_ge in E. constructor; [now constructor|].
      constructor; [assumption|].
      rewrite Forall_forall in *. intros z Hz. specialize (Hy z Hz). lia.
Qed.

Lemma sorted_reverse_sorted l : descending key (sorted_reverse key l).
Proof.
  induction l as [|x l IH]; simpl; [constructor|].
  now apply insert_desc_sorted.
Qed.

Lemma descending_app l1 l2 :
  descending key (l1 ++ l2) ->
  descending key l1 /\ descending key l2 /\
  forall x y, In x l1 -> In y l2 -> (key y <= key x)%Z.
Proof.
  unfold descending. induction l1 as [|a l1 IH]; simpl; intros H.
  - repeat split; [constructor | assumption | intros x y []].
  - inversion H as [|? ? Hs Hf]; subst. destruct (IH Hs) as (G1 & G2 & G3).
    rewrite Forall_forall in Hf.
    repeat split; [constructor| |]; auto.
    + rewrite Forall_forall. intros z Hz. apply Hf, in_or_app. auto.
    + intros x y [<-|Hx] Hy; [|auto].
      apply Hf, in_or_app. auto.
Qed.
End Facts.

(** The sort is stable: the records of one key keep their order. *)
Lemma sorted_reverse_stable {A} (key : A -> Z) (v : Z) (l : list A) :
  filter (fun x => (key x =? v)%Z) (sorted_reverse key l)
  = filter (fun x => (key x =? v)%Z) l.
Proof.
  assert (Hins : forall x l',
            filter (fun y => (key y =? v)%Z) (insert_desc key x l')
            = filter (fun y => (key y =? v)%Z) (x :: l')).
  { intros x l'. induction l' as [|y l' IH]; [reflexivity|].
    simpl insert_desc. destruct (key x <? key y)%Z eqn:E; [|reflexivity].
    apply Z.ltb_lt in E. simpl in *. rewrite IH.
    destruct (key x =? v)%Z eqn:Ex; [|reflexivity].
    destruct (key y =? v)%Z eqn:Ey; [|reflexivity].
    apply Z.eqb_eq in Ex, Ey. lia. }
  induction l as [|x l IH]; [reflexivity|].
  simpl sorted_reverse. rewrite Hins. simpl. now rewrite IH.
Qed.

Lemma slice_to_nonneg {A} (l : list A) (stop : Z) :
  (0 <= stop)%Z -> slice_to l stop = firstn (Z.to_nat stop) l.
Proof.
  intros H. unfold slice_to.
  destruct (stop <? 0)%Z eqn:E; [apply Z.ltb_lt in E; lia|].
  destruct (Z.le_ge_cases stop (Z.of_nat (length l))) as [Hle|Hge].
  - now rewrite Z.min_l.
  - rewrite Z.min_r, Nat2Z.id by assumption.
    rewrite !firstn_all2; auto; lia.
Qed.

Lemma slice_to_neg {A} (l : list A) (stop : Z) :
  (stop < 0)%Z ->
  slice_to l stop = firstn (Z.to_nat (Z.max (Z.of_nat (length l) + stop) 0)) l.
Proof.
  intros H. unfold slice_to.
  destruct (stop <? 0)%Z eqn:E; [|apply Z.ltb_ge in E; lia].
  now rewrite Z.add_comm.
Qed.

Lemma slice_to_prefix {A} (l : list A) (stop : Z) :
  exists left_out, l = slice_to l stop ++ left_out.
Proof.
  unfold slice_to. eexists. symmetry. apply firstn_skipn.
Qed.

End SortFacts.

(** ** The parser *)

Module ParserFacts.

Import Re ReFacts PyDict WiFiScanner Spec.

Lemma found_in_occurs p s : found_in p s = true <-> occurs p s.
Proof.
  rewrite <- search_occurs. unfold found_in.
  destruct (search p s) as [mo|]; split; try discriminate; eauto.
  intros [mo H]. discriminate.
Qed.

Lemma found_in_absent p s : found_in p s = false <-> ~ occurs p s.
Proof.
  rewrite <- found_in_occurs. destruct (found_in p s); split; congruence.
Qed.

Lemma occurs_lit w s : occurs (lit w) s <-> substring (text w) s.
Proof.
  unfold occurs, substring. split.
  - intros (pre & m & post & -> & Hm). apply lang_lit in Hm. subst. eauto.
  - intros (pre & post & ->). exists pre, (text w), post.
    split; [reflexivity | now apply lang_lit].
Qed.

Lemma all_in_dot mid : all_in dot mid <-> ~ In LF mid.
Proof.
  unfold all_in, dot. rewrite Forall_forall. split.
  - intros H Hin. specialize (H _ Hin). now rewrite Ascii.eqb_refl in H.
  - intros H c Hc. destruct (Ascii.eqb c LF) eqn:E; [|reflexivity].
    apply Ascii.eqb_eq in E. subst. contradiction.
Qed.

(** The language of [IE:.*tag]. *)
Lemma lang_ie tag m :
  lang (lit "IE:" ++ [Chars dot ZeroOrMore] ++ lit tag) m <->
  exists mid, m = text "IE:" ++ mid ++ text tag /\ ~ In LF mid.
Proof.
  rewrite lang_app. split.
  - intros (a & b & -> & Ha & Hb). apply lang_lit in Ha. subst a.
    change ([Chars dot ZeroOrMore] ++ lit tag) with (Chars dot ZeroOrMore :: lit tag) in Hb.
    destruct Hb as (mid & c & -> & Hmid & _ & Hc).
    apply lang_lit in Hc. subst c. exists mid. split; [reflexivity|].
    now apply all_in_dot.
  - intros (mid & -> & Hmid). exists (text "IE:"), (mid ++ text tag).
    split; [reflexivity|]. split; [now apply lang_lit|].
    exists mid, (text tag). repeat split; [now apply all_in_dot | now apply lang_lit].
Qed.

Lemma occurs_ie tag s :
  occurs (lit "IE:" ++ [Chars dot ZeroOrMore] ++ lit tag) s <-> ie_marker (text tag) s.
Proof.
  unfold occurs, ie_marker. split.
  - intros (pre & m & post & -> & Hm). apply lang_ie in Hm as (mid & -> & Hmid).
    exists pre, mid, post. split; [|assumption].
    now rewrite <- !app_assoc.
  - intros (pre & mid & post & -> & Hmid).
    exists pre, (text "IE:" ++ mid ++ text tag), post. split.
    + now rewrite <- !app_assoc.
    + apply lang_ie. eauto.
Qed.

Lemma encryption_on_found cell :
  found_in encryption_on_re cell = true <-> encryption_marker cell.
Proof. rewrite found_in_occurs. apply occurs_lit. Qed.

Lemma wpa2_found cell : found_in wpa2_re cell = true <-> wpa2_marker cell.
Proof. rewrite found_in_occurs. apply (occurs_ie "WPA2"). Qed.

Lemma wpa_found cell : found_in wpa_re cell = true <-> wpa_marker cell.
Proof. rewrite found_in_occurs. apply (occurs_ie "WPA"). Qed.

(** The security mode by the markers of the block. *)
Lemma encryption_of_table cell :
  (~ encryption_marker cell -> encryption_of cell = text "Open")
  /\ (encryption_marker cell -> wpa2_marker cell -> encryption_of cell = text "WPA2")
  /\ (encryption_marker cell -> ~ wpa2_marker cell -> wpa_marker cell ->
      encryption_of cell = text "WPA")
  /\ (encryption_marker cell -> ~ wpa2_marker cell -> ~ wpa_marker cell ->
      encryption_of cell = text "WEP").
Proof.
  unfold encryption_of.
  rewrite <- encryption_on_found, <- wpa2_found, <- wpa_found.
  destruct (found_in encryption_on_re cell), (found_in wpa2_re cell),
    (found_in wpa_re cell); repeat split; intros; congruence.
Qed.

(** [int] reads no state and leaves it as it was. *)
Lemma int_pure {S} limit x (s : S) :
  int limit x s = (fst (int limit x tt), s).
Proof.
  unfold int.
  destruct (int_body x) as [|c body]; simpl.
  - reflexivity.
  - destruct (Ascii.eqb c "-"); [|destruct (Ascii.eqb c "+")];
      match goal with
      | |- context [literal_digits false ?u] => destruct (literal_digits false u)
      end; try reflexivity;
      match goal with
      | |- context [if ?b then _ else _] => destruct b
      end; reflexivity.
Qed.

(** [_parse_cell] is [record_of] at the next reading of the clock; it reads
    the clock only when it builds a record. *)
Lemma parse_cell_run cell s :
  _parse_cell cell s =
  match record_of (int_max_str_digits s) cell (clock s (clock_reads s)) with
  | Return (Some info) => (Return (Some info), with_clock_reads (S (clock_reads s)) s)
  | Return None => (Return None, s)
  | Raise e => (Raise e, s)
  end.
Proof.
  unfold _parse_cell, record_of, signal_of.
  destruct (search bssid_re cell) as [bm|]; [|reflexivity].
  destruct (search signal_re cell) as [sm|].
  - unfold bind at 1. unfold bind at 1. unfold gets at 1.
    rewrite int_pure.
    destruct (fst (int (int_max_str_digits s) (group1 sm) tt)); reflexivity.
  - reflexivity.
Qed.

(** C1.  For every block that [_parse_cell] turns into a record, the
    security mode follows the table: without the marker of enabled
    encryption it is Open; with it and a WPA2 information element, WPA2,
    whether or not a WPA element is there too; with it, no WPA2 element and a
    WPA element, WPA; with it and neither element, WEP. *)
Theorem security_mode_table cell s info s' :
  _parse_cell cell s = (Return (Some info), s') ->
  (~ encryption_marker cell -> encryption info = Some (text "Open"))
  /\ (encryption_marker cell -> wpa2_marker cell ->
      encryption info = Some (text "WPA2"))
  /\ (encryption_marker cell -> ~ wpa2_marker cell -> wpa_marker cell ->
      encryption info = Some (text "WPA"))
  /\ (encryption_marker cell -> ~ wpa2_marker cell -> ~ wpa_marker cell ->
      encryption info = Some (text "WEP")).
Proof.
  intros H. rewrite parse_cell_run in H. unfold record_of in H.
  destruct (search bssid_re cell) as [bm|]; [|discriminate].
  destruct (signal_of (int_max_str_digits s) cell) as [signal|e]; [|discriminate].
  inversion H; subst; clear H. simpl.
  destruct (encryption_of_table cell) as (T1 & T2 & T3 & T4).
  repeat split; intros; f_equal; auto.
Qed.

(** The language of the signal pattern: the label, an optional minus sign,
    one digit or more. *)
Lemma lang_signal m :
  lang signal_re m <->
  exists sign digits,
    m = text "Signal level=" ++ sign ++ digits
    /\ (sign = [] \/ sign = ["-"%char])
    /\ digits <> [] /\ all_in digit digits.
Proof.
  unfold signal_re. rewrite lang_app. split.
  - intros (a & b & -> & Ha & Hb). apply lang_lit in Ha. subst a.
    simpl in Hb. destruct Hb as (sg & b' & -> & Hsg & Hlen & ds & e & -> & Hds & Hn & ->).
    exists sg, ds. rewrite app_nil_r. repeat split; auto.
    + destruct sg as [|c [|c' sg]]; simpl in Hlen; [auto| |lia].
      right. now rewrite (all_in_chr _ _ Hsg eq_refl).
    + intros ->. simpl in Hn. lia.
  - intros (sg & ds & -> & Hsg & Hne & Hds).
    exists (text "Signal level="), (sg ++ ds). split; [reflexivity|].
    split; [now apply lang_lit|]. simpl.
    exists sg, ds. repeat split.
    + destruct Hsg as [->| ->]; [constructor|].
      constructor; [reflexivity|constructor].
    + destruct Hsg as [->| ->]; simpl; lia.
    + exists ds, []. rewrite app_nil_r. repeat split; auto.
      destruct ds; [congruence|simpl; lia].
Qed.

Lemma signal_found cell : found_in signal_re cell = true <-> signal_readable cell.
Proof.
  rewrite found_in_occurs. unfold occurs, signal_readable, starts_with_integer. split.
  - intros (pre & m & post & -> & Hm).
    apply lang_signal in Hm as (sg & ds & -> & Hsg & Hne & Hds).
    exists pre, (sg ++ ds ++ post). split; [now rewrite <- !app_assoc|].
    destruct ds as [|d ds]; [congruence|]. inversion Hds; subst.
    exists d, (ds ++ post). split; [assumption|].
    destruct Hsg as [->| ->]; simpl; auto.
  - intros (pre & post & -> & d & rest & Hd & Hpost).
    destruct Hpost as [->| ->].
    + exists pre, (text "Signal level=" ++ [] ++ [d]), rest. split.
      * now rewrite <- !app_assoc.
      * apply lang_signal. exists [], [d]. repeat split; auto; [congruence|].
        constructor; [assumption|constructor].
    + exists pre, (text "Signal level=" ++ ["-"%char] ++ [d]), rest. split.
      * now rewrite <- !app_assoc.
      * apply lang_signal. exists ["-"%char], [d]. repeat split; auto; [congruence|].
        constructor; [assumption|constructor].
Qed.

Lemma signal_not_found cell :
  found_in signal_re cell = false <-> ~ signal_readable cell.
Proof.
  rewrite <- signal_found. destruct (found_in signal_re cell); split; congruence.
Qed.

Lemma lang_bssid m :
  lang bssid_re m <->
  exists mac, m = text "Address: " ++ mac /\ length mac = 17
              /\ Forall (fun c => hex_or_colon c = true) mac.
Proof.
  unfold bssid_re. rewrite lang_app. split.
  - intros (a & b & -> & Ha & Hb). apply lang_lit in Ha. subst a.
    simpl in Hb. destruct Hb as (mac & e & -> & Hmac & Hlen & ->).
    exists mac. rewrite app_nil_r. auto.
  - intros (mac & -> & Hlen & Hmac).
    exists (text "Address: "), mac. split; [reflexivity|].
    split; [now apply lang_lit|]. simpl.
    exists mac, []. rewrite app_nil_r. auto.
Qed.

Lemma well_formed_identifier cell : well_formed cell = true <-> has_identifier cell.
Proof.
  unfold well_formed. rewrite found_in_occurs. unfold occurs, has_identifier. split.
  - intros (pre & m & post & -> & Hm).
    apply lang_bssid in Hm as (mac & -> & Hlen & Hmac).
    exists pre, mac, post. rewrite <- !app_assoc. auto.
  - intros (pre & mac & post & -> & Hlen & Hmac).
    exists pre, (text "Address: " ++ mac), post. split.
    + now rewrite <- !app_assoc.
    + apply lang_bssid. eauto.
Qed.

(** C7.  A block with an identifier in which no occurrence of the signal
    label is followed by a signed integer -- the label stands before
    something else, before nothing, or nowhere in the block -- is parsed
    into a record whose signal strength is the default -100. *)
Theorem unreadable_signal_defaults cell s :
  has_identifier cell ->
  ~ signal_readable cell ->
  exists info s',
    _parse_cell cell s = (Return (Some info), s')
    /\ signal_strength info = (-100)%Z.
Proof.
  intros Hid Hsig.
  apply well_formed_identifier in Hid. apply signal_not_found in Hsig.
  rewrite parse_cell_run. unfold record_of, signal_of.
  unfold well_formed, found_in in Hid, Hsig.
  destruct (search bssid_re cell) as [bm|]; [|discriminate].
  destruct (search signal_re cell) as [sm|]; [discriminate|].
  eexists _, _. split; reflexivity.
Qed.

Lemma security_mode_table_witness :
  (~ encryption_marker Sample.block_office ->
   encryption Sample.office = Some (text "Open"))
  /\ (encryption_marker Sample.block_office -> wpa2_marker Sample.block_office ->
      encryption Sample.office = Some (text "WPA2"))
  /\ (encryption_marker Sample.block_office -> ~ wpa2_marker Sample.block_office ->
      wpa_marker Sample.block_office ->
      encryption Sample.office = Some (text "WPA"))
  /\ (encryption_marker Sample.block_office -> ~ wpa2_marker Sample.block_office ->
      ~ wpa_marker Sample.block_office ->
      encryption Sample.office = Some (text "WEP")).
Proof.
  apply (security_mode_table Sample.block_office Sample.fresh Sample.office
           (with_clock_reads 1 Sample.fresh)).
  vm_compute. reflexivity.
Defined.

Lemma unreadable_signal_defaults_witness :
  exists info s',
    _parse_cell Sample.block_unreadable Sample.fresh = (Return (Some info), s')
    /\ signal_strength info = (-100)%Z.
Proof.
  apply (unreadable_signal_defaults Sample.block_unreadable Sample.fresh).
  - apply well_formed_identifier. vm_compute. reflexivity.
  - apply signal_not_found. vm_compute. reflexivity.
Defined.

(** *** The loop over the blocks *)

Lemma int_raises limit x e :
  fst (@int unit limit x tt) = Raise e -> e = Exception ValueError.
Proof.
  unfold int.
  destruct (int_body x) as [|c body]; simpl.
  - intros H. inversion H. reflexivity.
  - destruct (Ascii.eqb c "-"); [|destruct (Ascii.eqb c "+")];
      match goal with
      | |- context [literal_digits false ?u] => destruct (literal_digits false u)
      end;
      try (intros H; inversion H; reflexivity);
      match goal with
      | |- context [if ?b then _ else _] => destruct b
      end; intros H; inversion H; reflexivity.
Qed.

Lemma signal_of_raises limit cell e :
  signal_of limit cell = Raise e -> e = Exception ValueError.
Proof.
  unfold signal_of. destruct (search signal_re cell); [apply int_raises|discriminate].
Qed.

(** The identifier read from a block has the shape of a MAC address. *)
Lemma identifier_shape cell b :
  identifier cell = Some b ->
  length b = 17 /\ Forall (fun c => hex_or_colon c = true) b.
Proof.
  unfold identifier. destruct (search bssid_re cell) as [mo|] eqn:E; [|discriminate].
  intros H. inversion H; subst b; clear H.
  apply search_finds in E as (pre & _ & Hm).
  destruct mo as [start f]. simpl in Hm.
  pose proof (group_captured (lit "Address: ")
                [Chars hex_or_colon (Exactly 17)] [] start f start
                eq_refl eq_refl Hm) as Hg.
  simpl in Hg. destruct Hg as (a & e & Hab & Ha & Hlen & ->).
  rewrite app_nil_r in Hab. rewrite Hab. auto.
Qed.

Lemma record_of_shape limit cell t :
  record_of limit cell t =
  match identifier cell, signal_of limit cell with
  | None, _ => Return None
  | Some b, Raise e => Raise e
  | Some b, Return signal =>
      Return (Some (mkNetworkInfo b signal
        (option_map group1 (search essid_re cell))
        (Some (encryption_of cell))
        (option_map (fun f => group1 f ++ text " GHz") (search frequency_re cell))
        t))
  end.
Proof.
  unfold record_of, identifier. destruct (search bssid_re cell); reflexivity.
Qed.

Lemma record_of_bssid limit cell t info :
  record_of limit cell t = Return (Some info) -> identifier cell = Some (bssid info).
Proof.
  rewrite record_of_shape.
  destruct (identifier cell) as [b|]; [|discriminate].
  destruct (signal_of limit cell); [|discriminate].
  intros H. inversion H. reflexivity.
Qed.

Lemma record_of_parses limit cell t :
  parses limit cell = true <-> exists info, record_of limit cell t = Return (Some info).
Proof.
  unfold parses, well_formed, found_in, signal_too_long. rewrite record_of_shape.
  unfold identifier.
  destruct (search bssid_re cell); simpl;
    [destruct (signal_of limit cell)|]; simpl; split;
    try discriminate; eauto; intros [info H]; discriminate.
Qed.

Lemma record_of_fails limit cell t :
  fails limit cell = true <-> record_of limit cell t = Raise (Exception ValueError).
Proof.
  unfold fails, well_formed, found_in, signal_too_long. rewrite record_of_shape.
  unfold identifier.
  destruct (search bssid_re cell); simpl;
    [destruct (signal_of limit cell) eqn:E|]; simpl; split;
    try discriminate; auto.
  intros _. now rewrite (signal_of_raises _ _ _ E).
Qed.

Lemma record_of_raises limit cell t e :
  record_of limit cell t = Raise e ->
  e = Exception ValueError /\ forall t', record_of limit cell t' = Raise e.
Proof.
  rewrite record_of_shape.
  destruct (identifier cell) as [b|] eqn:Eb; [|discriminate].
  destruct (signal_of limit cell) eqn:E; [discriminate|].
  intros H. inversion H; subst. split.
  - eapply signal_of_raises; eauto.
  - intros t'. rewrite record_of_shape, Eb, E. reflexivity.
Qed.

Lemma record_of_returns limit cell t o :
  record_of limit cell t = Return o ->
  forall t', exists o', record_of limit cell t' = Return o'.
Proof.
  rewrite record_of_shape. intros H t'. rewrite record_of_shape.
  destruct (identifier cell); [|eauto].
  destruct (signal_of limit cell); [eauto|discriminate].
Qed.

Lemma nonempty_identifier cell b : identifier cell = Some b -> nonempty b = true.
Proof.
  intros H. apply identifier_shape in H as [Hlen _].
  destruct b; [discriminate|reflexivity].
Qed.

(** One turn of the loop. *)
Lemma parse_into_run nets cell s :
  parse_into nets cell s =
  match record_of (int_max_str_digits s) cell (clock s (clock_reads s)) with
  | Return (Some info) => (Return (setitem (bssid info) info nets), advanced s 1 [])
  | Return None => (Return nets, s)
  | Raise e => (Return nets, advanced s 0 [parse_warning e])
  end.
Proof.
  unfold parse_into, try_except, bind. rewrite parse_cell_run.
  destruct (record_of (int_max_str_digits s) cell (clock s (clock_reads s)))
    as [[info|]|e] eqn:E.
  - apply record_of_bssid in E. apply nonempty_identifier in E. rewrite E.
    unfold ret, advanced. destruct s; simpl.
    rewrite app_nil_r, Nat.add_1_r. reflexivity.
  - reflexivity.
  - apply record_of_raises in E as [-> _]. simpl.
    unfold bind, logger, modify, ret, advanced. destruct s; simpl.
    rewrite Nat.add_0_r. reflexivity.
Qed.

Lemma advanced_nothing s : advanced s 0 [] = s.
Proof. unfold advanced. destruct s; simpl. now rewrite app_nil_r, Nat.add_0_r. Qed.

Lemma advanced_twice s n l n' l' :
  advanced (advanced s n l) n' l' = advanced s (n + n') (l ++ l').
Proof.
  unfold advanced. destruct s; simpl. now rewrite <- app_assoc, Nat.add_assoc.
Qed.

Lemma advanced_limit s n l : int_max_str_digits (advanced s n l) = int_max_str_digits s.
Proof. reflexivity. Qed.

Lemma advanced_clock s n l : clock (advanced s n l) = clock s.
Proof. reflexivity. Qed.

Lemma advanced_clock_reads s n l : clock_reads (advanced s n l) = clock_reads s + n.
Proof. reflexivity. Qed.

Lemma advanced_log s n l : log (advanced s n l) = log s ++ l.
Proof. reflexivity. Qed.

Lemma update_cons {V} (d : dict V) k v other :
  update d ((k, v) :: other) = update (setitem k v d) other.
Proof. reflexivity. Qed.

(** The whole loop: the records of the blocks that parse are stored in text
    order, each block that raises leaves a warning, and the loop returns. *)
Lemma for_each_cell_run cells :
  forall nets s,
    for_each_cell cells nets s =
    (Return (update nets
               (parsed_records (int_max_str_digits s) (clock s) (clock_reads s) cells)),
     advanced s
       (length (parsed_records (int_max_str_digits s) (clock s) (clock_reads s) cells))
       (parse_warnings (int_max_str_digits s) cells)).
Proof.
  induction cells as [|cell cells IH]; intros nets s.
  - simpl. unfold ret. now rewrite advanced_nothing.
  - simpl for_each_cell. unfold bind at 1. rewrite parse_into_run.
    unfold parse_warnings. simpl parsed_records. simpl flat_map.
    fold (parse_warnings (int_max_str_digits s) cells).
    destruct (record_of (int_max_str_digits s) cell (clock s (clock_reads s)))
      as [[info|]|e] eqn:E.
    + rewrite IH, advanced_limit, advanced_clock, advanced_clock_reads.
      destruct (record_of_returns _ _ _ _ E 0%Z) as [o' ->].
      rewrite advanced_twice, Nat.add_1_r, update_cons. reflexivity.
    + rewrite IH. destruct (record_of_returns _ _ _ _ E 0%Z) as [o' ->].
      reflexivity.
    + rewrite IH, advanced_limit, advanced_clock, advanced_clock_reads.
      destruct (record_of_raises _ _ _ _ E) as [-> Ht]. rewrite Ht.
      rewrite advanced_twice, Nat.add_0_r. reflexivity.
Qed.

(** *** The keys of the result *)

Lemma seen_in k seen : existsb (str_eqb k) seen = true <-> In k seen.
Proof.
  rewrite existsb_exists. split.
  - intros (x & Hx & E). apply str_eqb_eq in E. now subst.
  - intros H. exists k. split; [assumption|apply str_eqb_refl].
Qed.

Lemma keys_update_first {V} (other : list (str * V)) :
  forall (d : dict V) seen,
    (forall k, In k seen <-> In k (keys d)) ->
    keys (update d other) = keys d ++ first_occurrences seen (map fst other).
Proof.
  induction other as [|[k v] other IH]; intros d seen Hseen.
  - simpl. now rewrite app_nil_r.
  - rewrite update_cons. simpl map. simpl first_occurrences.
    destruct (existsb (str_eqb k) seen) eqn:E.
    + apply seen_in in E. apply Hseen in E.
      rewrite (IH _ seen).
      * now rewrite DictFacts.keys_setitem_in.
      * intros k'. rewrite DictFacts.keys_setitem_in; auto.
    + assert (Hk : ~ In k (keys d)).
      { intros Hin. apply Hseen, seen_in in Hin. congruence. }
      rewrite (IH _ (k :: seen)).
      * rewrite DictFacts.keys_setitem_new by assumption.
        now rewrite <- app_assoc.
      * intros k'. rewrite DictFacts.keys_setitem_new by assumption.
        rewrite in_app_iff. simpl. rewrite Hseen. intuition.
Qed.

Lemma first_occurrences_in l :
  forall seen k, In k (first_occurrences seen l) <-> In k l /\ ~ In k seen.
Proof.
  induction l as [|x l IH]; intros seen k; simpl.
  - tauto.
  - destruct (existsb (str_eqb x) seen) eqn:E.
    + apply seen_in in E. rewrite IH. split.
      * intuition.
      * intros [[->|H] Hn]; [contradiction|auto].
    + assert (Hx : ~ In x seen) by (intros H; apply seen_in in H; congruence).
      simpl. rewrite IH. simpl. split.
      * intros [->|[H Hn]]; auto.
      * intros [[->|H] Hn]; [auto|].
        destruct (str_eqb x k) eqn:Exk.
        -- apply str_eqb_eq in Exk. auto.
        -- apply str_eqb_neq in Exk. right. split; [assumption|]. intros [H'|H']; auto.
Qed.

Lemma first_occurrences_distinct l :
  forall seen, NoDup l -> (forall k, In k l -> ~ In k seen) ->
  first_occurrences seen l = l.
Proof.
  induction l as [|x l IH]; intros seen Hnd Hseen; simpl; [reflexivity|].
  inversion Hnd; subst.
  destruct (existsb (str_eqb x) seen) eqn:E.
  - apply seen_in in E. exfalso. apply (Hseen x); simpl; auto.
  - f_equal. apply IH; [assumption|].
    intros k Hk [<-|H]; [contradiction|]. apply (Hseen k); simpl; auto.
Qed.

Lemma parsed_records_keys limit clock cells :
  forall n, map fst (parsed_records limit clock n cells) = parsed_identifiers limit cells.
Proof.
  unfold parsed_identifiers.
  induction cells as [|cell cells IH]; intros n; simpl; [reflexivity|].
  destruct (record_of limit cell (clock n)) as [[info|]|e] eqn:E.
  - rewrite (proj2 (record_of_parses limit cell (clock n))) by eauto.
    rewrite (record_of_bssid _ _ _ _ E). simpl. now rewrite IH.
  - destruct (parses limit cell) eqn:P; [|apply IH].
    apply (record_of_parses limit cell (clock n)) in P as [info P]. congruence.
  - destruct (parses limit cell) eqn:P; [|apply IH].
    apply (record_of_parses limit cell (clock n)) in P as [info P]. congruence.
Qed.

Lemma parsed_identifiers_in limit cells b :
  In b (parsed_identifiers limit cells) <->
  exists cell, In cell cells /\ parses limit cell = true /\ identifier cell = Some b.
Proof.
  unfold parsed_identifiers. rewrite in_flat_map. split.
  - intros (cell & Hc & Hb). exists cell.
    destruct (parses limit cell); [|contradiction].
    destruct (identifier cell) as [b'|]; [|contradiction].
    destruct Hb as [->|[]]. auto.
  - intros (cell & Hc & Hp & Hi). exists cell. rewrite Hp, Hi. simpl. auto.
Qed.

Lemma parsed_identifiers_length limit cells :
  length (parsed_identifiers limit cells) = length (filter (parses limit) cells).
Proof.
  unfold parsed_identifiers. induction cells as [|cell cells IH]; simpl; [reflexivity|].
  destruct (parses limit cell) eqn:P; [|assumption].
  assert (W : well_formed cell = true).
  { unfold parses in P. now apply andb_true_iff in P as [W _]. }
  rewrite length_app, IH.
  unfold well_formed, found_in in W. unfold identifier.
  destruct (search bssid_re cell); [|discriminate]. reflexivity.
Qed.

Lemma parse_warnings_count limit cells :
  warnings (parse_warnings limit cells) = length (filter (fails limit) cells).
Proof.
  unfold warnings, parse_warnings.
  induction cells as [|cell cells IH]; simpl; [reflexivity|].
  rewrite filter_app, length_app, IH.
  destruct (record_of limit cell 0%Z) as [o|e] eqn:E.
  - destruct (fails limit cell) eqn:F; [|reflexivity].
    apply (record_of_fails limit cell 0%Z) in F. congruence.
  - apply record_of_raises in E as [-> Ht].
    rewrite (proj2 (record_of_fails limit cell 0%Z)) by apply Ht. reflexivity.
Qed.

Lemma never_fails_parses limit cells :
  forallb (fun c => negb (fails limit c)) cells = true ->
  filter (parses limit) cells = filter well_formed cells.
Proof.
  induction cells as [|cell cells IH]; simpl; [reflexivity|].
  intros H. apply andb_true_iff in H as [Hc H].
  unfold fails, parses in *.
  destruct (well_formed cell), (signal_too_long limit cell); simpl in *;
    try discriminate; now rewrite IH.
Qed.

(** C2, as the code has it.  On every scan text the parser returns; it never
    raises.  The result holds one record for each distinct identifier among
    the blocks that parse, in the order in which the identifiers first
    appear, so a block that parses is never lost to another block.  A block
    without a MAC address is passed over without a warning: the only
    warnings are those of the blocks on which the parse raises.  When no
    block raises and the identifiers are pairwise distinct, the records are
    as many as the well-formed blocks. *)
Theorem parse_scan_results_counts scan_output s :
  let cells := cells_of scan_output in
  let limit := int_max_str_digits s in
  exists nets s',
    _parse_scan_results scan_output s = (Return nets, s')
    /\ wf nets
    /\ keys nets = first_occurrences [] (parsed_identifiers limit cells)
    /\ (forall cell b,
          In cell cells -> parses limit cell = true -> identifier cell = Some b ->
          In b (keys nets))
    /\ warnings (log s') = warnings (log s) + length (filter (fails limit) cells)
    /\ (forall cell,
          In cell cells -> well_formed cell = false ->
          parse_warnings limit [cell] = [])
    /\ (forallb (fun c => negb (fails limit c)) cells = true ->
        NoDup (parsed_identifiers limit cells) ->
        len nets = length (filter well_formed cells)).
Proof.
  intros cells limit. unfold _parse_scan_results. fold cells.
  rewrite for_each_cell_run. fold limit.
  eexists _, _. split; [reflexivity|].
  assert (K : keys (update [] (parsed_records limit (clock s) (clock_reads s) cells))
              = first_occurrences [] (parsed_identifiers limit cells)).
  { rewrite (keys_update_first _ [] []) by (simpl; tauto).
    simpl. now rewrite parsed_records_keys. }
  repeat split.
  - apply DictFacts.wf_update. constructor.
  - exact K.
  - intros cell b Hc Hp Hi. rewrite K. apply first_occurrences_in.
    split; [|simpl; tauto]. apply parsed_identifiers_in. eauto.
  - rewrite advanced_log. unfold warnings at 1.
    rewrite filter_app, length_app. fold (warnings (log s)).
    fold (warnings (parse_warnings limit cells)).
    now rewrite parse_warnings_count.
  - intros cell Hc W. unfold parse_warnings. simpl.
    rewrite record_of_shape. unfold identifier.
    unfold well_formed, found_in in W.
    destruct (search bssid_re cell); [discriminate|reflexivity].
  - intros Hf Hnd. unfold len.
    rewrite <- (length_map fst). fold (keys (update [] (parsed_records limit (clock s) (clock_reads s) cells))).
    rewrite K, first_occurrences_distinct by (simpl; auto).
    rewrite parsed_identifiers_length. now rewrite never_fails_parses.
Qed.

(** C2, as it is worded, fails on a text with the same network in two blocks
    and a block without an address between them: two well-formed blocks and
    one malformed block give one record and no warning. *)
Lemma malformed_block_not_warned :
  length (filter well_formed (cells_of Sample.seen_twice)) = 2
  /\ length (filter (fun c => negb (well_formed c)) (cells_of Sample.seen_twice)) = 1
  /\ (exists nets s',
        _parse_scan_results Sample.seen_twice (Sample.scanner Sample.seen_twice)
        = (Return nets, s')
        /\ len nets = 1 /\ warnings (log s') = 0)
  /\ ~ counts_as_worded Sample.seen_twice (Sample.scanner Sample.seen_twice).
Proof.
  split; [vm_compute; reflexivity|].
  split; [vm_compute; reflexivity|].
  split.
  - eexists _, _. split; [vm_compute; reflexivity|]. split; reflexivity.
  - intros (nets & s' & H & Hlen & _).
    assert (E : fst (_parse_scan_results Sample.seen_twice
                       (Sample.scanner Sample.seen_twice))
                = Return [(text "AA:BB:CC:DD:EE:02",
                           mkNetworkInfo (text "AA:BB:CC:DD:EE:02") (-82)%Z None
                             (Some (text "WPA2")) None 1%Z)])
      by (vm_compute; reflexivity).
    rewrite H in E. simpl in E. inversion E; subst nets.
    vm_compute in Hlen. discriminate.
Qed.

Lemma parsed_records_app limit clock l1 l2 :
  forall n,
    parsed_records limit clock n (l1 ++ l2) =
    parsed_records limit clock n l1
    ++ parsed_records limit clock (n + length (parsed_records limit clock n l1)) l2.
Proof.
  induction l1 as [|c l1 IH]; intros n; simpl.
  - now rewrite Nat.add_0_r.
  - destruct (record_of limit c (clock n)) as [[info|]|e]; simpl; rewrite IH.
    + now rewrite Nat.add_succ_r.
    + reflexivity.
    + reflexivity.
Qed.

Lemma one_key (b : str) l :
  NoDup l -> In b l -> length (filter (str_eqb b) l) = 1.
Proof.
  induction l as [|x l IH]; simpl; [tauto|].
  intros Hnd Hin. inversion Hnd; subst.
  destruct (str_eqb b x) eqn:E.
  - apply str_eqb_eq in E. subst x. simpl. f_equal.
    assert (F : filter (str_eqb b) l = []); [|now rewrite F].
    clear - H1. induction l as [|y l IHl]; simpl; [reflexivity|].
    destruct (str_eqb b y) eqn:E.
    + apply str_eqb_eq in E. subst. exfalso. apply H1. simpl. auto.
    + apply IHl. intros H. apply H1. simpl. auto.
  - apply str_eqb_neq in E. destruct Hin as [->|Hin]; [congruence|]. auto.
Qed.

(** C3.  When two blocks of a scan text carry the same identifier, the
    later of them parses, and no block after it carries that identifier, the
    result holds exactly one record under the identifier, and it is the
    record [_parse_cell] built from the later block. *)
Theorem later_block_wins scan_output s before c1 between c2 after b :
  cells_of scan_output = before ++ c1 :: between ++ c2 :: after ->
  identifier c1 = Some b ->
  identifier c2 = Some b ->
  parses (int_max_str_digits s) c2 = true ->
  (forall c, In c after -> identifier c <> Some b) ->
  exists nets s' info n l s2,
    _parse_scan_results scan_output s = (Return nets, s')
    /\ length (filter (str_eqb b) (keys nets)) = 1
    /\ _parse_cell c2 (advanced s n l) = (Return (Some info), s2)
    /\ get b nets = Some info.
Proof.
  intros Hcells _ Hid Hparse Hafter.
  set (limit := int_max_str_digits s) in *.
  unfold _parse_scan_results. rewrite for_each_cell_run. fold limit.
  rewrite Hcells.
  change (before ++ c1 :: between ++ c2 :: after)
    with (before ++ (c1 :: between) ++ c2 :: after).
  rewrite app_assoc, parsed_records_app.
  set (earlier := parsed_records limit (clock s) (clock_reads s)
                    (before ++ c1 :: between)).
  set (n := length earlier).
  destruct (proj1 (record_of_parses limit c2 (clock s (clock_reads s + n))) Hparse)
    as [info Hinfo].
  pose proof (record_of_bssid _ _ _ _ Hinfo) as Hb.
  rewrite Hid in Hb. inversion Hb as [Hb']; clear Hb.
  simpl parsed_records. rewrite Hinfo, <- Hb'.
  set (later := parsed_records limit (clock s) (S (clock_reads s + n)) after).
  exists (update [] (earlier ++ (b, info) :: later)).
  eexists. exists info, n, []. eexists.
  split; [reflexivity|].
  assert (Hget : get b (update [] (earlier ++ (b, info) :: later)) = Some info).
  { rewrite DictFacts.get_update, rev_app_distr. simpl rev.
    rewrite <- app_assoc, DictFacts.get_app.
    assert (Hnone : get b (rev later) = None).
    { apply DictFacts.get_none. unfold keys. rewrite map_rev, <- in_rev.
      unfold later. rewrite parsed_records_keys.
      intros Hin. apply parsed_identifiers_in in Hin as (c & Hc & _ & Hi).
      exact (Hafter c Hc Hi). }
    rewrite Hnone. simpl. now rewrite str_eqb_refl. }
  split; [|split; [|exact Hget]].
  - apply one_key.
    + apply DictFacts.wf_update. constructor.
    + apply DictFacts.get_some_in in Hget.
      change b with (fst (b, info)). now apply in_map.
  - rewrite parse_cell_run, advanced_limit, advanced_clock, advanced_clock_reads.
    fold limit. rewrite Hinfo. reflexivity.
Qed.

Lemma later_block_wins_witness :
  exists nets s' info n l s2,
    _parse_scan_results Sample.seen_twice (Sample.scanner Sample.seen_twice)
    = (Return nets, s')
    /\ length (filter (str_eqb (text "AA:BB:CC:DD:EE:02")) (keys nets)) = 1
    /\ _parse_cell Sample.block_office_again
         (advanced (Sample.scanner Sample.seen_twice) n l)
       = (Return (Some info), s2)
    /\ get (text "AA:BB:CC:DD:EE:02") nets = Some info.
Proof.
  apply (later_block_wins Sample.seen_twice (Sample.scanner Sample.seen_twice)
           [] (Sample.block_office ++ text "          ")
           [Sample.block_garbled ++ text "          "]
           Sample.block_office_again [] (text "AA:BB:CC:DD:EE:02")).
  - vm_compute. reflexivity.
  - vm_compute. reflexivity.
  - vm_compute. reflexivity.
  - vm_compute. reflexivity.
  - intros c [].
Defined.

(** [_parse_cell] raises on a block with an identifier whose signal has
    more digits than [int] converts, whenever it is called. *)
Lemma fails_raises s cell n l :
  fails (int_max_str_digits s) cell = true ->
  fst (_parse_cell cell (advanced s n l)) = Raise (Exception ValueError).
Proof.
  intros H. rewrite parse_cell_run, advanced_limit.
  rewrite (proj1 (record_of_fails _ cell
                    (clock (advanced s n l) (clock_reads (advanced s n l)))) H).
  reflexivity.
Qed.

(** C3, as it is worded, fails on a text with the same network in two blocks
    when the later block gives a number of more digits than [int] converts:
    [_parse_cell] raises on the later block, the block is skipped with a
    warning, and the mapping keeps the record of the earlier block. *)
Lemma later_block_overlong_skipped :
  cells_of Sample.seen_then_overlong
  = [Sample.block_office ++ text "          "; Sample.block_office_overlong]
  /\ identifier (Sample.block_office ++ text "          ")
     = Some (text "AA:BB:CC:DD:EE:02")
  /\ identifier Sample.block_office_overlong = Some (text "AA:BB:CC:DD:EE:02")
  /\ (forall n l,
        fst (_parse_cell Sample.block_office_overlong
               (advanced (Sample.scanner Sample.seen_then_overlong) n l))
        = Raise (Exception ValueError))
  /\ (exists info nets s',
        fst (_parse_cell (Sample.block_office ++ text "          ")
               (Sample.scanner Sample.seen_then_overlong))
        = Return (Some info)
        /\ signal_strength info = (-70)%Z
        /\ _parse_scan_results Sample.seen_then_overlong
             (Sample.scanner Sample.seen_then_overlong)
           = (Return nets, s')
        /\ nets = [(text "AA:BB:CC:DD:EE:02", info)]
        /\ warnings (log s') = 1)
  /\ ~ later_wins_as_worded Sample.seen_then_overlong
        (Sample.scanner Sample.seen_then_overlong).
Proof.
  assert (Hcells : cells_of Sample.seen_then_overlong
                   = [Sample.block_office ++ text "          ";
                      Sample.block_office_overlong])
    by (vm_compute; reflexivity).
  assert (Hid1 : identifier (Sample.block_office ++ text "          ")
                 = Some (text "AA:BB:CC:DD:EE:02"))
    by (vm_compute; reflexivity).
  assert (Hid2 : identifier Sample.block_office_overlong
                 = Some (text "AA:BB:CC:DD:EE:02"))
    by (vm_compute; reflexivity).
  assert (Hfails : fails 4300 Sample.block_office_overlong = true)
    by (vm_compute; reflexivity).
  assert (Hraises : forall n l,
            fst (_parse_cell Sample.block_office_overlong
                   (advanced (Sample.scanner Sample.seen_then_overlong) n l))
            = Raise (Exception ValueError)).
  { intros n l. apply fails_raises. exact Hfails. }
  split; [exact Hcells|]. split; [exact Hid1|]. split; [exact Hid2|].
  split; [exact Hraises|]. split.
  - eexists _, _, _. split; [vm_compute; reflexivity|].
    split; [reflexivity|]. split; [vm_compute; reflexivity|].
    split; reflexivity.
  - intros H.
    destruct (H [] _ [] _ [] _ Hcells Hid1 Hid2 (fun c F => match F with end))
      as (nets & s' & info & n & l & s2 & _ & _ & Hp & _).
    pose proof (Hraises n l) as R. rewrite Hp in R. discriminate R.
Qed.


(** The scenario of the specification: an open network named Home at -40
    and a WPA2 network at -70 give a mapping of two records. *)
Example two_networks_parsed :
  exists home office s',
    _parse_scan_results Sample.two_networks Sample.fresh
    = (Return [(text "AA:BB:CC:DD:EE:01", home); (text "AA:BB:CC:DD:EE:02", office)], s')
    /\ signal_strength home = (-40)%Z
    /\ essid home = Some (text "Home")
    /\ encryption home = Some (text "Open")
    /\ frequency home = Some (text "2.437 GHz")
    /\ signal_strength office = (-70)%Z
    /\ essid office = None
    /\ encryption office = Some (text "WPA2")
    /\ log s' = [].
Proof.
  eexists _, _, _. split; [vm_compute; reflexivity|].
  repeat split.
Qed.


(** *** The blocks of a scan text *)

Lemma lang_cell m :
  lang cell_re m <->
  exists digits,
    m = text "Cell " ++ digits ++ text " - "
    /\ digits <> [] /\ all_in digit digits.
Proof.
  unfold cell_re. rewrite lang_app. split.
  - intros (a & b & -> & Ha & Hb). apply lang_lit in Ha. subst a.
    change ([Chars digit OneOrMore] ++ lit " - ")
      with (Chars digit OneOrMore :: lit " - ") in Hb.
    destruct Hb as (ds & e & -> & Hds & Hn & He).
    apply lang_lit in He. subst e. exists ds. repeat split; auto.
    intros ->. simpl in Hn. lia.
  - intros (ds & -> & Hne & Hds).
    exists (text "Cell "), (ds ++ text " - "). split; [reflexivity|].
    split; [now apply lang_lit|].
    exists ds, (text " - "). repeat split; auto.
    + destruct ds; [congruence|simpl; lia].
    + now apply lang_lit.
Qed.

(** X1.  The scan text is a banner and then the blocks, each after its cell
    marker: the word Cell, digits, and a dash between spaces.  The blocks
    are what [_parse_scan_results] parses, in text order; the text is the
    banner, the markers and the blocks put together again, and neither the
    banner nor a block holds a cell marker. *)
Theorem cells_of_spec scan_output :
  exists banner marked,
    cells_of scan_output = map snd marked
    /\ scan_output = joined banner marked
    /\ Forall (fun mb => exists digits,
                 fst mb = text "Cell " ++ digits ++ text " - "
                 /\ digits <> [] /\ all_in digit digits) marked
    /\ ~ occurs cell_re banner
    /\ Forall (fun block => ~ occurs cell_re block) (cells_of scan_output).
Proof.
  assert (Hne : ~ lang cell_re []).
  { intros H. apply lang_cell in H as (ds & H & _). discriminate. }
  destruct (split_spec cell_re scan_output Hne) as (banner & marked & H1 & H2 & H3 & H4).
  exists banner, marked. unfold cells_of. rewrite H1 in *. simpl.
  split; [reflexivity|]. split; [assumption|]. split.
  - rewrite Forall_forall in *. intros mb Hmb. apply lang_cell. auto.
  - inversion H4; subst. split; assumption.
Qed.

End ParserFacts.

(** ** The coordinator *)

Module CoordinatorFacts.

Import PyDict WiFiScanner Spec.

Lemma filter_distinct {V} (f : str * V -> bool) (d : dict V) :
  wf d -> NoDup (map fst (filter f d)).
Proof.
  unfold wf, keys. induction d as [|x d IH]; simpl; intros H; [constructor|].
  inversion H; subst. destruct (f x); simpl; [|auto].
  constructor; [|auto].
  intros Hin. apply H2. apply in_map_iff in Hin as (y & Hy & Hf).
  apply filter_In in Hf as [Hf _]. rewrite <- Hy. now apply in_map.
Qed.

Lemma get_filter {V} (f : str * V -> bool) (d : dict V) k v :
  wf d -> (get k (filter f d) = Some v <-> get k d = Some v /\ f (k, v) = true).
Proof.
  intros Hwf. split.
  - intros H. apply DictFacts.get_some_in in H. apply filter_In in H as [Hin Hf].
    split; [now apply DictFacts.in_get|assumption].
  - intros [H Hf]. apply DictFacts.in_get.
    + apply filter_distinct. assumption.
    + apply filter_In. split; [now apply DictFacts.get_some_in|assumption].
Qed.

(** C4, the default threshold as it is worded: a cycle that finds a network
    at -101 leaves one record in the cache, and [get_networks] with the
    default threshold returns none. *)
Lemma default_threshold_drops_faint :
  len (wifi_data Sample.after_faint_scan) = 1
  /\ get_networks default_min_signal Sample.after_faint_scan
     = (Return [], Sample.after_faint_scan).
Proof. split; vm_compute; reflexivity. Qed.

(** C4, as the code has it.  [get_networks min_signal] returns the cached
    records whose signal strength is at least [min_signal], in the order of
    the cache, and leaves the state as it was.  With the default threshold
    these are the records at -100 or above: the whole cache when no cached
    record is weaker than -100. *)
Theorem get_networks_filters s min_signal :
  wf (wifi_data s) ->
  exists result,
    get_networks min_signal s = (Return result, s)
    /\ result = filter (fun item => (min_signal <=? signal_key item)%Z) (wifi_data s)
    /\ (forall k info,
          get k result = Some info <->
          get k (wifi_data s) = Some info /\ (min_signal <= signal_strength info)%Z)
    /\ (min_signal = default_min_signal ->
        (forall item, In item (wifi_data s) -> (-100 <= signal_key item)%Z) ->
        result = wifi_data s).
Proof.
  intros Hwf. unfold get_networks, bind, gets, ret, items.
  rewrite DictFacts.of_items_distinct by (apply filter_distinct; assumption).
  eexists. split; [reflexivity|]. split; [reflexivity|]. split.
  - intros k info. rewrite get_filter by assumption.
    unfold signal_key. simpl. now rewrite Z.leb_le.
  - intros -> Hall. unfold default_min_signal.
    apply forallb_filter_id. apply forallb_forall. intros item Hin.
    apply Z.leb_le. apply (Hall item Hin).
Qed.

Lemma get_networks_filters_witness :
  exists result,
    get_networks (-60) Sample.loaded = (Return result, Sample.loaded)
    /\ result = filter (fun item => (-60 <=? signal_key item)%Z) (wifi_data Sample.loaded)
    /\ (forall k info,
          get k result = Some info <->
          get k (wifi_data Sample.loaded) = Some info /\ (-60 <= signal_strength info)%Z)
    /\ ((-60)%Z = default_min_signal ->
        (forall item, In item (wifi_data Sample.loaded) -> (-100 <= signal_key item)%Z) ->
        result = wifi_data Sample.loaded).
Proof.
  apply (get_networks_filters Sample.loaded (-60)).
  unfold wf. simpl.
  repeat constructor; simpl; intuition discriminate.
Defined.

(** *** The strongest networks *)

Lemma prefix_distinct {V} (l front back : list (str * V)) :
  l = front ++ back -> NoDup (map fst l) -> NoDup (map fst front).
Proof.
  intros -> H. rewrite map_app in H. now apply NoDup_app_remove_r in H.
Qed.

(** [get_strongest_networks count] sorts the records by descending signal and
    returns the slice of the sorted records up to [count]; the state stays as
    it was. *)
Lemma strongest_run s count :
  wf (wifi_data s) ->
  exists result left_out,
    get_strongest_networks count s = (Return result, s)
    /\ result = slice_to (sorted_reverse signal_key (wifi_data s)) count
    /\ sorted_reverse signal_key (wifi_data s) = result ++ left_out
    /\ descending signal_key result
    /\ Permutation (result ++ left_out) (wifi_data s)
    /\ (forall x y, In x result -> In y left_out -> (signal_key y <= signal_key x)%Z).
Proof.
  intros Hwf. unfold get_strongest_networks, bind, gets, ret, items.
  fold signal_key.
  set (sorted_networks := sorted_reverse signal_key (wifi_data s)).
  destruct (SortFacts.slice_to_prefix sorted_networks count) as [left_out Hsplit].
  assert (Hperm : Permutation sorted_networks (wifi_data s))
    by apply SortFacts.sorted_reverse_perm.
  assert (Hnd : NoDup (map fst sorted_networks)).
  { apply (Permutation_NoDup (l := map fst (wifi_data s))); [|exact Hwf].
    apply Permutation_map. now symmetry. }
  rewrite DictFacts.of_items_distinct by (eapply prefix_distinct; eauto).
  exists (slice_to sorted_networks count), left_out.
  pose proof (SortFacts.sorted_reverse_sorted _ signal_key (wifi_data s)) as Hsorted.
  fold sorted_networks in Hsorted. rewrite Hsplit in Hsorted.
  apply SortFacts.descending_app in Hsorted as (H1 & _ & H2).
  repeat split; auto. now rewrite <- Hsplit.
Qed.

(** C5.  For a count that is not negative, [get_strongest_networks] returns
    records in descending order of signal strength, as many as the smaller
    of the count and the size of the cache; no record left out is stronger
    than a record returned; the state, and so the cache, is as it was. *)
Theorem strongest_networks_sorted s k :
  wf (wifi_data s) ->
  (0 <= k)%Z ->
  exists result left_out,
    get_strongest_networks k s = (Return result, s)
    /\ descending signal_key result
    /\ Z.of_nat (len result) = Z.min k (Z.of_nat (len (wifi_data s)))
    /\ Permutation (result ++ left_out) (wifi_data s)
    /\ (forall x y, In x result -> In y left_out -> (signal_key y <= signal_key x)%Z).
Proof.
  intros Hwf Hk.
  destruct (strongest_run s k Hwf) as (result & left_out & Hrun & Hres & _ & Hd & Hp & Ho).
  exists result, left_out. repeat split; auto.
  rewrite Hres, SortFacts.slice_to_nonneg by assumption.
  unfold len. rewrite length_firstn, SortFacts.sorted_reverse_length. lia.
Qed.

Lemma strongest_networks_sorted_witness :
  exists result left_out,
    get_strongest_networks 2 Sample.loaded = (Return result, Sample.loaded)
    /\ descending signal_key result
    /\ Z.of_nat (len result) = Z.min 2 (Z.of_nat (len (wifi_data Sample.loaded)))
    /\ Permutation (result ++ left_out) (wifi_data Sample.loaded)
    /\ (forall x y, In x result -> In y left_out -> (signal_key y <= signal_key x)%Z).
Proof.
  apply (strongest_networks_sorted Sample.loaded 2).
  - unfold wf. simpl. repeat constructor; simpl; intuition discriminate.
  - lia.
Defined.

(** C10.  For a negative count, [get_strongest_networks] returns the
    strongest records but the [-count] weakest: [max (size + count) 0] of
    them, in descending order, none weaker than a record left out -- and not
    the empty mapping, as long as the cache holds more than [-count]
    records. *)
Theorem strongest_networks_negative s count :
  wf (wifi_data s) ->
  (count < 0)%Z ->
  exists result weakest,
    get_strongest_networks count s = (Return result, s)
    /\ Z.of_nat (len result) = Z.max (Z.of_nat (len (wifi_data s)) + count) 0
    /\ Z.of_nat (length weakest) = Z.min (- count) (Z.of_nat (len (wifi_data s)))
    /\ descending signal_key result
    /\ Permutation (result ++ weakest) (wifi_data s)
    /\ (forall x y, In x result -> In y weakest -> (signal_key y <= signal_key x)%Z)
    /\ ((- count < Z.of_nat (len (wifi_data s)))%Z -> result <> []).
Proof.
  intros Hwf Hc.
  destruct (strongest_run s count Hwf)
    as (result & weakest & Hrun & Hres & Hsplit & Hd & Hp & Ho).
  assert (Hlen : Z.of_nat (len result)
                 = Z.max (Z.of_nat (len (wifi_data s)) + count) 0).
  { rewrite Hres, SortFacts.slice_to_neg by assumption.
    unfold len. rewrite length_firstn, SortFacts.sorted_reverse_length. lia. }
  assert (Htotal : len result + length weakest = len (wifi_data s)).
  { unfold len. rewrite <- length_app. now apply Permutation_length. }
  exists result, weakest. repeat split; auto.
  - lia.
  - intros Hmore ->. simpl in Hlen. lia.
Qed.

Lemma strongest_networks_negative_witness :
  exists result weakest,
    get_strongest_networks (-1) Sample.loaded = (Return result, Sample.loaded)
    /\ Z.of_nat (len result) = Z.max (Z.of_nat (len (wifi_data Sample.loaded)) + -1) 0
    /\ Z.of_nat (length weakest) = Z.min (- -1) (Z.of_nat (len (wifi_data Sample.loaded)))
    /\ descending signal_key result
    /\ Permutation (result ++ weakest) (wifi_data Sample.loaded)
    /\ (forall x y, In x result -> In y weakest -> (signal_key y <= signal_key x)%Z)
    /\ ((- -1 < Z.of_nat (len (wifi_data Sample.loaded)))%Z -> result <> []).
Proof.
  apply (strongest_networks_negative Sample.loaded (-1)).
  - unfold wf. simpl. repeat constructor; simpl; intuition discriminate.
  - lia.
Defined.

(** *** The merge *)

(** C8.  Merging a scan result into the cache a second time leaves the cache
    as the first merge left it. *)
Theorem merge_idempotent s scan_results :
  wf (wifi_data s) ->
  exists s1 s2,
    merge scan_results s = (Return tt, s1)
    /\ merge scan_results s1 = (Return tt, s2)
    /\ wifi_data s2 = wifi_data s1.
Proof.
  intros Hwf. unfold merge.
  destruct (truthy scan_results).
  - unfold bind, modify, logger. eexists _, _.
    split; [reflexivity|]. split; [reflexivity|].
    simpl. now apply DictFacts.update_twice.
  - unfold logger, modify. eexists _, _.
    split; [reflexivity|]. split; reflexivity.
Qed.

Lemma merge_idempotent_witness :
  exists s1 s2,
    merge [(bssid Sample.office, Sample.office)] Sample.loaded = (Return tt, s1)
    /\ merge [(bssid Sample.office, Sample.office)] s1 = (Return tt, s2)
    /\ wifi_data s2 = wifi_data s1.
Proof.
  apply (merge_idempotent Sample.loaded [(bssid Sample.office, Sample.office)]).
  unfold wf. simpl. repeat constructor; simpl; intuition discriminate.
Defined.


(** *** Start and stop *)

Lemma start_when_idle s :
  coherent s -> _running s = false ->
  exists s',
    start_continuous_scan s = (Return tt, s')
    /\ coherent s' /\ phase_of s' = Running /\ active_loops s' = 1
    /\ wifi_data s' = wifi_data s.
Proof.
  unfold coherent, start_continuous_scan, phase_of, active_loops.
  intros Hc Hr. rewrite Hr in Hc.
  unfold bind, gets, modify, create_task, logger. rewrite Hr. simpl.
  eexists. split; [reflexivity|]. simpl. rewrite Hc. simpl.
  repeat split; eauto.
Qed.

Lemma start_when_running s :
  _running s = true ->
  start_continuous_scan s = (Return tt, with_log (log s ++ [already_running]) s).
Proof.
  intros Hr. unfold start_continuous_scan, bind, gets, logger, modify.
  now rewrite Hr.
Qed.

Lemma stop_when_idle s :
  _running s = false -> stop_continuous_scan s = (Return tt, s).
Proof.
  intros Hr. unfold stop_continuous_scan, bind, gets. now rewrite Hr.
Qed.

Lemma stop_when_running s :
  coherent s -> _running s = true ->
  exists s',
    stop_continuous_scan s = (Return tt, s')
    /\ coherent s' /\ phase_of s' = Idle /\ active_loops s' = 0
    /\ wifi_data s' = wifi_data s.
Proof.
  unfold coherent, phase_of, active_loops. intros Hc Hr. rewrite Hr in Hc.
  destruct (_scan_task s) as [id|] eqn:Ht; [|contradiction].
  destruct Hc as [ran Hc].
  unfold stop_continuous_scan, bind, gets. rewrite Hr, Ht.
  unfold modify, cancel, try_except, await, logger, find_task, without_task.
  simpl. rewrite Hc. simpl. rewrite Nat.eqb_refl. simpl. rewrite Nat.eqb_refl.
  destruct ran; simpl; eexists; (split; [reflexivity|]); simpl; auto.
Qed.

(** C9.  The coordinator is Idle when it is built and moves Idle, Running,
    Idle by [start_continuous_scan] and [stop_continuous_scan].  Either call
    returns in every state; neither raises.  Starting an idle coordinator
    schedules one scan loop; starting a running one only logs a warning, so
    after two calls in a row one loop is active.  Stopping a running
    coordinator ends its loop; stopping an idle one, a new one included,
    changes nothing. *)
Theorem start_stop_lifecycle :
  (forall limit clock processes interface interval,
     coherent (init limit clock processes interface interval)
     /\ phase_of (init limit clock processes interface interval) = Idle
     /\ stop_continuous_scan (init limit clock processes interface interval)
        = (Return tt, init limit clock processes interface interval))
  /\ (forall s, coherent s -> phase_of s = Idle ->
        exists s',
          start_continuous_scan s = (Return tt, s')
          /\ coherent s' /\ phase_of s' = Running /\ active_loops s' = 1)
  /\ (forall s, coherent s -> phase_of s = Running ->
        exists s',
          start_continuous_scan s = (Return tt, s')
          /\ same_but_log s s' /\ log s' = log s ++ [already_running]
          /\ coherent s' /\ phase_of s' = Running /\ active_loops s' = 1)
  /\ (forall s, coherent s ->
        exists s1 s2,
          start_continuous_scan s = (Return tt, s1)
          /\ start_continuous_scan s1 = (Return tt, s2)
          /\ same_but_log s1 s2 /\ phase_of s2 = Running /\ active_loops s2 = 1)
  /\ (forall s, coherent s -> phase_of s = Running ->
        exists s',
          stop_continuous_scan s = (Return tt, s')
          /\ coherent s' /\ phase_of s' = Idle /\ active_loops s' = 0)
  /\ (forall s, phase_of s = Idle -> stop_continuous_scan s = (Return tt, s))
  /\ (forall s, coherent s ->
        exists s1,
          stop_continuous_scan s = (Return tt, s1)
          /\ stop_continuous_scan s1 = (Return tt, s1)
          /\ coherent s1 /\ phase_of s1 = Idle /\ active_loops s1 = 0).
Proof.
  assert (Idle_false : forall s, phase_of s = Idle -> _running s = false).
  { unfold phase_of. intros s. destruct (_running s); [discriminate|reflexivity]. }
  assert (Running_true : forall s, phase_of s = Running -> _running s = true).
  { unfold phase_of. intros s. destruct (_running s); [reflexivity|discriminate]. }
  assert (Again : forall s, coherent s -> _running s = true ->
            same_but_log s (with_log (log s ++ [already_running]) s)
            /\ coherent (with_log (log s ++ [already_running]) s)
            /\ phase_of (with_log (log s ++ [already_running]) s) = Running
            /\ active_loops (with_log (log s ++ [already_running]) s) = 1).
  { intros s Hc Hr. unfold same_but_log, coherent, phase_of, active_loops in *.
    simpl. rewrite Hr in *. split; [reflexivity|]. split; [assumption|].
    split; [reflexivity|].
    destruct (_scan_task s); [|contradiction]. destruct Hc as [ran ->]. reflexivity. }
  repeat split.
  - intros s Hc Hi. destruct (start_when_idle s Hc (Idle_false _ Hi))
      as (s' & H & H1 & H2 & H3 & _). eauto.
  - intros s Hc Hr. apply Running_true in Hr.
    exists (with_log (log s ++ [already_running]) s).
    split; [now apply start_when_running|].
    destruct (Again s Hc Hr) as (A1 & A2 & A3 & A4). auto.
  - intros s Hc. destruct (_running s) eqn:Hr.
    + exists (with_log (log s ++ [already_running]) s).
      destruct (Again s Hc Hr) as (A1 & A2 & A3 & A4).
      eexists. split; [now apply start_when_running|].
      split; [now apply start_when_running|].
      assert (Hr' : _running (with_log (log s ++ [already_running]) s) = true)
        by exact Hr.
      destruct (Again _ A2 Hr') as (B1 & _ & B3 & B4). auto.
    + destruct (start_when_idle s Hc Hr) as (s1 & H & H1 & H2 & H3 & _).
      exists s1. eexists. split; [exact H|].
      apply Running_true in H2.
      split; [now apply start_when_running|].
      destruct (Again s1 H1 H2) as (A1 & _ & A3 & A4). auto.
  - intros s Hc Hr. destruct (stop_when_running s Hc (Running_true _ Hr))
      as (s' & H & H1 & H2 & H3 & _). eauto.
  - intros s Hi. apply stop_when_idle. auto.
  - intros s Hc. destruct (_running s) eqn:Hr.
    + destruct (stop_when_running s Hc Hr) as (s' & H & H1 & H2 & H3 & _).
      exists s'. repeat split; auto. apply stop_when_idle. auto.
    + exists s. rewrite (stop_when_idle s Hr). repeat split; auto.
      * unfold phase_of. now rewrite Hr.
      * unfold coherent, active_loops in *. rewrite Hr in Hc. now rewrite Hc.
Qed.


(** Start, start, stop, stop on a new scanner: one task is created and
    ended, and the log holds the start, the warning and the stop. *)
Example start_start_stop_stop :
  let run :=
    bind start_continuous_scan (fun _ =>
    bind start_continuous_scan (fun _ =>
    bind stop_continuous_scan (fun _ => stop_continuous_scan))) in
  fst (run Sample.fresh) = Return tt
  /\ tasks (snd (run Sample.fresh)) = []
  /\ tasks_created (snd (run Sample.fresh)) = 1
  /\ _running (snd (run Sample.fresh)) = false
  /\ map levelname (log (snd (run Sample.fresh))) = [INFO; WARNING; INFO].
Proof. repeat split. Qed.

End CoordinatorFacts.

(** ** The scan commands *)

Module ScanFacts.

Import PyDict WiFiScanner Spec.

(** The scan of [WiFiScanner] recovers from every failure to execute. *)
Lemma scan_wifi_sync_recovers s :
  execution_failure (processes s (processes_run s) (scan_command (interface s))) ->
  exists record,
    _scan_wifi_sync s
    = (Return [],
       with_log (log s ++ [record]) (with_processes_run (S (processes_run s)) s))
    /\ levelname record = ERROR.
Proof.
  unfold _scan_wifi_sync, try_except, bind, gets, check_output, execution_failure.
  destruct (processes s (processes_run s) (scan_command (interface s)))
    as [[rc output|e]|]; simpl.
  - intros Hrc. apply Z.eqb_neq in Hrc. rewrite Hrc. simpl.
    eexists. split; reflexivity.
  - intros _. destruct e; simpl; eexists; split; reflexivity.
  - intros _. eexists. split; reflexivity.
Qed.

(** [scan_wifi] of wifi.py recovers from a nonzero exit status and from a
    missing binary. *)
Lemma nmcli_scan_recovers s :
  let f := Nmcli.processes s (Nmcli.processes_run s) Nmcli.nmcli_command in
  ((exists rc output, f = Exited rc output /\ rc <> 0%Z) \/ f = Failed FileNotFoundError) ->
  exists diagnostic,
    Nmcli.scan_wifi s
    = (Return [],
       Nmcli.mkState (Nmcli.int_max_str_digits s) (Nmcli.processes s)
         (S (Nmcli.processes_run s))
         (Nmcli.stdout s ++ [Nmcli.Scanning; diagnostic])).
Proof.
  intros f Hf.
  unfold Nmcli.scan_wifi, try_except, bind, Nmcli.print, modify, Nmcli.check_output.
  simpl. fold f.
  destruct Hf as [(rc & output & -> & Hrc)| ->]; simpl.
  - apply Z.eqb_neq in Hrc. rewrite Hrc. simpl.
    eexists. rewrite <- app_assoc. reflexivity.
  - eexists. rewrite <- app_assoc. reflexivity.
Qed.

(** C6, as it is worded, fails for [scan_wifi] of wifi.py: when the nmcli
    binary may not be executed, the [PermissionError] of the call is a
    failure to execute that no clause of the function names, and it leaves
    the function. *)
Lemma nmcli_permission_error_escapes :
  command_failure (Failed PermissionError)
  /\ Nmcli.processes Sample.nmcli_denied 0 Nmcli.nmcli_command = Failed PermissionError
  /\ fst (Nmcli.scan_wifi Sample.nmcli_denied) = Raise (Exception PermissionError).
Proof. repeat split. Qed.

(** C6, as the code has it.  [_scan_wifi_sync] turns every failure to execute
    the scan command -- a nonzero exit status, the timeout, a missing binary,
    any other exception of the call -- into an empty mapping and one logged
    error, and raises nothing.  [scan_wifi] of wifi.py does so for a nonzero
    exit status and for a missing binary: it returns an empty mapping and
    prints a diagnostic. *)
Theorem scan_failures_recovered :
  (forall s,
     execution_failure (processes s (processes_run s) (scan_command (interface s))) ->
     exists record s',
       _scan_wifi_sync s = (Return [], s')
       /\ log s' = log s ++ [record] /\ levelname record = ERROR
       /\ wifi_data s' = wifi_data s)
  /\ (forall s rc output,
        Nmcli.processes s (Nmcli.processes_run s) Nmcli.nmcli_command = Exited rc output ->
        rc <> 0%Z ->
        exists s',
          Nmcli.scan_wifi s = (Return [], s')
          /\ Nmcli.stdout s' = Nmcli.stdout s ++ [Nmcli.Scanning; Nmcli.CannotRun])
  /\ (forall s,
        Nmcli.processes s (Nmcli.processes_run s) Nmcli.nmcli_command
        = Failed FileNotFoundError ->
        exists s',
          Nmcli.scan_wifi s = (Return [], s')
          /\ Nmcli.stdout s' = Nmcli.stdout s ++ [Nmcli.Scanning; Nmcli.NotInstalled]).
Proof.
  repeat split.
  - intros s Hf. destruct (scan_wifi_sync_recovers s Hf) as (record & H & Hl).
    eexists record, _. split; [exact H|]. repeat split; auto.
  - intros s rc output Hf Hrc.
    unfold Nmcli.scan_wifi, try_except, bind, Nmcli.print, modify, Nmcli.check_output.
    simpl. rewrite Hf. simpl. apply Z.eqb_neq in Hrc. rewrite Hrc. simpl.
    eexists. split; [reflexivity|]. simpl. now rewrite <- app_assoc.
  - intros s Hf.
    unfold Nmcli.scan_wifi, try_except, bind, Nmcli.print, modify, Nmcli.check_output.
    simpl. rewrite Hf. simpl.
    eexists. split; [reflexivity|]. simpl. now rewrite <- app_assoc.
Qed.

(** The timeout of the scan command, on a sample. *)
Example stuck_scan_returns_nothing :
  fst (_scan_wifi_sync Sample.stuck) = Return []
  /\ map levelname (log (snd (_scan_wifi_sync Sample.stuck))) = [ERROR].
Proof. split; reflexivity. Qed.

(** A missing nmcli binary, on a sample. *)
Example missing_nmcli_returns_nothing :
  fst (Nmcli.scan_wifi Sample.nmcli_missing) = Return []
  /\ Nmcli.stdout (snd (Nmcli.scan_wifi Sample.nmcli_missing))
     = [Nmcli.Scanning; Nmcli.NotInstalled].
Proof. split; reflexivity. Qed.


(** *** What every reachable state satisfies *)

(** [_scan_wifi_sync] returns in every state, and touches neither the cache
    nor the tasks. *)
Lemma scan_wifi_sync_returns s :
  exists nets s',
    _scan_wifi_sync s = (Return nets, s')
    /\ wf nets
    /\ tasks s' = tasks s /\ _running s' = _running s
    /\ _scan_task s' = _scan_task s /\ wifi_data s' = wifi_data s.
Proof.
  unfold _scan_wifi_sync, try_except, bind, gets, check_output.
  destruct (processes s (processes_run s) (scan_command (interface s)))
    as [[rc output|e]|]; simpl.
  - destruct (rc =? 0)%Z; simpl.
    + unfold _parse_scan_results. rewrite ParserFacts.for_each_cell_run.
      eexists _, _. split; [reflexivity|].
      split; [apply DictFacts.wf_update; constructor|]. repeat split.
    + eexists _, _. split; [reflexivity|]. split; [constructor|]. repeat split.
  - destruct e; simpl; eexists _, _; (split; [reflexivity|]);
      (split; [constructor|]); repeat split.
  - eexists _, _. split; [reflexivity|]. split; [constructor|]. repeat split.
Qed.

Lemma coherent_same_tasks s s' :
  tasks s' = tasks s -> _running s' = _running s -> _scan_task s' = _scan_task s ->
  coherent s -> coherent s'.
Proof. unfold coherent. intros -> -> ->. auto. Qed.

Lemma coherent_after_turn s :
  coherent s -> coherent (snd (event_loop_turn s)).
Proof.
  unfold coherent, event_loop_turn, modify. simpl.
  destruct (_running s).
  - destruct (_scan_task s); [|auto]. intros [ran ->]. simpl. eauto.
  - intros ->. reflexivity.
Qed.

(** X11.  A new scanner has distinct keys in its cache and, idle, no live
    task; starting, stopping and a turn of the scan loop keep the keys
    distinct and the live tasks in step with the running flag (one task when
    running, none when idle), and each of them returns; the two queries
    return and leave the state as it was. *)
Theorem invariant_kept :
  (forall limit clock processes interface interval,
     invariant (init limit clock processes interface interval))
  /\ (forall s, invariant s ->
        exists s', start_continuous_scan s = (Return tt, s') /\ invariant s')
  /\ (forall s, invariant s ->
        exists s', stop_continuous_scan s = (Return tt, s') /\ invariant s')
  /\ (forall s, invariant s ->
        exists s', scan_cycle s = (Return true, s') /\ invariant s')
  /\ (forall s min_signal, invariant s ->
        exists result, get_networks min_signal s = (Return result, s))
  /\ (forall s count, invariant s ->
        exists result, get_strongest_networks count s = (Return result, s)).
Proof.
  unfold invariant.
  split; [|split; [|split; [|split; [|split]]]].
  - intros. split; [exact eq_refl|constructor].
  - intros s [Hc Hwf]. destruct (_running s) eqn:Hr.
    + rewrite (CoordinatorFacts.start_when_running s Hr). eexists. split; [reflexivity|].
      split; [|exact Hwf]. revert Hc. apply coherent_same_tasks; reflexivity.
    + destruct (CoordinatorFacts.start_when_idle s Hc Hr) as (s' & H & H1 & _ & _ & H2).
      exists s'. rewrite H2. auto.
  - intros s [Hc Hwf]. destruct (_running s) eqn:Hr.
    + destruct (CoordinatorFacts.stop_when_running s Hc Hr) as (s' & H & H1 & _ & _ & H2).
      exists s'. rewrite H2. auto.
    + rewrite (CoordinatorFacts.stop_when_idle s Hr). eauto.
  - intros s [Hc Hwf]. unfold scan_cycle, bind at 1, gets, try_except.
    unfold bind at 1, scan_wifi_once.
    destruct (scan_wifi_sync_returns s) as (nets & s1 & -> & Hn & T1 & T2 & T3 & T4).
    assert (Hc1 : coherent s1) by (revert Hc; now apply coherent_same_tasks).
    unfold bind at 1, merge.
    destruct (truthy nets).
    + unfold bind at 1 2 3, modify, logger, sleep, ret.
      eexists. split; [reflexivity|]. split.
      * apply coherent_after_turn. revert Hc1. apply coherent_same_tasks; reflexivity.
      * simpl. rewrite T4. now apply DictFacts.wf_update.
    + unfold bind at 1, modify, logger, sleep, ret.
      eexists. split; [reflexivity|]. split.
      * apply coherent_after_turn. revert Hc1. apply coherent_same_tasks; reflexivity.
      * simpl. now rewrite T4.
  - intros s min_signal _. unfold get_networks, bind, gets, ret. eauto.
  - intros s count _. unfold get_strongest_networks, bind, gets, ret. eauto.
Qed.

End ScanFacts.

(** ** More on the parser *)

Module ParserCover.

Import Re ReFacts PyDict WiFiScanner Spec Cover.

Lemma parsed_records_in limit clock cells :
  forall n k info,
    In (k, info) (parsed_records limit clock n cells) ->
    exists cell t,
      In cell cells /\ record_of limit cell t = Return (Some info) /\ k = bssid info.
Proof.
  induction cells as [|cell cells IH]; intros n k info; simpl; [tauto|].
  destruct (record_of limit cell (clock n)) as [[i|]|e] eqn:E.
  - intros [H|H].
    + inversion H; subst. exists cell, (clock n). auto.
    + destruct (IH _ _ _ H) as (c & t & Hc & Hr & Hk). exists c, t. auto.
  - intros H. destruct (IH _ _ _ H) as (c & t & Hc & Hr & Hk). exists c, t. auto.
  - intros H. destruct (IH _ _ _ H) as (c & t & Hc & Hr & Hk). exists c, t. auto.
Qed.

(** X2.  In the mapping [_parse_scan_results] returns, every record stands
    under its own [bssid], and that key is the identifier of a block of the
    text: seventeen characters, each a hexadecimal digit or a colon. *)
Theorem result_keys_are_identifiers scan_output s :
  exists nets s',
    _parse_scan_results scan_output s = (Return nets, s')
    /\ forall k info,
         get k nets = Some info ->
         bssid info = k /\ mac_shaped k
         /\ exists cell, In cell (cells_of scan_output) /\ identifier cell = Some k.
Proof.
  unfold _parse_scan_results. rewrite ParserFacts.for_each_cell_run.
  eexists _, _. split; [reflexivity|].
  intros k info H. rewrite DictFacts.get_update in H. simpl in H.
  destruct (get k (rev (parsed_records (int_max_str_digits s) (clock s)
                          (clock_reads s) (cells_of scan_output)))) as [v|] eqn:E;
    [|discriminate].
  inversion H; subst v; clear H.
  apply DictFacts.get_some_in in E. apply in_rev in E.
  apply parsed_records_in in E as (cell & t & Hc & Hr & ->).
  apply ParserFacts.record_of_bssid in Hr.
  split; [reflexivity|]. split.
  - apply (ParserFacts.identifier_shape cell). assumption.
  - eauto.
Qed.


(** *** Reading the signal *)

Lemma search_unfold p s :
  search p s =
  match match_here p s with
  | Some f => Some (mkMatch s f)
  | None => match s with [] => None | _ :: s' => search p s' end
  end.
Proof. destruct s; reflexivity. Qed.

(** [re.search] stops at the first position where the pattern matches. *)
Lemma search_first p pre follow f :
  quiet p pre follow -> match_here p follow = Some f ->
  search p (pre ++ follow) = Some (mkMatch follow f).
Proof.
  induction pre as [|c pre IH]; intros Hq Hm.
  - simpl. now rewrite search_unfold, Hm.
  - change ((c :: pre) ++ follow) with (c :: (pre ++ follow)).
    rewrite search_unfold.
    assert (Hnone : match_here p (c :: pre ++ follow) = None).
    { apply (Hq [] (c :: pre) eq_refl). discriminate. }
    rewrite Hnone. apply IH; [|assumption].
    intros a b E Hb. apply (Hq (c :: a) b); [now rewrite E|assumption].
Qed.

Lemma match_here_literal (w : str) p s :
  match_here (map (fun c => Chars (chr c) Once) w ++ p) (w ++ s) = match_here p s.
Proof.
  induction w as [|c w IH]; [reflexivity|].
  simpl. unfold once, chr at 1. now rewrite Ascii.eqb_refl.
Qed.

Lemma greedy_takes_all cls k a follow :
  all_in cls a ->
  (forall c r, follow = c :: r -> cls c = false) ->
  (forall x, k x <> None) ->
  greedy cls k (a ++ follow) = k follow.
Proof.
  intros Ha Hf Hk. induction Ha as [|c a Hc _ IH]; simpl.
  - destruct follow as [|c r]; [reflexivity|].
    simpl. now rewrite (Hf c r eq_refl).
  - rewrite Hc, IH. destruct (k follow) eqn:E; [reflexivity|].
    exfalso. exact (Hk follow E).
Qed.

Lemma digit_not_minus d : digit d = true -> Ascii.eqb "-"%char d = false.
Proof.
  intros H. destruct (Ascii.eqb "-"%char d) eqn:E; [|reflexivity].
  apply Ascii.eqb_eq in E. subst d. discriminate.
Qed.

(** The signal pattern on a label, a sign, digits, and something that is
    not a digit: the group is the sign and the digits. *)
Lemma signal_match sign digits follow :
  (sign = [] \/ sign = ["-"%char]) ->
  digits <> [] -> all_in digit digits ->
  (forall c r, follow = c :: r -> digit c = false) ->
  match_here signal_re (text "Signal level=" ++ sign ++ digits ++ follow)
  = Some (mkFound follow (Some (sign ++ digits ++ follow)) (Some follow)).
Proof.
  intros Hsign Hne Hds Hf.
  unfold signal_re, lit. rewrite match_here_literal.
  assert (K : match_here [Chars digit OneOrMore; GroupEnd] (digits ++ follow)
              = Some (mkFound follow None (Some follow))).
  { destruct digits as [|d ds]; [congruence|]. inversion Hds; subst.
    simpl. unfold at_least_one. rewrite H1.
    rewrite greedy_takes_all; auto. discriminate. }
  change (match_here [GroupStart; Chars (chr "-") Optional;
                      Chars digit OneOrMore; GroupEnd] (sign ++ digits ++ follow))
    with (option_map (opened (sign ++ digits ++ follow))
            (optional (chr "-") (match_here [Chars digit OneOrMore; GroupEnd])
               (sign ++ digits ++ follow))).
  destruct Hsign as [->| ->].
  - simpl app. destruct digits as [|d ds]; [congruence|].
    unfold optional. simpl app. inversion Hds; subst.
    unfold chr at 1. rewrite (digit_not_minus d H1).
    change (d :: ds ++ follow) with ((d :: ds) ++ follow). now rewrite K.
  - simpl app. unfold optional. unfold chr at 1. rewrite Ascii.eqb_refl.
    now rewrite K.
Qed.


Lemma digit_not_space d : digit d = true -> isspace d = false.
Proof.
  destruct d as [[] [] [] [] [] [] [] []]; intros H; try discriminate H; reflexivity.
Qed.

Lemma int_body_keeps x : Forall (fun c => isspace c = false) x -> int_body x = x.
Proof.
  intros H.
  assert (L : forall y, Forall (fun c => isspace c = false) y -> skip_spaces y = y).
  { intros y Hy. destruct Hy as [|c y Hc _]; [reflexivity|].
    simpl. unfold int_space. now rewrite Hc. }
  unfold int_body. rewrite (L x H), L.
  - apply rev_involutive.
  - apply Forall_rev. assumption.
Qed.

Lemma literal_digits_all ds :
  all_in digit ds ->
  forall b,
    literal_digits b ds =
    match ds with
    | [] => if b then Some [] else None
    | _ => Some ds
    end.
Proof.
  induction 1 as [|d ds Hd _ IH]; intros b; [reflexivity|].
  simpl. rewrite Hd, (IH true). destruct ds; reflexivity.
Qed.

(** [int] on a sign and digits. *)
Lemma int_signed limit sign digits :
  (sign = [] \/ sign = ["-"%char]) ->
  digits <> [] -> all_in digit digits ->
  fst (@int unit limit (sign ++ digits) tt) =
  if (0 <? limit) && (limit <? length digits)
  then Raise (Exception ValueError)
  else Return (signed sign digits).
Proof.
  intros Hsign Hne Hds.
  assert (Hclean : Forall (fun c => isspace c = false) (sign ++ digits)).
  { apply Forall_app. split.
    - destruct Hsign as [->| ->]; repeat constructor.
    - unfold all_in in Hds. rewrite Forall_forall in *. intros c Hc.
      apply digit_not_space. auto. }
  unfold int. rewrite (int_body_keeps _ Hclean).
  destruct Hsign as [->| ->].
  - change ([] ++ digits) with digits.
    destruct digits as [|d ds]; [congruence|].
    assert (Hd : digit d = true) by (inversion Hds; assumption).
    assert (E1 : Ascii.eqb d "-"%char = false).
    { rewrite Ascii.eqb_sym. now apply digit_not_minus. }
    assert (E2 : Ascii.eqb d "+"%char = false).
    { destruct (Ascii.eqb d "+"%char) eqn:E; [|reflexivity].
      apply Ascii.eqb_eq in E. subst d. discriminate. }
    cbv beta iota. rewrite E1, E2. rewrite (literal_digits_all _ Hds).
    destruct ((0 <? limit) && (limit <? length (d :: ds))); reflexivity.
  - change (["-"%char] ++ digits) with ("-"%char :: digits).
    cbv beta iota. rewrite Ascii.eqb_refl. rewrite (literal_digits_all _ Hds).
    destruct digits as [|d ds]; [congruence|].
    destruct ((0 <? limit) && (limit <? length (d :: ds))); reflexivity.
Qed.

(** Before the first readable label the signal pattern matches nowhere. *)
Lemma signal_quiet pre tail :
  ~ signal_readable (pre ++ text "Signal level") ->
  quiet signal_re pre (text "Signal level=" ++ tail).
Proof.
  intros Hn a b Epre Hb.
  destruct (match_here signal_re (b ++ text "Signal level=" ++ tail)) as [f|] eqn:E;
    [exfalso|reflexivity].
  apply match_here_sound in E as (m & Em & Hm).
  apply ParserFacts.lang_signal in Hm as (sg & ds & -> & Hsg & Hne & Hds).
  assert (Hint : forall l, starts_with_integer (sg ++ ds ++ l)).
  { intros l. destruct ds as [|d ds]; [congruence|]. inversion Hds; subst.
    exists d, (ds ++ l). split; [assumption|].
    destruct Hsg as [->| ->]; simpl; auto. }
  assert (Hprefix : forall l, b ++ text "Signal level"
                              = (text "Signal level=" ++ sg ++ ds) ++ l -> False).
  { intros l Hl. apply Hn. exists a, (sg ++ ds ++ l). split; [|apply Hint].
    rewrite Epre, <- app_assoc, Hl. now rewrite <- !app_assoc. }
  change (text "Signal level=" ++ tail)
    with (text "Signal level" ++ "="%char :: tail) in Em.
  rewrite app_assoc in Em.
  apply app_eq_app in Em as [l [[H1 H2]|[H1 H2]]].
  - exact (Hprefix l H1).
  - destruct l as [|c l].
    + rewrite app_nil_r in H1. apply (Hprefix []). now rewrite app_nil_r.
    + simpl in H2. injection H2 as Hc H2. subst c.
      apply app_eq_app in H1 as [l2 [[G1 G2]|[G1 G2]]].
      * assert (Hlen : length (text "Signal level=")
                       = length ((b ++ text "Signal level") ++ l2)) by now rewrite <- G1.
        rewrite !length_app in Hlen. simpl in Hlen.
        destruct b as [|c0 [|c1 b]]; [congruence| |simpl in Hlen; lia].
        destruct l2; [|simpl in Hlen; lia].
        rewrite app_nil_r in G1. simpl in G1. discriminate G1.
      * assert (Hin : In "="%char (sg ++ ds)).
        { rewrite G2. apply in_or_app. right. simpl. auto. }
        apply in_app_or in Hin as [Hin|Hin].
        -- destruct Hsg as [->| ->]; simpl in Hin; [tauto|].
           destruct Hin as [Hin|[]]. discriminate Hin.
        -- unfold all_in in Hds. rewrite Forall_forall in Hds.
           specialize (Hds _ Hin). discriminate Hds.
Qed.

(** What [signal_of] reads at the first readable label. *)
Lemma signal_of_first limit pre sign digits follow :
  ~ signal_readable (pre ++ text "Signal level") ->
  (sign = [] \/ sign = ["-"%char]) ->
  digits <> [] -> all_in digit digits ->
  (forall c r, follow = c :: r -> digit c = false) ->
  signal_of limit (pre ++ text "Signal level=" ++ sign ++ digits ++ follow) =
  if (0 <? limit) && (limit <? length digits)
  then Raise (Exception ValueError)
  else Return (signed sign digits).
Proof.
  intros Hq Hsign Hne Hds Hf. unfold signal_of.
  rewrite (search_first signal_re pre _ _ (signal_quiet pre _ Hq)
             (signal_match sign digits follow Hsign Hne Hds Hf)).
  unfold group1. simpl hit. simpl group_open. simpl group_close.
  rewrite app_assoc, between_app.
  now apply int_signed.
Qed.

(** X3.  In a block with an identifier, the signed integer that follows the
    first readable signal label -- all of its digits -- is the signal
    strength of the record, as long as [int] takes a number of that many
    digits. *)
Theorem signal_is_read cell s pre sign digits follow :
  has_identifier cell ->
  cell = pre ++ text "Signal level=" ++ sign ++ digits ++ follow ->
  ~ signal_readable (pre ++ text "Signal level") ->
  (sign = [] \/ sign = ["-"%char]) ->
  digits <> [] -> all_in digit digits ->
  (forall c r, follow = c :: r -> digit c = false) ->
  (int_max_str_digits s = 0 \/ length digits <= int_max_str_digits s) ->
  exists info s',
    _parse_cell cell s = (Return (Some info), s')
    /\ signal_strength info = signed sign digits.
Proof.
  intros Hid -> Hq Hsign Hne Hds Hf Hlimit.
  apply ParserFacts.well_formed_identifier in Hid.
  unfold well_formed, found_in in Hid.
  rewrite ParserFacts.parse_cell_run. unfold record_of.
  destruct (search bssid_re _) as [bm|]; [|discriminate].
  rewrite (signal_of_first _ pre sign digits follow Hq Hsign Hne Hds Hf).
  assert (Hok : (0 <? int_max_str_digits s) && (int_max_str_digits s <? length digits)
                = false).
  { destruct Hlimit as [->|Hle]; [reflexivity|].
    apply andb_false_iff. right. apply Nat.ltb_ge. assumption. }
  rewrite Hok. eexists _, _. split; reflexivity.
Qed.

(** X4.  When the number after the first readable signal label has more
    digits than the interpreter's limit for [int], [_parse_cell] raises
    [ValueError] and leaves the state as it was. *)
Theorem long_signal_raises cell s pre sign digits follow :
  has_identifier cell ->
  cell = pre ++ text "Signal level=" ++ sign ++ digits ++ follow ->
  ~ signal_readable (pre ++ text "Signal level") ->
  (sign = [] \/ sign = ["-"%char]) ->
  all_in digit digits ->
  (forall c r, follow = c :: r -> digit c = false) ->
  0 < int_max_str_digits s < length digits ->
  _parse_cell cell s = (Raise (Exception ValueError), s).
Proof.
  intros Hid -> Hq Hsign Hds Hf [Hpos Hlong].
  assert (Hne : digits <> []) by (intros ->; simpl in Hlong; lia).
  apply ParserFacts.well_formed_identifier in Hid.
  unfold well_formed, found_in in Hid.
  rewrite ParserFacts.parse_cell_run. unfold record_of.
  destruct (search bssid_re _) as [bm|]; [|discriminate].
  rewrite (signal_of_first _ pre sign digits follow Hq Hsign Hne Hds Hf).
  assert (Hbad : (0 <? int_max_str_digits s) && (int_max_str_digits s <? length digits)
                 = true).
  { apply andb_true_iff. split; [now apply Nat.ltb_lt|now apply Nat.ltb_lt]. }
  now rewrite Hbad.
Qed.


Lemma signal_is_read_witness :
  exists info s',
    _parse_cell Sample.block_home Sample.fresh = (Return (Some info), s')
    /\ signal_strength info = signed ["-"%char] (text "40").
Proof.
  apply (signal_is_read Sample.block_home Sample.fresh Sample.home_before_signal
           ["-"%char] (text "40") Sample.home_after_signal).
  - apply ParserFacts.well_formed_identifier. vm_compute. reflexivity.
  - vm_compute. reflexivity.
  - apply ParserFacts.signal_not_found. vm_compute. reflexivity.
  - right. reflexivity.
  - discriminate.
  - repeat constructor.
  - intros c r H. vm_compute in H. injection H as <- _. reflexivity.
  - right. simpl. lia.
Defined.

Lemma long_signal_raises_witness :
  _parse_cell Sample.block_overlong Sample.strict
  = (Raise (Exception ValueError), Sample.strict).
Proof.
  apply (long_signal_raises Sample.block_overlong Sample.strict
           Sample.overlong_before_signal ["-"%char] Sample.nines (Sample.line " dBm")).
  - apply ParserFacts.well_formed_identifier. vm_compute. reflexivity.
  - reflexivity.
  - apply ParserFacts.signal_not_found. vm_compute. reflexivity.
  - right. reflexivity.
  - apply Forall_forall. intros c H. apply repeat_spec in H. subst c. reflexivity.
  - intros c r H. vm_compute in H. injection H as <- _. reflexivity.
  - change (0 < 640 < length Sample.nines).
    unfold Sample.nines. rewrite repeat_length. lia.
Defined.


(** *** The name and the frequency *)

(** The group of a match, with what stands around it. *)
Lemma group_captured_in before g after s f start :
  groupless before = true -> groupless g = true ->
  match_here (before ++ GroupStart :: g ++ GroupEnd :: after) s = Some f ->
  exists a c,
    lang before a /\ lang g (group1 (mkMatch start f)) /\ lang after c
    /\ s = a ++ group1 (mkMatch start f) ++ c ++ rest f.
Proof.
  intros Hb Hg H.
  apply match_here_split in H as (a & b & -> & Ha & H); [|assumption].
  simpl in H.
  destruct (match_here (g ++ GroupEnd :: after) b) as [f1|] eqn:H1; [|discriminate].
  inversion H; subst f; clear H.
  apply match_here_split in H1 as (m & c0 & -> & Hm & H1); [|assumption].
  simpl in H1.
  destruct (match_here after c0) as [f2|] eqn:H2; [|discriminate].
  inversion H1; subst f1; clear H1.
  apply match_here_sound in H2 as (c & -> & Hc).
  exists a, c. unfold group1. simpl.
  rewrite between_app. auto.
Qed.

Lemma search_group p cell mo :
  search p cell = Some mo ->
  exists pre, cell = pre ++ from mo /\ match_here p (from mo) = Some (hit mo)
              /\ mo = mkMatch (from mo) (hit mo).
Proof.
  intros H. apply search_finds in H as (pre & H1 & H2).
  exists pre. destruct mo. auto.
Qed.

Lemma all_in_none_of c a : all_in (none_of (chr c)) a <-> ~ In c a.
Proof.
  unfold all_in, none_of, chr. rewrite Forall_forall. split.
  - intros H Hin. specialize (H _ Hin). now rewrite Ascii.eqb_refl in H.
  - intros H x Hx. destruct (Ascii.eqb c x) eqn:E; [|reflexivity].
    apply Ascii.eqb_eq in E. subst. contradiction.
Qed.

(** A text up to its first quote. *)
Lemma up_to_quote (name : str) :
  exists n1 n2, ~ In quote n1 /\ name ++ [quote] = n1 ++ quote :: n2.
Proof.
  induction name as [|c name (n1 & n2 & Hn & E)].
  - exists [], []. simpl. tauto.
  - destruct (Ascii.eqb quote c) eqn:Ec.
    + apply Ascii.eqb_eq in Ec. subst c. exists [], (name ++ [quote]). simpl. tauto.
    + exists (c :: n1), n2. split.
      * intros [H|H]; [subst; now rewrite Ascii.eqb_refl in Ec|contradiction].
      * simpl. now rewrite E.
Qed.

Lemma essid_re_shape :
  essid_re
  = (lit "ESSID:" ++ [Chars (chr quote) Once])
    ++ GroupStart :: [Chars (none_of (chr quote)) ZeroOrMore]
    ++ GroupEnd :: [Chars (chr quote) Once].
Proof. reflexivity. Qed.

Lemma lang_quote m : lang [Chars (chr quote) Once] m <-> m = [quote].
Proof.
  simpl. split.
  - intros (a & b & -> & Ha & Hl & ->). rewrite app_nil_r. now apply all_in_chr.
  - intros ->. exists [quote], []. repeat split. constructor; [reflexivity|constructor].
Qed.

Lemma essid_found cell : found_in essid_re cell = true <-> essid_field cell.
Proof.
  rewrite ParserFacts.found_in_occurs. unfold occurs, essid_field. split.
  - intros (pre & m & post & -> & Hm).
    destruct (match_here_complete essid_re m [] Hm) as [f Hf].
    rewrite essid_re_shape in Hf.
    apply (group_captured_in _ _ _ _ _ []) in Hf as (a & c & Ha & Hg & Hc & E);
      [|reflexivity|reflexivity].
    apply lang_app in Ha as (a1 & a2 & -> & Ha1 & Ha2).
    apply lang_lit in Ha1. apply lang_quote in Ha2, Hc. subst a1 a2 c.
    exists pre, (group1 (mkMatch [] f)), (rest f ++ post).
    rewrite app_nil_r in E.
    assert (Em : m ++ post = (text "ESSID:" ++ [quote]
                              ++ group1 (mkMatch [] f) ++ [quote] ++ rest f) ++ post).
    { rewrite <- (app_nil_r m) at 1. rewrite E, app_nil_r.
      now rewrite <- !app_assoc. }
    rewrite Em. now rewrite <- !app_assoc.
  - intros (pre & name & post & ->).
    destruct (up_to_quote name) as (n1 & n2 & Hn & E).
    exists pre, (text "ESSID:" ++ [quote] ++ n1 ++ [quote]), (n2 ++ post). split.
    + rewrite <- !app_assoc. do 3 f_equal.
      rewrite !app_assoc, E. rewrite <- !app_assoc. reflexivity.
    + rewrite essid_re_shape. apply lang_app.
      exists (text "ESSID:" ++ [quote]), (n1 ++ [quote]). split; [now rewrite <- !app_assoc|].
      split.
      * apply lang_app. exists (text "ESSID:"), [quote].
        split; [reflexivity|]. split; [now apply lang_lit|now apply lang_quote].
      * simpl. exists n1, [quote]. split; [reflexivity|].
        split; [now apply all_in_none_of|]. split; [exact I|].
        exists [quote], []. repeat split. constructor; [reflexivity|constructor].
Qed.


Lemma parsed_fields cell s info s' :
  _parse_cell cell s = (Return (Some info), s') ->
  essid info = option_map group1 (search essid_re cell)
  /\ frequency info
     = option_map (fun f => group1 f ++ text " GHz") (search frequency_re cell).
Proof.
  intros H. rewrite ParserFacts.parse_cell_run in H. unfold record_of in H.
  destruct (search bssid_re cell) as [bm|]; [|discriminate].
  destruct (signal_of (int_max_str_digits s) cell) as [signal|e]; [|discriminate].
  inversion H; subst. split; reflexivity.
Qed.

(** X5.  The record of a block has no network name exactly when the block
    has no quoted text after the ESSID label; a name it has holds no quote
    and stands in the block between quotes after the label. *)
Theorem essid_is_read cell s info s' :
  _parse_cell cell s = (Return (Some info), s') ->
  (essid info = None <-> ~ essid_field cell)
  /\ (forall name,
        essid info = Some name ->
        ~ In quote name
        /\ substring (text "ESSID:" ++ [quote] ++ name ++ [quote]) cell).
Proof.
  intros H. apply parsed_fields in H as [He _]. rewrite He. split.
  - rewrite <- essid_found. unfold found_in.
    destruct (search essid_re cell) as [mo|]; simpl; split; intros H;
      try discriminate H; try reflexivity.
    + exfalso. apply H. reflexivity.
    + discriminate.
  - intros name Hn.
    destruct (search essid_re cell) as [mo|] eqn:E; [|discriminate].
    simpl in Hn. inversion Hn; subst name; clear Hn.
    apply search_group in E as (pre & Hcell & Hm & Hmo).
    rewrite essid_re_shape in Hm.
    apply (group_captured_in _ _ _ _ _ (from mo)) in Hm as (a & c & Ha & Hg & Hc & E);
      [|reflexivity|reflexivity].
    rewrite <- Hmo in Hg, E.
    apply lang_app in Ha as (a1 & a2 & -> & Ha1 & Ha2).
    apply lang_lit in Ha1. apply lang_quote in Ha2, Hc. subst a1 a2 c.
    split.
    + apply all_in_none_of. simpl in Hg.
      destruct Hg as (x & y & Hxy & Hx & _ & ->). rewrite app_nil_r in Hxy.
      now rewrite Hxy.
    + exists pre, (rest (hit mo)). rewrite Hcell, E. now rewrite <- !app_assoc.
Qed.

Lemma essid_is_read_witness :
  (essid Sample.home_first = None <-> ~ essid_field Sample.block_home)
  /\ (forall name,
        essid Sample.home_first = Some name ->
        ~ In quote name
        /\ substring (text "ESSID:" ++ [quote] ++ name ++ [quote]) Sample.block_home).
Proof.
  apply (essid_is_read Sample.block_home Sample.fresh Sample.home_first
           (with_clock_reads 1 Sample.fresh)).
  vm_compute. reflexivity.
Defined.

Lemma frequency_re_shape :
  frequency_re
  = lit "Frequency:"
    ++ GroupStart :: [Chars frequency_char OneOrMore] ++ GroupEnd :: lit " GHz".
Proof. reflexivity. Qed.

Lemma lang_frequency_number m :
  lang [Chars frequency_char OneOrMore] m <->
  m <> [] /\ Forall (fun c => frequency_char c = true) m.
Proof.
  simpl. split.
  - intros (a & b & -> & Ha & Hl & ->). rewrite app_nil_r. split; [|exact Ha].
    intros ->. simpl in Hl. lia.
  - intros [Hne Hm]. exists m, []. rewrite app_nil_r. repeat split; auto.
    destruct m; [congruence|simpl; lia].
Qed.

Lemma frequency_found cell :
  found_in frequency_re cell = true <-> frequency_field cell.
Proof.
  rewrite ParserFacts.found_in_occurs. unfold occurs, frequency_field. split.
  - intros (pre & m & post & -> & Hm).
    rewrite frequency_re_shape in Hm.
    apply lang_app in Hm as (a & b & -> & Ha & Hb). apply lang_lit in Ha. subst a.
    simpl in Hb. destruct Hb as (number & c & -> & Hn & Hl & Hc).
    apply (lang_lit " GHz") in Hc. subst c.
    exists pre, number, post. split; [now rewrite <- !app_assoc|]. split; [|exact Hn].
    intros ->. simpl in Hl. lia.
  - intros (pre & number & post & -> & Hne & Hn).
    exists pre, (text "Frequency:" ++ number ++ text " GHz"), post. split.
    + now rewrite <- !app_assoc.
    + rewrite frequency_re_shape. apply lang_app.
      exists (text "Frequency:"), (number ++ text " GHz").
      split; [reflexivity|]. split; [now apply lang_lit|].
      simpl. exists number, (text " GHz"). repeat split; auto.
      * destruct number; [congruence|simpl; lia].
      * now apply (lang_lit " GHz").
Qed.

(** X6.  The record of a block has no frequency exactly when the block has
    no number before the unit GHz after the frequency label; a frequency it
    has is such a number of the block, a run of digits and points, with the
    unit after it. *)
Theorem frequency_is_read cell s info s' :
  _parse_cell cell s = (Return (Some info), s') ->
  (frequency info = None <-> ~ frequency_field cell)
  /\ (forall f,
        frequency info = Some f ->
        exists number,
          f = number ++ text " GHz"
          /\ number <> [] /\ Forall (fun c => frequency_char c = true) number
          /\ substring (text "Frequency:" ++ f) cell).
Proof.
  intros H. apply parsed_fields in H as [_ Hf]. rewrite Hf. split.
  - rewrite <- frequency_found. unfold found_in.
    destruct (search frequency_re cell) as [mo|]; simpl; split; intros H;
      try discriminate H; try reflexivity.
    + exfalso. apply H. reflexivity.
    + discriminate.
  - intros f Hn.
    destruct (search frequency_re cell) as [mo|] eqn:E; [|discriminate].
    simpl in Hn. inversion Hn; subst f; clear Hn.
    apply search_group in E as (pre & Hcell & Hm & Hmo).
    rewrite frequency_re_shape in Hm.
    apply (group_captured_in _ _ _ _ _ (from mo)) in Hm as (a & c & Ha & Hg & Hc & E);
      [|reflexivity|reflexivity].
    rewrite <- Hmo in Hg, E.
    apply lang_lit in Ha. apply (lang_lit " GHz") in Hc. subst a c.
    apply lang_frequency_number in Hg as [Hne Hall].
    exists (group1 mo). repeat split; auto.
    exists pre, (rest (hit mo)). rewrite Hcell, E. now rewrite <- !app_assoc.
Qed.

Lemma frequency_is_read_witness :
  (frequency Sample.home_first = None <-> ~ frequency_field Sample.block_home)
  /\ (forall f,
        frequency Sample.home_first = Some f ->
        exists number,
          f = number ++ text " GHz"
          /\ number <> [] /\ Forall (fun c => frequency_char c = true) number
          /\ substring (text "Frequency:" ++ f) Sample.block_home).
Proof.
  apply (frequency_is_read Sample.block_home Sample.fresh Sample.home_first
           (with_clock_reads 1 Sample.fresh)).
  vm_compute. reflexivity.
Defined.

End ParserCover.

(** ** More on the coordinator *)

Module CoordinatorCover.

Import PyDict WiFiScanner Spec Cover Cover2.

Lemma get_rev {V} (d : dict V) k : wf d -> get k (rev d) = get k d.
Proof.
  intros Hwf. destruct (get k d) as [v|] eqn:E.
  - apply DictFacts.in_get.
    + unfold wf, keys in *. rewrite map_rev. now apply NoDup_rev.
    + apply in_rev. rewrite rev_involutive. now apply DictFacts.get_some_in.
  - apply DictFacts.get_none. apply DictFacts.get_none in E.
    unfold keys in *. rewrite map_rev, <- in_rev. assumption.
Qed.

(** What the merge does to the cache. *)
Lemma update_lookup (cache results : networks) :
  wf results ->
  (forall k,
     get k (update cache (items results)) =
     match get k results with
     | Some v => Some v
     | None => get k cache
     end)
  /\ exists added,
       keys (update cache (items results)) = keys cache ++ added
       /\ forall k, In k added <-> In k (keys results) /\ ~ In k (keys cache).
Proof.
  intros Hwf. unfold items. split.
  - intros k. rewrite DictFacts.get_update. now rewrite get_rev.
  - exists (first_occurrences (keys cache) (keys results)). split.
    + apply ParserFacts.keys_update_first. tauto.
    + intros k. apply ParserFacts.first_occurrences_in.
Qed.

(** The merge step on the state. *)
Lemma merge_run s scan_results :
  wf scan_results ->
  exists s',
    merge scan_results s = (Return tt, s')
    /\ processes_run s' = processes_run s /\ _running s' = _running s
    /\ (forall k,
          get k (wifi_data s') =
          match get k scan_results with
          | Some v => Some v
          | None => get k (wifi_data s)
          end)
    /\ exists added,
         keys (wifi_data s') = keys (wifi_data s) ++ added
         /\ forall k, In k added <-> In k (keys scan_results) /\ ~ In k (keys (wifi_data s)).
Proof.
  intros Hwf. unfold merge. destruct scan_results as [|item more] eqn:E.
  - simpl. unfold logger, modify. eexists. split; [reflexivity|]. simpl.
    repeat split. exists []. rewrite app_nil_r. split; [reflexivity|].
    simpl. tauto.
  - rewrite <- E in *. assert (T : truthy scan_results = true) by now rewrite E.
    rewrite T. unfold bind, modify, logger. eexists. split; [reflexivity|]. simpl.
    split; [reflexivity|]. split; [reflexivity|].
    apply update_lookup. assumption.
Qed.

(** X7.  The merge of a scan result overwrites by identifier: afterwards a
    key of the result holds the record of the result, every other key holds
    what it held, the keys of the cache keep their places, and the new keys
    come after them. *)
Theorem merge_overwrites s scan_results :
  wf scan_results ->
  exists s',
    merge scan_results s = (Return tt, s')
    /\ (forall k,
          get k (wifi_data s') =
          match get k scan_results with
          | Some v => Some v
          | None => get k (wifi_data s)
          end)
    /\ exists added,
         keys (wifi_data s') = keys (wifi_data s) ++ added
         /\ forall k, In k added <-> In k (keys scan_results) /\ ~ In k (keys (wifi_data s)).
Proof.
  intros Hwf.
  destruct (merge_run s scan_results Hwf) as (s' & H & _ & _ & Hg & Hk).
  exists s'. auto.
Qed.

Lemma merge_overwrites_witness :
  exists s',
    merge [(bssid Sample.faint, Sample.faint)] Sample.loaded = (Return tt, s')
    /\ (forall k,
          get k (wifi_data s') =
          match get k [(bssid Sample.faint, Sample.faint)] with
          | Some v => Some v
          | None => get k (wifi_data Sample.loaded)
          end)
    /\ exists added,
         keys (wifi_data s') = keys (wifi_data Sample.loaded) ++ added
         /\ forall k, In k added <->
                      In k (keys [(bssid Sample.faint, Sample.faint)])
                      /\ ~ In k (keys (wifi_data Sample.loaded)).
Proof.
  apply (merge_overwrites Sample.loaded [(bssid Sample.faint, Sample.faint)]).
  unfold wf. simpl. repeat constructor. simpl. tauto.
Defined.


(** *** The scan loop *)

Lemma scan_wifi_sync_effect s :
  exists nets s1,
    _scan_wifi_sync s = (Return nets, s1)
    /\ wf nets
    /\ processes_run s1 = S (processes_run s)
    /\ _running s1 = _running s
    /\ wifi_data s1 = wifi_data s.
Proof.
  unfold _scan_wifi_sync, try_except, bind, gets, check_output.
  destruct (processes s (processes_run s) (scan_command (interface s)))
    as [[rc output|e]|]; simpl.
  - destruct (rc =? 0)%Z; simpl.
    + unfold _parse_scan_results. rewrite ParserFacts.for_each_cell_run.
      eexists _, _. split; [reflexivity|].
      split; [apply DictFacts.wf_update; constructor|]. repeat split.
    + eexists _, _. split; [reflexivity|]. split; [constructor|]. repeat split.
  - destruct e; simpl; eexists _, _; (split; [reflexivity|]);
      (split; [constructor|]); repeat split.
  - eexists _, _. split; [reflexivity|]. split; [constructor|]. repeat split.
Qed.

(** One cycle: it goes on, runs the scan command once, and removes no key. *)
Lemma scan_cycle_effect s :
  exists s',
    scan_cycle s = (Return true, s')
    /\ processes_run s' = S (processes_run s)
    /\ _running s' = _running s
    /\ exists added, keys (wifi_data s') = keys (wifi_data s) ++ added.
Proof.
  unfold scan_cycle, bind at 1, gets, try_except.
  unfold bind at 1, scan_wifi_once.
  destruct (scan_wifi_sync_effect s) as (nets & s1 & -> & Hn & P & R & W).
  destruct (merge_run s1 nets Hn) as (s2 & Hm & P2 & R2 & _ & added & Hk & _).
  unfold bind at 1. rewrite Hm.
  unfold bind, sleep, event_loop_turn, modify, ret. simpl.
  eexists. split; [reflexivity|]. simpl.
  rewrite P2, R2, P, R, Hk, W. eauto.
Qed.


(** X8.  [_scan_loop] never raises.  While the scanner is running, every
    turn of the loop runs the scan command exactly once, whatever its
    outcome; a scanner that is not running runs no command.  No key ever
    leaves the cache: the keys it had stay where they were. *)
Theorem scan_loop_runs cycles :
  forall s,
  exists s',
    _scan_loop cycles s = (Return tt, s')
    /\ processes_run s' = processes_run s + (if _running s then cycles else 0)
    /\ exists added, keys (wifi_data s') = keys (wifi_data s) ++ added.
Proof.
  induction cycles as [|cycles IH]; intros s.
  - exists s. split; [reflexivity|]. split.
    + destruct (_running s); lia.
    + exists []. now rewrite app_nil_r.
  - simpl _scan_loop. unfold bind at 1, gets.
    destruct (_running s) eqn:R.
    + destruct (scan_cycle_effect s) as (s1 & Hc & P1 & R1 & added1 & K1).
      unfold bind at 1. rewrite Hc.
      destruct (IH s1) as (s2 & H2 & P2 & added2 & K2).
      exists s2. split; [exact H2|]. split.
      * rewrite P2, P1, R1, R. lia.
      * exists (added1 ++ added2). rewrite K2, K1. now rewrite app_assoc.
    + exists s. split; [reflexivity|]. split; [lia|].
      exists []. now rewrite app_nil_r.
Qed.

(** X9.  A cycle whose scan command fails to execute logs the error of the
    scan and the warning of a scan without results, leaves the cache as it
    was, and lets the loop go on. *)
Theorem failed_cycle_keeps_cache s :
  execution_failure (processes s (processes_run s) (scan_command (interface s))) ->
  exists error s',
    scan_cycle s = (Return true, s')
    /\ wifi_data s' = wifi_data s
    /\ log s' = log s ++ [error; no_results]
    /\ levelname error = ERROR.
Proof.
  intros Hf. destruct (ScanFacts.scan_wifi_sync_recovers s Hf) as (error & Hs & He).
  unfold scan_cycle, bind at 1, gets, try_except.
  unfold bind at 1, scan_wifi_once. rewrite Hs.
  unfold bind, merge, truthy, logger, sleep, event_loop_turn, modify, ret. simpl.
  exists error. eexists. split; [reflexivity|]. simpl.
  rewrite <- app_assoc. auto.
Qed.

Lemma failed_cycle_keeps_cache_witness :
  exists error s',
    scan_cycle Sample.stuck = (Return true, s')
    /\ wifi_data s' = wifi_data Sample.stuck
    /\ log s' = log Sample.stuck ++ [error; no_results]
    /\ levelname error = ERROR.
Proof.
  apply (failed_cycle_keeps_cache Sample.stuck). exact I.
Defined.

(** *** Ties among the strongest *)

Lemma filter_prefix {A} (f : A -> bool) (l front back : list A) :
  l = front ++ back -> filter f l = filter f front ++ filter f back.
Proof. intros ->. apply filter_app. Qed.

(** X10.  Among the records [get_strongest_networks] returns, those of equal
    signal strength stand in the order they have in the cache, and they are
    the first of that strength in the cache. *)
Theorem strongest_ties_in_cache_order s count :
  wf (wifi_data s) ->
  exists result,
    get_strongest_networks count s = (Return result, s)
    /\ forall v, exists later,
         of_strength v (wifi_data s) = of_strength v result ++ later.
Proof.
  intros Hwf.
  destruct (CoordinatorFacts.strongest_run s count Hwf)
    as (result & left_out & Hrun & _ & Hsplit & _).
  exists result. split; [exact Hrun|].
  intros v. exists (of_strength v left_out). unfold of_strength.
  rewrite <- (SortFacts.sorted_reverse_stable signal_key v (wifi_data s)).
  now apply filter_prefix.
Qed.

Lemma strongest_ties_in_cache_order_witness :
  exists result,
    get_strongest_networks 3 Sample.tied = (Return result, Sample.tied)
    /\ forall v, exists later,
         of_strength v (wifi_data Sample.tied) = of_strength v result ++ later.
Proof.
  apply (strongest_ties_in_cache_order Sample.tied 3).
  unfold wf. simpl. repeat constructor; simpl; intuition discriminate.
Defined.

End CoordinatorCover.

(** ** The collector *)

Module CollectorFacts.

Import PyDict WiFiScanner Spec Cover Collector Cover3.

Lemma get_map_values {V W} (g : V -> W) (d : dict V) k :
  get k (map (fun item => (fst item, g (snd item))) d) = option_map g (get k d).
Proof.
  induction d as [|[k' v'] d IH]; simpl; [reflexivity|].
  destruct (str_eqb k k'); [reflexivity|apply IH].
Qed.

Lemma keys_map_values {V W} (g : V -> W) (d : dict V) :
  keys (map (fun item => (fst item, g (snd item))) d) = keys d.
Proof. unfold keys. rewrite map_map. reflexivity. Qed.

(** [read_wifi] on the state of the scanner. *)
Lemma read_wifi_run s :
  wf (wifi_data s) ->
  read_wifi s =
  match reported s with
  | [] => (Return (Some []), with_log (log s ++ [no_networks]) s)
  | _ =>
      (Return (Some (map (fun item => (fst item, Int (signal_strength (snd item))))
                       (reported s))), s)
  end.
Proof.
  intros Hwf. unfold read_wifi, try_except, get_networks, bind, gets, ret, items.
  rewrite DictFacts.of_items_distinct
    by (apply CoordinatorFacts.filter_distinct; assumption).
  change (filter (fun item : str * NetworkInfo =>
                    (default_min_signal <=? signal_strength (snd item))%Z)
            (wifi_data s)) with (reported s).
  assert (Hd : NoDup (map fst (reported s)))
    by (apply CoordinatorFacts.filter_distinct; assumption).
  destruct (reported s) as [|item more] eqn:E; simpl truthy; simpl negb.
  - reflexivity.
  - cbv iota. rewrite DictFacts.of_items_distinct; [reflexivity|].
    rewrite map_map. exact Hd.
Qed.

(** X12.  [read_wifi] never answers [None]: it returns the signal strength
    of every cached network that is not weaker than -100, under the
    network's identifier, and of no other; the cache stays as it was.
    When there is no such network it returns an empty mapping and logs a
    warning; otherwise it logs nothing. *)
Theorem read_wifi_reports s :
  wf (wifi_data s) ->
  exists readings s',
    read_wifi s = (Return (Some readings), s')
    /\ (forall k x,
          get k readings = Some x <->
          exists info,
            get k (wifi_data s) = Some info
            /\ (-100 <= signal_strength info)%Z
            /\ x = Int (signal_strength info))
    /\ wifi_data s' = wifi_data s
    /\ (readings = [] -> log s' = log s ++ [no_networks])
    /\ (readings <> [] -> s' = s).
Proof.
  intros Hwf. rewrite (read_wifi_run s Hwf).
  assert (Hget : forall k x,
            get k (map (fun item => (fst item, Int (signal_strength (snd item))))
                     (reported s)) = Some x <->
            exists info,
              get k (wifi_data s) = Some info
              /\ (-100 <= signal_strength info)%Z
              /\ x = Int (signal_strength info)).
  { intros k x.
    rewrite (get_map_values (fun info => Int (signal_strength info))).
    unfold reported. split.
    - destruct (get k (filter _ (wifi_data s))) as [info|] eqn:E; [|discriminate].
      simpl. intros H. inversion H; subst x.
      apply CoordinatorFacts.get_filter in E as [E1 E2]; [|assumption].
      exists info. unfold signal_key, default_min_signal in E2. simpl in E2.
      apply Z.leb_le in E2. auto.
    - intros (info & G & Hs & ->).
      assert (E : get k (filter (fun item => (default_min_signal <=? signal_key item)%Z)
                           (wifi_data s)) = Some info).
      { apply CoordinatorFacts.get_filter; [assumption|]. split; [assumption|].
        unfold signal_key, default_min_signal. simpl. now apply Z.leb_le. }
      rewrite E. reflexivity. }
  destruct (reported s) as [|item more] eqn:E.
  - eexists _, _. split; [reflexivity|]. split; [exact Hget|].
    split; [reflexivity|]. split; [reflexivity|]. congruence.
  - eexists _, _. split; [reflexivity|]. split; [exact Hget|].
    split; [reflexivity|]. split; [discriminate|reflexivity].
Qed.

Lemma read_wifi_reports_witness :
  exists readings s',
    read_wifi Sample.loaded = (Return (Some readings), s')
    /\ (forall k x,
          get k readings = Some x <->
          exists info,
            get k (wifi_data Sample.loaded) = Some info
            /\ (-100 <= signal_strength info)%Z
            /\ x = Int (signal_strength info))
    /\ wifi_data s' = wifi_data Sample.loaded
    /\ (readings = [] -> log s' = log Sample.loaded ++ [no_networks])
    /\ (readings <> [] -> s' = Sample.loaded).
Proof.
  apply (read_wifi_reports Sample.loaded).
  unfold wf. simpl. repeat constructor; simpl; intuition discriminate.
Defined.


(** *** One reading *)

(** The light sensor's part returns, whatever the sensor does, and leaves
    the cache and the files' behaviour as they were. *)
Lemma collect_light_returns w :
  exists results w1,
    collect_light w = (Return results, w1)
    /\ keys results = [text "light"]
    /\ wifi_data (wifiScanner w1) = wifi_data (wifiScanner w)
    /\ disk w1 = disk w
    /\ (appended w1 = appended w
        \/ exists row, appended w1 = appended w ++ [(light_file, row)]).
Proof.
  unfold collect_light, bind at 1, read_light, bind at 1, gets.
  destruct (lightSensor w) as [sensor|] eqn:Hs.
  - unfold try_except, bind at 1, all_channels.
    destruct (sensor (sensor_reads w)) as [values|e]; simpl.
    + unfold ret at 1.
      destruct (of_items (channel_items 1 values)) as [|item more]; simpl.
      * eexists _, _. split; [reflexivity|]. repeat split. now left.
      * unfold bind, lift, add_metadata, bind, now, ret, appendData. simpl.
        destruct (disk w (length (appended w)) light_file _) as [ok records].
        simpl. eexists _, _. split; [reflexivity|]. repeat split.
        right. eexists. reflexivity.
    + unfold bind, lift, logger, modify, ret. simpl.
      eexists _, _. split; [reflexivity|]. repeat split. now left.
  - unfold bind, lift, logger, modify, ret. simpl.
    eexists _, _. split; [reflexivity|]. repeat split. now left.
Qed.

Lemma reported_same s s' : wifi_data s' = wifi_data s -> reported s' = reported s.
Proof. unfold reported. now intros ->. Qed.

(** The scanner's part, step by step. *)
Lemma collect_wifi_run results w :
  wf (wifi_data (wifiScanner w)) ->
  let s := wifiScanner w in
  let row := wifi_row s (clock s (clock_reads s)) in
  exists noise s',
    collect_wifi results w
    = (Return (setitem (text "wifi")
                 (fst (disk w (length (appended w)) wifi_file row)) results),
       mkWorld s' (lightSensor w) (sensor_reads w) (disk w)
         (appended w ++ [(wifi_file, row)]))
    /\ log s' = log s ++ noise
    /\ wifi_data s' = wifi_data s.
Proof.
  intros Hwf s row. unfold collect_wifi, bind at 1, lift at 1.
  fold s. rewrite (read_wifi_run s Hwf).
  unfold row, wifi_row.
  destruct (reported s) as [|item more] eqn:E.
  - simpl map.
    unfold bind, lift, add_metadata, bind, now, ret, appendData, logger, modify. simpl.
    destruct (disk w (length (appended w)) wifi_file _) as [ok records]. simpl.
    exists ([no_networks] ++ records). eexists. split; [reflexivity|]. simpl.
    split; [|reflexivity]. now rewrite <- !app_assoc.
  - set (readings := map (fun item0 : str * NetworkInfo =>
                            (fst item0, Int (signal_strength (snd item0))))
                       (item :: more)).
    unfold bind, lift, add_metadata, bind, now, ret, appendData, logger, modify. simpl.
    destruct (disk w (length (appended w)) wifi_file _) as [ok records]. simpl.
    exists records. eexists. split; [reflexivity|]. simpl.
    split; reflexivity.
Qed.

Lemma keys_reported s k : In k (keys (reported s)) -> In k (keys (wifi_data s)).
Proof.
  unfold reported, keys. rewrite !in_map_iff.
  intros (item & <- & Hin). apply filter_In in Hin as [Hin _]. eauto.
Qed.

(** The columns of a row: the reported identifiers, then the metadata. *)
Lemma keys_wifi_row s t :
  plain_keys s ->
  keys (wifi_row s t) = keys (reported s) ++ metadata_names.
Proof.
  intros Hplain. unfold wifi_row.
  rewrite (ParserFacts.keys_update_first _ _
             (keys (map (fun item : str * NetworkInfo =>
                           (fst item, Int (signal_strength (snd item))))
                      (reported s)))) by tauto.
  rewrite (keys_map_values (fun info => Int (signal_strength info))). f_equal.
  apply ParserFacts.first_occurrences_distinct.
  - repeat constructor; simpl; intuition discriminate.
  - intros k Hk Hin. apply keys_reported in Hin. exact (Hplain k Hin Hk).
Qed.

Lemma len_wifi_row s t :
  plain_keys s -> len (wifi_row s t) = length (reported s) + 3.
Proof.
  intros Hplain. unfold len.
  rewrite <- (length_map fst (wifi_row s t)).
  change (map fst (wifi_row s t)) with (keys (wifi_row s t)).
  rewrite (keys_wifi_row s t Hplain), length_app. unfold keys.
  rewrite length_map. reflexivity.
Qed.

(** One reading, through both of its parts. *)
Lemma collect_reading_run n w :
  wf (wifi_data (wifiScanner w)) ->
  exists results w' earlier before t,
    collect_reading n w = (Return results, w')
    /\ keys results = [text "light"; text "wifi"]
    /\ get (text "wifi") results
       = Some (fst (disk w (length earlier) wifi_file (wifi_row (wifiScanner w) t)))
    /\ appended w' = earlier ++ [(wifi_file, wifi_row (wifiScanner w) t)]
    /\ (earlier = appended w
        \/ exists row, earlier = appended w ++ [(light_file, row)])
    /\ log (wifiScanner w') = before ++ [reading_summary n results]
    /\ wifi_data (wifiScanner w') = wifi_data (wifiScanner w)
    /\ disk w' = disk w.
Proof.
  intros Hwf. unfold collect_reading, bind at 1.
  destruct (collect_light_returns w) as (results1 & w1 & E1 & K1 & D1 & Hdisk & Happ).
  rewrite E1. cbv beta iota. unfold bind at 1.
  assert (Hwf1 : wf (wifi_data (wifiScanner w1))) by (rewrite D1; exact Hwf).
  destruct (collect_wifi_run results1 w1 Hwf1) as (noise & s' & E2 & L2 & D2).
  cbv zeta in E2, L2, D2. rewrite E2. cbv beta iota.
  unfold bind, lift, logger, modify, ret. simpl.
  assert (Hrow : forall t, wifi_row (wifiScanner w1) t = wifi_row (wifiScanner w) t).
  { intros t. unfold wifi_row. now rewrite (reported_same _ _ D1). }
  rewrite Hrow in *. rewrite Hdisk in *.
  eexists _, _, (appended w1), (log s'), _.
  split; [reflexivity|]. simpl.
  split.
  { rewrite DictFacts.keys_setitem_new; [now rewrite K1|].
    rewrite K1. simpl. intuition discriminate. }
  split.
  { rewrite DictFacts.get_setitem.
    rewrite (proj2 (str_eqb_eq _ _) eq_refl). reflexivity. }
  split; [reflexivity|].
  split; [exact Happ|].
  split; [reflexivity|].
  split; [now rewrite D2|reflexivity].
Qed.

(** X13.  A reading always appends a row for the scanner, whatever the
    cache holds and whether or not the append succeeds: [collect_reading]
    returns, its result has the keys "light" and "wifi" in this order, the
    last call of [appendData] is for the scanner's file, with the signal
    strengths of the reported networks followed by the time stamp and the
    coordinates, and the entry under "wifi" is what that call answered.  At
    most one row, for the light sensor's file, is appended before it, and
    the cache is as it was. *)
Theorem wifi_row_always_appended n w :
  wf (wifi_data (wifiScanner w)) ->
  exists results w' earlier t,
    collect_reading n w = (Return results, w')
    /\ keys results = [text "light"; text "wifi"]
    /\ appended w' = earlier ++ [(wifi_file, wifi_row (wifiScanner w) t)]
    /\ (earlier = appended w
        \/ exists row, earlier = appended w ++ [(light_file, row)])
    /\ get (text "wifi") results
       = Some (fst (disk w (length earlier) wifi_file (wifi_row (wifiScanner w) t)))
    /\ wifi_data (wifiScanner w') = wifi_data (wifiScanner w).
Proof.
  intros Hwf.
  destruct (collect_reading_run n w Hwf)
    as (results & w' & earlier & before & t & E & K & G & A & H & L & D & _).
  exists results, w', earlier, t. auto 10.
Qed.

Lemma wf_loaded : wf (wifi_data Sample.loaded).
Proof. unfold wf. simpl. repeat constructor; simpl; intuition discriminate. Qed.

Lemma wifi_row_always_appended_witness :
  exists results w' earlier t,
    collect_reading 1 (collector Sample.loaded) = (Return results, w')
    /\ keys results = [text "light"; text "wifi"]
    /\ appended w' = earlier ++ [(wifi_file, wifi_row Sample.loaded t)]
    /\ (earlier = []
        \/ exists row, earlier = [] ++ [(light_file, row)])
    /\ get (text "wifi") results
       = Some (fst (disk (collector Sample.loaded) (length earlier) wifi_file
                      (wifi_row Sample.loaded t)))
    /\ wifi_data (wifiScanner w') = wifi_data Sample.loaded.
Proof.
  apply (wifi_row_always_appended 1 (collector Sample.loaded)).
  exact wf_loaded.
Defined.

(** X14.  When no cached identifier is "timestamp", "x" or "y", the row a
    reading appends for the scanner has one column for each reported
    network, in cache order, and then the three columns of the metadata, so
    that the length of the row less three, the number the reading gives
    for its networks, is the number of cached networks that are not weaker
    than -100.  The last record of the log is the summary of the reading,
    with the number of results that are successes. *)
Theorem networks_counted n w :
  wf (wifi_data (wifiScanner w)) ->
  plain_keys (wifiScanner w) ->
  exists results w' earlier row before,
    collect_reading n w = (Return results, w')
    /\ appended w' = earlier ++ [(wifi_file, row)]
    /\ keys row = keys (reported (wifiScanner w)) ++ metadata_names
    /\ (size (Some row) - 3 = Z.of_nat (length (reported (wifiScanner w))))%Z
    /\ log (wifiScanner w') = before ++ [reading_summary n results].
Proof.
  intros Hwf Hplain.
  destruct (collect_reading_run n w Hwf)
    as (results & w' & earlier & before & t & E & K & G & A & H & L & D & _).
  exists results, w', earlier, (wifi_row (wifiScanner w) t), before.
  split; [exact E|]. split; [exact A|].
  split; [now apply keys_wifi_row|].
  split; [|exact L].
  unfold size. rewrite (len_wifi_row _ t Hplain). lia.
Qed.

Lemma plain_loaded : plain_keys Sample.loaded.
Proof.
  intros k Hk Hm. simpl in Hk, Hm.
  intuition (subst; discriminate).
Qed.

Lemma networks_counted_witness :
  exists results w' earlier row before,
    collect_reading 1 (collector Sample.loaded) = (Return results, w')
    /\ appended w' = earlier ++ [(wifi_file, row)]
    /\ keys row = keys (reported Sample.loaded) ++ metadata_names
    /\ (size (Some row) - 3 = Z.of_nat (length (reported Sample.loaded)))%Z
    /\ log (wifiScanner w') = before ++ [reading_summary 1 results].
Proof.
  apply (networks_counted 1 (collector Sample.loaded)).
  - exact wf_loaded.
  - exact plain_loaded.
Defined.


(** *** The light sensor *)

Lemma to_uint_nonnil n : Nat.to_uint n <> Decimal.Nil.
Proof.
  rewrite <- (DecimalNat.Unsigned.of_to n) at 1.
  rewrite DecimalNat.Unsigned.to_of. apply DecimalFacts.unorm_nonnil.
Qed.

Lemma decimal_text_inj n m : decimal_text n = decimal_text m -> n = m.
Proof.
  unfold decimal_text, text. intros H.
  apply (f_equal string_of_list_ascii) in H.
  rewrite !string_of_list_ascii_of_string in H.
  apply (f_equal DecimalString.NilZero.uint_of_string) in H.
  rewrite !DecimalString.NilZero.usu in H by apply to_uint_nonnil.
  injection H as H. now apply DecimalNat.Unsigned.to_uint_inj.
Qed.

Lemma channel_name_inj i j : channel_name i = channel_name j -> i = j.
Proof.
  unfold channel_name. intros H. apply app_inv_head in H.
  now apply decimal_text_inj.
Qed.

Lemma keys_channel_items values :
  forall i, keys (channel_items i values) = map channel_name (seq i (length values)).
Proof.
  induction values as [|val values IH]; intros i; simpl; [reflexivity|].
  f_equal. apply IH.
Qed.

Lemma channel_names_distinct i n : NoDup (map channel_name (seq i n)).
Proof.
  apply NoDup_map_NoDup_ForallPairs; [|apply seq_NoDup].
  intros x y _ _. apply channel_name_inj.
Qed.

Lemma channel_items_distinct i values :
  of_items (channel_items i values) = channel_items i values.
Proof.
  apply DictFacts.of_items_distinct.
  change (map fst (channel_items i values)) with (keys (channel_items i values)).
  rewrite keys_channel_items. apply channel_names_distinct.
Qed.

Lemma in_channel_items values :
  forall start i val,
    nth_error values i = Some val ->
    In (channel_name (start + i), Int val) (channel_items start values).
Proof.
  induction values as [|v values IH]; intros start [|i] val H; simpl in H;
    try discriminate.
  - injection H as ->. rewrite Nat.add_0_r. left. reflexivity.
  - right. replace (start + S i) with (S start + i) by lia. now apply IH.
Qed.

(** [read_light] on a sensor that answers. *)
Lemma read_light_run s sensor n d a values :
  sensor n = Channels values ->
  read_light (mkWorld s (Some sensor) n d a)
  = (Return (Some (channel_items 1 values)), mkWorld s (Some sensor) (S n) d a).
Proof.
  intros H. unfold read_light, bind, gets, try_except, all_channels, ret. simpl.
  rewrite H. rewrite channel_items_distinct. reflexivity.
Qed.

(** X15.  A reading of the light sensor that answers takes the sensor's
    values once and returns them under the names f1, f2, ... in the
    sensor's order: the value at position i (from 0) is under the name
    f(i+1), and there are no other names.  Nothing is logged. *)
Theorem light_channels_read w sensor values :
  lightSensor w = Some sensor ->
  sensor (sensor_reads w) = Channels values ->
  exists data w',
    read_light w = (Return (Some data), w')
    /\ keys data = channel_names (length values)
    /\ (forall i val,
          nth_error values i = Some val ->
          get (channel_name (S i)) data = Some (Int val))
    /\ sensor_reads w' = S (sensor_reads w)
    /\ wifiScanner w' = wifiScanner w.
Proof.
  destruct w as [s ls n d a]. simpl. intros -> H.
  rewrite (read_light_run s sensor n d a values H).
  eexists _, _. split; [reflexivity|].
  split; [apply keys_channel_items|].
  split; [|split; reflexivity].
  intros i val Hi. apply DictFacts.in_get.
  - unfold wf. rewrite keys_channel_items. apply channel_names_distinct.
  - now apply (in_channel_items values 1 i val).
Qed.

Lemma light_channels_read_witness :
  exists data w',
    read_light (mkWorld Sample.fresh (Some (fun _ => Channels [7; 9]%Z)) 0
                  (fun _ _ _ => (true, [])) [])
    = (Return (Some data), w')
    /\ keys data = channel_names 2
    /\ (forall i val,
          nth_error [7; 9]%Z i = Some val ->
          get (channel_name (S i)) data = Some (Int val))
    /\ sensor_reads w' = 1
    /\ wifiScanner w' = Sample.fresh.
Proof.
  apply (light_channels_read
           (mkWorld Sample.fresh (Some (fun _ => Channels [7; 9]%Z)) 0
              (fun _ _ _ => (true, [])) [])
           (fun _ => Channels [7; 9]%Z) [7; 9]%Z); reflexivity.
Defined.

Lemma channel_not_metadata k n i :
  In k (map channel_name (seq i n)) -> ~ In k metadata_names.
Proof.
  intros Hk Hm. apply in_map_iff in Hk as (j & <- & _).
  unfold channel_name in Hm. simpl in Hm.
  intuition discriminate.
Qed.

(** X16.  The light sensor's part of a reading never raises, and stores a
    row exactly when the sensor answers with at least one value: then one
    row goes to the light sensor's file, with the channels f1, f2, ...
    followed by the time stamp and the coordinates, and the entry under
    "light" is what [appendData] answered.  Without a sensor, when the
    sensor raises, and when it answers with no value at all, nothing is
    appended and the entry under "light" is [False]. *)
Theorem light_stored_iff_channels w :
  exists b w1,
    collect_light w = (Return [(text "light", b)], w1)
    /\ (forall sensor v vs,
          lightSensor w = Some sensor ->
          sensor (sensor_reads w) = Channels (v :: vs) ->
          exists row,
            appended w1 = appended w ++ [(light_file, row)]
            /\ keys row = channel_names (S (length vs)) ++ metadata_names
            /\ b = fst (disk w (length (appended w)) light_file row))
    /\ (lightSensor w = None
        \/ (exists sensor,
              lightSensor w = Some sensor
              /\ (sensor (sensor_reads w) = Channels []
                  \/ exists e, sensor (sensor_reads w) = SensorError e)) ->
        b = false /\ appended w1 = appended w).
Proof.
  destruct w as [s [sensor|] n d a]; simpl.
  - destruct (sensor n) as [[|v vs]|e] eqn:Hs.
    + unfold collect_light, bind at 1.
      rewrite (read_light_run s sensor n d a [] Hs). simpl.
      eexists _, _. split; [reflexivity|]. simpl. split.
      * intros sensor' v vs H. injection H as <-. congruence.
      * auto.
    + unfold collect_light, bind at 1.
      rewrite (read_light_run s sensor n d a (v :: vs) Hs).
      change (has_data (Some (channel_items 1 (v :: vs)))) with true. cbv iota.
      unfold bind, lift, add_metadata, bind, now, ret, appendData, logger, modify.
      cbn [wifiScanner lightSensor sensor_reads disk appended with_scanner fst snd].
      destruct (d (length a) light_file _) as [ok records] eqn:Hd.
      cbn [wifiScanner lightSensor sensor_reads disk appended with_scanner fst snd].
      eexists _, _. split; [reflexivity|].
      cbn [wifiScanner lightSensor sensor_reads disk appended with_scanner fst snd].
      split.
      * intros sensor' v' vs' H Hs'. injection H as <-.
        rewrite Hs in Hs'. injection Hs' as <- <-.
        eexists. split; [reflexivity|]. split.
        -- rewrite (ParserFacts.keys_update_first _ _
                      (keys (channel_items 1 (v :: vs)))) by tauto.
           rewrite keys_channel_items.
           apply (f_equal (app (map channel_name (seq 1 (length (v :: vs)))))).
           apply ParserFacts.first_occurrences_distinct.
           ++ repeat constructor; simpl; intuition discriminate.
           ++ intros k Hk Hin. exact (channel_not_metadata _ _ _ Hin Hk).
        -- rewrite Hd. reflexivity.
      * intros [H|(sensor' & H & [H'|(e & H')])]; [discriminate| |];
          injection H as <-; congruence.
    + unfold collect_light, bind at 1, read_light, bind, gets, try_except,
        all_channels, ret, lift, logger, modify. simpl. rewrite Hs. simpl.
      eexists _, _. split; [reflexivity|]. simpl. split.
      * intros sensor' v vs H. injection H as <-. congruence.
      * auto.
  - unfold collect_light, bind at 1, read_light, bind, gets, lift, logger, modify, ret.
    simpl. eexists _, _. split; [reflexivity|]. simpl. split.
    + discriminate.
    + auto.
Qed.

End CollectorFacts.

(** ** [scan_wifi] on a listing *)

Module NmcliFacts.

Import PyDict Nmcli Cover4.

Lemma converts_raises limit rssi e :
  converts limit rssi = Raise e -> e = Exception ValueError.
Proof. apply ParserFacts.int_raises. Qed.

(** The loop over the lines: it stores the readings in the order of the
    lines, and stops with the first that is not a number. *)
Lemma for_each_line_run lines :
  forall d s,
    for_each_line lines d s =
    match converted (int_max_str_digits s) (readings lines) with
    | Some other => (Return (update d other), s)
    | None => (Raise (Exception ValueError), s)
    end.
Proof.
  induction lines as [|line lines IH]; intros d s; [reflexivity|].
  simpl. destruct (split_whitespace [] line) as [|bssid [|rssi rest]];
    try apply IH.
  unfold bind at 1, gets. unfold bind at 1.
  rewrite ParserFacts.int_pure. simpl converted. unfold converts.
  destruct (fst (int (int_max_str_digits s) rssi tt)) as [v|e] eqn:E.
  - rewrite IH.
    destruct (converted (int_max_str_digits s) (readings lines)) as [other|];
      reflexivity.
  - apply ParserFacts.int_raises in E. subst e. reflexivity.
Qed.

Lemma converted_keys limit pairs :
  forall other, converted limit pairs = Some other -> map fst other = map fst pairs.
Proof.
  induction pairs as [|[k rssi] pairs IH]; simpl; intros other H.
  - injection H as <-. reflexivity.
  - destruct (converts limit rssi) as [v|e]; [|discriminate].
    destruct (converted limit pairs) as [other'|]; [|discriminate].
    injection H as <-. simpl. f_equal. now apply IH.
Qed.

Lemma converted_none limit pairs :
  converted limit pairs = None <->
  exists k rssi e, In (k, rssi) pairs /\ converts limit rssi = Raise e.
Proof.
  induction pairs as [|[k rssi] pairs IH]; simpl.
  - split; [discriminate|]. intros (k & rssi & e & [] & _).
  - destruct (converts limit rssi) as [v|e] eqn:E.
    + destruct (converted limit pairs) as [other|]; simpl.
      * split; [discriminate|].
        intros (k' & rssi' & e' & [H|H] & He).
        -- injection H as <- <-. congruence.
        -- assert (X : Some other = None) by (apply IH; eauto).
           discriminate.
      * split; [|reflexivity]. intros _.
        destruct (proj1 IH eq_refl) as (k' & rssi' & e' & Hin & He).
        exists k', rssi', e'. auto.
    + split; [|reflexivity]. intros _. exists k, rssi, e. auto.
Qed.

(** The last reading of an identifier is the one that stays. *)
Lemma converted_lookup limit pairs :
  forall other,
    converted limit pairs = Some other ->
    forall k v,
      get k (rev other) = Some v <->
      exists before rssi after,
        pairs = before ++ (k, rssi) :: after
        /\ ~ In k (map fst after)
        /\ converts limit rssi = Return v.
Proof.
  induction pairs as [|[k0 r0] pairs IH]; simpl; intros other H k v.
  - injection H as <-. simpl. split; [discriminate|].
    intros (before & rssi & after & E & _). destruct before; discriminate.
  - destruct (converts limit r0) as [v0|e] eqn:E0; [|discriminate].
    destruct (converted limit pairs) as [other'|] eqn:E1; [|discriminate].
    injection H as <-. simpl rev. rewrite DictFacts.get_app.
    specialize (IH other' eq_refl k v).
    pose proof (converted_keys limit pairs other' E1) as Hkeys.
    destruct (get k (rev other')) as [v'|] eqn:G.
    + split.
      * intros H. destruct (proj1 IH H) as (before & rssi & after & -> & Ha & Hv).
        exists ((k0, r0) :: before), rssi, after. auto.
      * intros (before & rssi & after & Hp & Ha & Hv).
        destruct before as [|p before]; simpl in Hp.
        -- injection Hp as -> -> ->. exfalso. apply Ha.
           rewrite <- Hkeys.
           apply DictFacts.get_some_in in G. apply in_rev in G.
           apply in_map_iff. exists (k, v'). auto.
        -- injection Hp as _ Hp. apply IH. exists before, rssi, after. auto.
    + simpl. split.
      * destruct (str_eqb k k0) eqn:Ek; [|discriminate].
        apply str_eqb_eq in Ek. subst k0. intros H. injection H as ->.
        exists [], r0, pairs. split; [reflexivity|]. split; [|assumption].
        rewrite <- Hkeys. apply DictFacts.get_none in G.
        intros Hin. apply G. unfold keys. rewrite map_rev. now apply in_rev in Hin.
      * intros (before & rssi & after & Hp & Ha & Hv).
        destruct before as [|p before]; simpl in Hp.
        -- injection Hp as -> -> ->. rewrite str_eqb_refl. congruence.
        -- injection Hp as _ Hp.
           assert (X : @None Z = Some v)
             by (apply IH; exists before, rssi, after; auto).
           discriminate.
Qed.

(** [scan_wifi] when the command ends with status 0. *)
Lemma scan_wifi_run s output :
  processes s (processes_run s) nmcli_command = Exited 0 output ->
  scan_wifi s =
  match converted (int_max_str_digits s) (readings (data_lines output)) with
  | Some other =>
      (Return (update [] other),
       mkState (int_max_str_digits s) (processes s) (S (processes_run s))
         (stdout s ++ [Scanning; ScanDone (len (update [] other))]))
  | None =>
      (Raise (Exception ValueError),
       mkState (int_max_str_digits s) (processes s) (S (processes_run s))
         (stdout s ++ [Scanning]))
  end.
Proof.
  intros H.
  unfold scan_wifi, bind at 1, print at 1, modify.
  unfold try_except, bind at 1, check_output.
  cbn [int_max_str_digits processes processes_run stdout].
  rewrite H. cbn [completed Z.eqb].
  unfold bind at 1. rewrite for_each_line_run.
  cbn [int_max_str_digits processes processes_run stdout].
  fold (data_lines output).
  destruct (converted (int_max_str_digits s) (readings (data_lines output)))
    as [other|].
  - unfold bind, print, modify, ret.
    cbn [int_max_str_digits processes processes_run stdout].
    rewrite <- app_assoc. reflexivity.
  - reflexivity.
Qed.

(** X17.  When the command ends with status 0 and every reading of the
    listing (the first two fields of every line after the heading that has
    at least two fields) has a number for its signal, [scan_wifi] returns
    a mapping in which an identifier has the number of the last line that
    lists it, and no other identifier has a value; it prints the note of
    the scan and then the number of identifiers. *)
Theorem scan_wifi_reads_listing s output :
  processes s (processes_run s) nmcli_command = Exited 0 output ->
  (forall k rssi,
     In (k, rssi) (readings (data_lines output)) ->
     exists v, converts (int_max_str_digits s) rssi = Return v) ->
  exists wifi_data s',
    scan_wifi s = (Return wifi_data, s')
    /\ (forall k v,
          get k wifi_data = Some v <->
          exists before rssi after,
            readings (data_lines output) = before ++ (k, rssi) :: after
            /\ ~ In k (map fst after)
            /\ converts (int_max_str_digits s) rssi = Return v)
    /\ stdout s' = stdout s ++ [Scanning; ScanDone (len wifi_data)].
Proof.
  intros H Hall. rewrite (scan_wifi_run s output H).
  destruct (converted (int_max_str_digits s) (readings (data_lines output)))
    as [other|] eqn:E.
  - eexists _, _. split; [reflexivity|]. split; [|reflexivity].
    intros k v. rewrite DictFacts.get_update. simpl get at 2.
    rewrite <- (converted_lookup _ _ other E k v).
    destruct (get k (rev other)); tauto.
  - apply converted_none in E as (k & rssi & e & Hin & He).
    destruct (Hall k rssi Hin) as [v Hv]. congruence.
Qed.

Lemma scan_wifi_reads_listing_witness :
  exists wifi_data s',
    scan_wifi (nmcli_prints listing) = (Return wifi_data, s')
    /\ (forall k v,
          get k wifi_data = Some v <->
          exists before rssi after,
            readings (data_lines listing) = before ++ (k, rssi) :: after
            /\ ~ In k (map fst after)
            /\ converts 4300 rssi = Return v)
    /\ stdout s' = [] ++ [Scanning; ScanDone (len wifi_data)].
Proof.
  apply (scan_wifi_reads_listing (nmcli_prints listing) listing).
  - reflexivity.
  - intros k rssi Hin. vm_compute in Hin.
    destruct Hin as [E|[E|[E|[]]]]; injection E as <- <-;
      eexists; vm_compute; reflexivity.
Defined.

(** X18.  When the command ends with status 0 and the listing has a
    reading whose signal is not a number, [scan_wifi] raises [ValueError]
    to its caller: neither of its [except] clauses takes it.  The command
    has been run, and only the note of the scan has been printed. *)
Theorem unreadable_signal_escapes s output k rssi e :
  processes s (processes_run s) nmcli_command = Exited 0 output ->
  In (k, rssi) (readings (data_lines output)) ->
  converts (int_max_str_digits s) rssi = Raise e ->
  exists s',
    scan_wifi s = (Raise (Exception ValueError), s')
    /\ processes_run s' = S (processes_run s)
    /\ stdout s' = stdout s ++ [Scanning].
Proof.
  intros H Hin He. rewrite (scan_wifi_run s output H).
  assert (E : converted (int_max_str_digits s) (readings (data_lines output)) = None)
    by (apply converted_none; eauto).
  rewrite E. eexists. split; [reflexivity|]. split; reflexivity.
Qed.

Lemma unreadable_signal_escapes_witness :
  exists s',
    scan_wifi (nmcli_prints listing_unreadable) = (Raise (Exception ValueError), s')
    /\ processes_run s' = 1
    /\ stdout s' = [] ++ [Scanning].
Proof.
  apply (unreadable_signal_escapes (nmcli_prints listing_unreadable)
           listing_unreadable (text "AA:BB:CC:DD:EE:02") (text "--")
           (Exception ValueError)).
  - reflexivity.
  - vm_compute. right. left. reflexivity.
  - vm_compute. reflexivity.
Defined.

End NmcliFacts.
